(** * Essay-config generator: job lifecycle and grade-boundary interpolation

    A shallow embedding of the serverless functions of the repository
    (netlify/functions/process-job-background.js, check-job.js and the
    grade-boundary search worker) together with the properties stated
    about them in the specification.  The start endpoints, the
    generation request and the escaping of the source material are
    embedded as well, with properties of the job lifecycle and of the
    interpolator that the code shows.

    Conventions of the embedding.
    - A JavaScript string is the list of its UTF-16 code units.
    - JavaScript numbers are taken in the range where IEEE-754 double
      arithmetic on integers is exact: integers are [Z], and the one
      division of the interpolator is carried out in [Q].  [Math.round]
      is then [floor (x + 1/2)] and [Math.floor] is [Qfloor].
    - [null] and [undefined] results are [None]; a raised exception is the
      [Throw] constructor of [result]. *)

From Stdlib Require Import ZArith QArith Qround List Lia Bool Ascii String.
From Stdlib Require Import Sorted Permutation DecimalString Lqa.
From Stdlib Require Import DecimalPos.
From stdpp Require Import gmap strings.
Import ListNotations.

Set Warnings "-register-all".

(** ** Strings *)

Abbreviation jsstring := (list N) (only parsing).

(** The code units of an ASCII literal of the source. *)
Definition lit (s : string) : jsstring :=
  map N_of_ascii (list_ascii_of_string s).

(** Outcome of an expression that may raise: the value, or the message of
    the error that was thrown. *)
Inductive result (A : Type) : Type :=
| Ok (a : A)
| Throw (msg : jsstring).
Arguments Ok {A} a.
Arguments Throw {A} msg.

Definition bind {A B} (x : result A) (f : A -> result B) : result B :=
  match x with
  | Ok a => f a
  | Throw e => Throw e
  end.

Notation "'let*' x ':=' e 'in' k" := (bind e (fun x => k))
  (at level 10, x name, e at level 100, k at level 200).

(** Message carried by the [TypeError] the engine raises on a property read
    or a method call on [undefined] or [null].  Its wording is engine
    dependent and no property below depends on it. *)
Definition TypeError : jsstring := lit "TypeError".

(** *** Character classes *)

(** [\s] of a regular expression and the characters removed by
    [String.prototype.trim]: ECMAScript WhiteSpace and LineTerminator. *)
Definition isWhiteSpace (c : N) : bool :=
  ((9 <=? c) && (c <=? 13) || (c =? 32) || (c =? 160) || (c =? 5760)
   || (8192 <=? c) && (c <=? 8202) || (c =? 8232) || (c =? 8233)
   || (c =? 8239) || (c =? 8287) || (c =? 12288) || (c =? 65279))%N.

(** [\d] *)
Definition isDigit (c : N) : bool := ((48 <=? c) && (c <=? 57))%N.

Definition isUpper (c : N) : bool := ((65 <=? c) && (c <=? 90))%N.
Definition isLower (c : N) : bool := ((97 <=? c) && (c <=? 122))%N.

(** [toUpperCase] on one code unit.  It is only ever applied to a grade
    token, which the pattern restricts to ASCII letters, digits, [*]
    and [+]; outside ASCII it is left as the identity. *)
Definition upperChar (c : N) : N := if isLower c then (c - 32)%N else c.

Definition toUpperCase (s : jsstring) : jsstring := map upperChar s.

(** *** trim and split *)

Fixpoint trimStart (s : jsstring) : jsstring :=
  match s with
  | [] => []
  | x :: s' => if isWhiteSpace x then trimStart s' else s
  end.

Definition trimEnd (s : jsstring) : jsstring := rev (trimStart (rev s)).

Definition trim (s : jsstring) : jsstring := trimEnd (trimStart s).

(** [s.split(sep)] for a one-character separator. *)
Fixpoint split (sep : N) (s : jsstring) : list jsstring :=
  match s with
  | [] => [[]]
  | x :: s' =>
      if (x =? sep)%N then [] :: split sep s'
      else match split sep s' with
           | l :: ls => (x :: l) :: ls
           | [] => [[x]]
           end
  end.

(** [arr.join(sep)] *)
Fixpoint join (sep : jsstring) (l : list jsstring) : jsstring :=
  match l with
  | [] => []
  | [x] => x
  | x :: l' => x ++ sep ++ join sep l'
  end.

(** ** Regular expressions

    The backtracking matcher of ECMAScript (section RegExp Semantics): a
    pattern compiles to a matcher that takes the rest of the input, the
    captures so far and a continuation; alternatives are tried in order. *)

Inductive regex : Type :=
| Empty
| Class (p : N -> bool)
| Seq (r1 r2 : regex)
| Alt (r1 r2 : regex)
| Star (greedy : bool) (r : regex)
| Group (i : nat) (r : regex).

Definition captures := list (nat * jsstring).

Definition MatchState : Type := jsstring * captures.

Definition Continuation := jsstring -> captures -> option MatchState.

(** The most recent value of capture [i], [None] when it did not take part. *)
Fixpoint capture (c : captures) (i : nat) : option jsstring :=
  match c with
  | [] => None
  | (j, v) :: c' => if (i =? j)%nat then Some v else capture c' i
  end.

(** RepeatMatcher with min 0 and no max, for the matcher [m] of the
    repeated pattern.  An iteration that consumes nothing is rejected, so
    every iteration shortens the input and the length of the input
    bounds the number of iterations: [fuel] starts as that length, and
    when it is used up the input is empty and only the continuation is
    left to try. *)
Fixpoint repeatMatcher
  (m : jsstring -> captures -> Continuation -> option MatchState)
  (greedy : bool) (k : Continuation) (fuel : nat) (s : jsstring) (c : captures)
  {struct fuel} : option MatchState :=
  match fuel with
  | O => k s c
  | S fuel' =>
      let step s' c' :=
        if (length s' <? length s)%nat
        then repeatMatcher m greedy k fuel' s' c' else None in
      if greedy then
        match m s c step with
        | Some res => Some res
        | None => k s c
        end
      else
        match k s c with
        | Some res => Some res
        | None => m s c step
        end
  end.

Fixpoint matcher (r : regex) (s : jsstring) (c : captures) (k : Continuation)
  {struct r} : option MatchState :=
  match r with
  | Empty => k s c
  | Class p =>
      match s with
      | x :: s' => if p x then k s' c else None
      | [] => None
      end
  | Seq r1 r2 => matcher r1 s c (fun s' c' => matcher r2 s' c' k)
  | Alt r1 r2 =>
      match matcher r1 s c k with
      | Some res => Some res
      | None => matcher r2 s c k
      end
  | Star greedy r' => repeatMatcher (matcher r') greedy k (length s) s c
  | Group i r' =>
      matcher r' s c
        (fun s' c' => k s' ((i, firstn (length s - length s') s) :: c'))
  end.

(** The continuation that ends a match. *)
Definition final : Continuation := fun s c => Some (s, c).

(** [RegExp.prototype.exec] without the [g] flag: the first start index,
    from the left, at which the pattern matches. *)
Fixpoint exec (r : regex) (s : jsstring) : option captures :=
  match matcher r s [] final with
  | Some (_, c) => Some c
  | None =>
      match s with
      | [] => None
      | _ :: s' => exec r s'
      end
  end.

(** Pattern syntax. *)
Definition chr (a : ascii) : regex := Class (N.eqb (N_of_ascii a)).

(** A literal character under the [i] flag. *)
Definition chri (a : ascii) : regex :=
  Class (fun x => (upperChar x =? upperChar (N_of_ascii a))%N).

Definition seqs (l : list regex) : regex := fold_right Seq Empty l.

Definition str (s : string) : regex := seqs (map chr (list_ascii_of_string s)).
Definition stri (s : string) : regex := seqs (map chri (list_ascii_of_string s)).

Definition opt (r : regex) : regex := Alt r Empty.
Definition plus (r : regex) : regex := Seq r (Star true r).

Definition any : regex := Class (fun _ => true).
Definition ws : regex := Class isWhiteSpace.
Definition digit : regex := Class isDigit.

(** [[A-Z\d*+]] under the [i] flag. *)
Definition isGradeChar (c : N) : bool :=
  (isUpper c || isLower c || isDigit c || (c =? 42) || (c =? 43))%N.

(** ** Generation client: extraction of the generated code *)

Definition fence : jsstring := lit "```".

(** [/```(?:javascript|js)?\s*([\s\S]*?)```/] *)
Definition re_fenced : regex :=
  seqs [ str "```"; opt (Alt (str "javascript") (str "js")); Star true ws;
         Group 1 (Star false any); str "```" ].

(** [/(window\.ESSAY_CONFIG[\s\S]*};?)/] *)
Definition re_config : regex :=
  Group 1 (seqs [ str "window.ESSAY_CONFIG"; Star true any; chr "}";
                  opt (chr ";") ]).

(** [match[i].trim()]: a capture that did not take part is [undefined] and
    the call raises. *)
Definition trimGroup (c : captures) (i : nat) : result jsstring :=
  match capture c i with
  | Some v => Ok (trim v)
  | None => Throw TypeError
  end.

Definition extractJavaScript (text : jsstring) : result jsstring :=
  match exec re_fenced text with
  | Some c => trimGroup c 1
  | None =>
      match exec re_config text with
      | Some c => trimGroup c 1
      | None => Ok (trim text)
      end
  end.

(** ** Grade boundary interpolator *)

(** *** Numbers *)

(** [Math.round]: the nearest integer, halves going up. *)
Definition Math_round (x : Q) : Z := Qfloor (x + (1 # 2)).

Definition Math_floor (x : Q) : Z := Qfloor x.

(** [Math.max(...l)] and [Math.min(...l)] of a non-empty argument list;
    the callers never spread an empty array. *)
Definition Math_max (l : list Z) : Z :=
  match l with
  | [] => 0
  | x :: l' => fold_left Z.max l' x
  end.

Definition Math_min (l : list Z) : Z :=
  match l with
  | [] => 0
  | x :: l' => fold_left Z.min l' x
  end.

(** [parseInt] on a string of decimal digits, which is all it is given:
    the captures of [(\d+)] and a grade that passed [/^\d+$/]. *)
Definition digitValue (c : N) : Z := Z.of_N c - 48.

Definition parseInt (s : jsstring) : Z :=
  fold_left (fun acc c => 10 * acc + digitValue c)%Z s 0%Z.

(** [n.toString()] and [`${n}`] of an integer. *)
Definition toString (n : Z) : jsstring :=
  lit (NilZero.string_of_int (Z.to_int n)).

(** [arr.sort(cmp)].  The sort of the language is stable, so for a
    comparator that is a weak order the result is determined: it is what
    insertion from the right computes. *)
Fixpoint insertBy {A} (cmp : A -> A -> Z) (x : A) (l : list A) : list A :=
  match l with
  | [] => [x]
  | y :: l' => if (cmp x y <=? 0)%Z then x :: l else y :: insertBy cmp x l'
  end.

Definition sortBy {A} (cmp : A -> A -> Z) (l : list A) : list A :=
  fold_right (insertBy cmp) [] l.

(** *** Map with number keys

    A [Map] keeps its entries in insertion order; setting a key that is
    present replaces the value in place. *)
Module JSMap.

Definition t (V : Type) := list (Z * V).

Fixpoint set {V} (k : Z) (v : V) (m : t V) : t V :=
  match m with
  | [] => [(k, v)]
  | (k', v') :: m' =>
      if (k =? k')%Z then (k, v) :: m' else (k', v') :: set k v m'
  end.

Fixpoint get {V} (k : Z) (m : t V) : option V :=
  match m with
  | [] => None
  | (k', v') :: m' => if (k =? k')%Z then Some v' else get k m'
  end.

Definition has {V} (k : Z) (m : t V) : bool :=
  match get k m with Some _ => true | None => false end.

Definition keys {V} (m : t V) : list Z := map fst m.

(** [new Map(entries)] *)
Definition of_entries {V} (entries : list (Z * V)) : t V :=
  fold_left (fun m e => set (fst e) (snd e) m) entries [].

End JSMap.

(** *** Boundaries *)

Record boundary : Type := { grade : jsstring; minMark : Z; maxMark : Z }.

(** [{ ...b, gradeNum }] *)
Record numericBoundary : Type := { base :> boundary; gradeNum : Z }.

(** [/(?:Grade\s+)?([A-Z\d*+]+)\s*:\s*(\d+)(?:\s*-\s*(\d+))?/i] *)
Definition re_boundary : regex :=
  seqs [ opt (Seq (stri "Grade") (plus ws));
         Group 1 (plus (Class isGradeChar));
         Star true ws; chr ":"; Star true ws;
         Group 2 (plus digit);
         opt (seqs [ Star true ws; chr "-"; Star true ws;
                     Group 3 (plus digit) ]) ].

(** The body of the parsing loop for one line: [None] when the line does
    not match. *)
Definition parseLine (line : jsstring) : result (option boundary) :=
  match exec re_boundary line with
  | None => Ok None
  | Some c =>
      match capture c 1 with
      | None => Throw TypeError
      | Some g =>
          (* capture 2 takes part in every match of the pattern *)
          let minMark' :=
            match capture c 2 with Some m => parseInt m | None => 0%Z end in
          let maxMark' :=
            match capture c 3 with
            | Some [] | None => minMark'
            | Some m => parseInt m
            end in
          Ok (Some {| grade := toUpperCase g; minMark := minMark';
                      maxMark := maxMark' |})
      end
  end.

Fixpoint parseLines (lines : list jsstring) : result (list boundary) :=
  match lines with
  | [] => Ok []
  | line :: lines' =>
      let* b := parseLine line in
      let* bs := parseLines lines' in
      Ok (match b with Some b => b :: bs | None => bs end)
  end.

Definition nonEmpty (s : jsstring) : bool :=
  match s with [] => false | _ => true end.

(** [boundariesText.split('\n').map(l => l.trim()).filter(l => l)] *)
Definition splitLines (text : jsstring) : list jsstring :=
  List.filter nonEmpty (map trim (split 10%N text)).

(** [/^\d+$/.test(s)] *)
Definition allDigits (s : jsstring) : bool := nonEmpty s && forallb isDigit s.

Definition isNumeric (boundaries : list boundary) : bool :=
  forallb (fun b => allDigits (grade b)) boundaries.

(** [`Grade ${g.grade}: ${g.minMark}-${g.maxMark} marks`] *)
Definition formatBoundary (g : boundary) : jsstring :=
  lit "Grade " ++ grade g ++ lit ": " ++ toString (minMark g) ++ lit "-"
  ++ toString (maxMark g) ++ lit " marks".

Definition formatBoundaries (l : list boundary) : jsstring :=
  join [10%N] (map formatBoundary l).

(** *** interpolateGrade *)

(** The loop over the known grade numbers: the nearest known grade above
    and the nearest below [grade]. *)
Definition nearestStep (grade : Z) (acc : option Z * option Z) (g : Z)
  : option Z * option Z :=
  let (gradeAbove, gradeBelow) := acc in
  let gradeAbove :=
    if (g >? grade)%Z
       && match gradeAbove with None => true | Some a => (g <? a)%Z end
    then Some g else gradeAbove in
  let gradeBelow :=
    if (g <? grade)%Z
       && match gradeBelow with None => true | Some b => (g >? b)%Z end
    then Some g else gradeBelow in
  (gradeAbove, gradeBelow).

Definition nearest (grade : Z) (knownGradeNums : list Z)
  : option Z * option Z :=
  fold_left (nearestStep grade) knownGradeNums (None, None).

(** [knownGrades.get(g).minMark] and the like raise when the key is
    absent. *)
Definition getBound (knownGrades : JSMap.t numericBoundary) (g : Z)
  : result numericBoundary :=
  match JSMap.get g knownGrades with
  | Some b => Ok b
  | None => Throw TypeError
  end.

Definition mkGrade (grade minMark maxMark : Z) : numericBoundary :=
  {| base := {| grade := toString grade; minMark := minMark;
                maxMark := maxMark |};
     gradeNum := grade |}.

(** The two extrapolation branches divide by [gradeAbove] and by
    [10 - gradeBelow]; they are modelled for a non-zero divisor. *)
Definition interpolateGrade (grade : Z) (knownGrades : JSMap.t numericBoundary)
  (totalMarks : Z) : result (option numericBoundary) :=
  let knownGradeNums :=
    sortBy (fun a b => b - a)%Z (JSMap.keys knownGrades) in
  match nearest grade knownGradeNums with
  | (Some gradeAbove, Some gradeBelow) =>
      let* upperBound := getBound knownGrades gradeAbove in
      let* lowerBound := getBound knownGrades gradeBelow in
      let gradeDiff := (gradeAbove - gradeBelow)%Z in
      let markDiff := (minMark upperBound - minMark lowerBound)%Z in
      let markPerGrade := (inject_Z markDiff / inject_Z gradeDiff)%Q in
      let minMark' :=
        Math_round (inject_Z (minMark upperBound)
                    - inject_Z (gradeAbove - grade) * markPerGrade) in
      let maxMark' := Math_round (inject_Z minMark' + markPerGrade - 1) in
      Ok (Some (mkGrade grade minMark' maxMark'))
  | (Some gradeAbove, None) =>
      let* upperBound := getBound knownGrades gradeAbove in
      let avgMarkPerGrade :=
        Math_floor (inject_Z (minMark upperBound) / inject_Z gradeAbove) in
      let minMark' :=
        Z.max 0 (minMark upperBound - (gradeAbove - grade) * avgMarkPerGrade) in
      let maxMark' := (minMark upperBound - 1)%Z in
      Ok (Some (mkGrade grade minMark' maxMark'))
  | (None, Some gradeBelow) =>
      let* lowerBound := getBound knownGrades gradeBelow in
      let avgMarkPerGrade :=
        Math_floor (inject_Z (totalMarks - minMark lowerBound)
                    / inject_Z (10 - gradeBelow)) in
      let minMark' :=
        (maxMark lowerBound + 1 + (grade - gradeBelow - 1) * avgMarkPerGrade)%Z in
      let maxMark' := Z.min totalMarks (minMark' + avgMarkPerGrade - 1) in
      Ok (Some (mkGrade grade minMark' maxMark'))
  | (None, None) => Ok None
  end.

(** *** processGradeBoundaries *)

(** The filling loop [for (grade = maxGrade; grade >= minGrade; grade--)],
    with [n] the number of iterations left. *)
Fixpoint fillGrades (n : nat) (grade : Z)
  (knownGrades : JSMap.t numericBoundary) (totalMarks : Z)
  : result (list numericBoundary) :=
  match n with
  | O => Ok []
  | S n' =>
      let* this :=
        match JSMap.get grade knownGrades with
        | Some b => Ok (Some b)
        | None => interpolateGrade grade knownGrades totalMarks
        end in
      let* rest := fillGrades n' (grade - 1) knownGrades totalMarks in
      Ok (match this with Some b => b :: rest | None => rest end)
  end.

Definition withGradeNum (b : boundary) : numericBoundary :=
  {| base := b; gradeNum := parseInt (grade b) |}.

(** The numeric branch up to the formatting: the array [allGrades]. *)
Definition allGrades (boundaries : list boundary) (totalMarks : Z)
  : result (list numericBoundary) :=
  let numericBoundaries := map withGradeNum boundaries in
  let knownGrades :=
    JSMap.of_entries (map (fun b => (gradeNum b, b)) numericBoundaries) in
  let maxGrade := Math_max (map gradeNum numericBoundaries) in
  let minGrade := Math_min (map gradeNum numericBoundaries) in
  fillGrades (Z.to_nat (maxGrade - minGrade + 1)) maxGrade knownGrades
    totalMarks.

(** The boundaries parsed from the text, in line order. *)
Definition parseBoundaries (boundariesText : jsstring)
  : result (list boundary) :=
  parseLines (splitLines boundariesText).

Definition byMinMarkDesc (a b : boundary) : Z := (minMark b - minMark a)%Z.

Definition processGradeBoundaries (boundariesText : jsstring) (totalMarks : Z)
  : result (option jsstring) :=
  if negb (nonEmpty (trim boundariesText)) then Ok None
  else
    let* boundaries := parseBoundaries boundariesText in
    if (length boundaries =? 0)%nat then Ok (Some boundariesText)
    else
      let boundaries := sortBy byMinMarkDesc boundaries in
      if isNumeric boundaries then
        let* allGrades := allGrades boundaries totalMarks in
        Ok (Some (formatBoundaries (map base allGrades)))
      else Ok (Some (formatBoundaries boundaries)).

(** ** Scaling of a boundary table (grade-boundary search worker) *)

Module Scale.

(** An entry of a found table: [{ grade, minMarks, maxMarks? }].  The
    marks come from parsed JSON, so they are rational numbers; an absent
    [maxMarks] is [None]. *)
Record entry : Type :=
  { grade : jsstring; minMarks : Q; maxMarks : option Q }.

(** An entry of the result: [{ grade, minMarks, maxMarks, originalMin,
    originalMax }], the first three under the names [s_grade],
    [s_minMarks] and [s_maxMarks] here. *)
Record scaledEntry : Type :=
  { s_grade : jsstring; s_minMarks : Z; s_maxMarks : option Z;
    originalMin : Q; originalMax : option Q }.

(** The function returns its argument itself on the first line, and a
    fresh array of scaled entries otherwise. *)
Inductive table : Type :=
| Unchanged (boundaries : list entry)
| Scaled (boundaries : list scaledEntry).

(** Truthiness of a number that may be absent. *)
Definition truthyNum (x : option Q) : bool :=
  match x with
  | None => false
  | Some q => negb (Qeq_bool q 0)
  end.

Definition scaleEntry (scale : Q) (b : entry) : scaledEntry :=
  {| s_grade := grade b;
     s_minMarks := Math_round (minMarks b * scale);
     s_maxMarks :=
       match maxMarks b with
       | Some m => if truthyNum (Some m) then Some (Math_round (m * scale))
                   else None
       | None => None
       end;
     originalMin := minMarks b;
     originalMax := maxMarks b |}.

Definition scaleBoundaries (boundaries : list entry)
  (originalMax : option Q) (targetMax : Q) : table :=
  match originalMax with
  | None => Unchanged boundaries
  | Some om =>
      if negb (truthyNum (Some om)) || Qeq_bool om 0 then Unchanged boundaries
      else
        let scale := (targetMax / om)%Q in
        Scaled (map (scaleEntry scale) boundaries)
  end.

End Scale.

(** ** Job store and handlers *)

(** *** JSON values *)

Inductive json : Type :=
| JNull
| JBool (b : bool)
| JNum (n : Z)
| JStr (s : jsstring)
| JArr (l : list json)
| JObj (fields : list (jsstring * json)).

(** A JavaScript value read from JSON: [None] is [undefined]. *)
Abbreviation value := (option json) (only parsing).

Definition truthy (v : value) : bool :=
  match v with
  | None | Some JNull => false
  | Some (JBool b) => b
  | Some (JNum n) => negb (n =? 0)%Z
  | Some (JStr s) => nonEmpty s
  | Some (JArr _) | Some (JObj _) => true
  end.

Definition eqStr (a b : jsstring) : bool :=
  if decide (a = b) then true else false.

Fixpoint assoc {V} (name : jsstring) (fields : list (jsstring * V)) : option V :=
  match fields with
  | [] => None
  | (n, v) :: fields' => if eqStr name n then Some v else assoc name fields'
  end.

(** The property read [v.name], for a name that is no built-in property:
    it raises on [undefined] and [null] and is [undefined] on the other
    values that are not objects. *)
Definition prop (v : value) (name : string) : result value :=
  match v with
  | None | Some JNull => Throw TypeError
  | Some (JObj fields) => Ok (assoc (lit name) fields)
  | Some _ => Ok None
  end.

(** [v[0]] *)
Definition index0 (v : value) : result value :=
  match v with
  | None | Some JNull => Throw TypeError
  | Some (JArr l) => Ok (head l)
  | Some (JStr (x :: _)) => Ok (Some (JStr [x]))
  | Some (JObj fields) => Ok (assoc (lit "0") fields)
  | Some _ => Ok None
  end.

(** *** The blob store

    The store 'essay-jobs' is a finite map from keys to JSON values.  The
    store is an external service and its operations can fail: a read
    raises when the store is not [readable], a write when it is not
    [writable].  An operation also raises on a key that is not a
    non-empty string (the key validation of the client library). *)
Record BlobStore : Type :=
  { blobs : gmap (list N) json; readable : bool; writable : bool }.

Definition StoreError : jsstring := lit "BlobsInternalError".

Definition validKey (jobId : value) : option jsstring :=
  match jobId with
  | Some (JStr (x :: k)) => Some (x :: k)
  | _ => None
  end.

(** [await store.get(jobId, { type: 'json' })]: [null] when there is no
    entry under the key. *)
Definition store_get (store : BlobStore) (jobId : value) : result value :=
  match validKey jobId with
  | Some k => if readable store then Ok (blobs store !! k) else Throw StoreError
  | None => Throw StoreError
  end.

(** [await store.setJSON(jobId, v)]: the entry under the key becomes [v]. *)
Definition store_setJSON (store : BlobStore) (jobId : value) (v : json)
  : result BlobStore :=
  match validKey jobId with
  | Some k =>
      if writable store
      then Ok {| blobs := <[k := v]> (blobs store);
                 readable := readable store; writable := writable store |}
      else Throw StoreError
  | None => Throw StoreError
  end.

(** *** Poll endpoint (check-job.js) *)

Module CheckJob.

Record Event : Type :=
  { httpMethod : jsstring;
    queryStringParameters : option (list (jsstring * jsstring)) }.

(** The body of a response is always produced by [JSON.stringify]. *)
Inductive Body : Type := JSON_stringify (v : json).

Record Response : Type :=
  { statusCode : Z; headers : list (jsstring * jsstring); body : Body }.

Definition errorBody (msg : jsstring) : Body :=
  JSON_stringify (JObj [(lit "error", JStr msg)]).

Definition jsonHeaders : list (jsstring * jsstring) :=
  [(lit "Content-Type", lit "application/json")].

(** [event.queryStringParameters?.jobId] *)
Definition jobIdParam (event : Event) : option jsstring :=
  match queryStringParameters event with
  | Some q => assoc (lit "jobId") q
  | None => None
  end.

Definition processingBody : Body :=
  JSON_stringify (JObj [(lit "status", JStr (lit "processing"))]).

Definition handler (event : Event) (store : BlobStore) : Response :=
  if negb (eqStr (httpMethod event) (lit "GET")) then
    {| statusCode := 405; headers := [];
       body := errorBody (lit "Method not allowed") |}
  else
    let jobId := jobIdParam event in
    if negb (truthy (option_map JStr jobId)) then
      {| statusCode := 400; headers := [];
         body := errorBody (lit "Missing jobId") |}
    else
      match store_get store (option_map JStr jobId) with
      | Ok result =>
          if negb (truthy result) then
            {| statusCode := 200; headers := jsonHeaders;
               body := processingBody |}
          else
            {| statusCode := 200; headers := jsonHeaders;
               body := JSON_stringify (default JNull result) |}
      | Throw message =>
          {| statusCode := 500; headers := []; body := errorBody message |}
      end.

End CheckJob.

(** *** Background worker (process-job-background.js) *)

Section Worker.

(** Parameters of the worker: [JSON.parse]; the prompt builder
    [buildMessages], a text template whose result only feeds the
    request; the generation request [makeRequest], which resolves to the
    parsed response or is rejected; the configured credential and the
    clock. *)
Variable JSON_parse : jsstring -> result json.
Variable buildMessages : value -> result json.
Variable makeRequest : jsstring -> json -> result json.
Variable ANTHROPIC_API_KEY : option jsstring.
Variable Date_now : Z.

Definition errorRecord (error : json) : json :=
  JObj [(lit "status", JStr (lit "error")); (lit "error", error)].

Definition completedRecord (config : jsstring) : json :=
  JObj [(lit "status", JStr (lit "completed")); (lit "config", JStr config);
        (lit "timestamp", JNum Date_now)].

(** [extractJavaScript(claudeData.content[0].text)]: the method call
    [text.match] raises when [text] is not a string. *)
Definition extractConfig (claudeData : json) : result jsstring :=
  let* content := prop (Some claudeData) "content" in
  let* block := index0 content in
  let* text := prop block "text" in
  match text with
  | Some (JStr t) => extractJavaScript t
  | _ => Throw TypeError
  end.

(** The [try] block from the read of the job on; [jobId] and [store] are
    assigned by then.  The only write is the last action of each path,
    so the block yields the store it leaves, or the error it raised with
    the store untouched. *)
Definition process (jobId : value) (store : BlobStore) : result BlobStore :=
  let* job := store_get store jobId in
  if negb (truthy job) then Ok store                     (* Job not found *)
  else
    let* body := prop job "input" in
    let* _ := prop body "subject" in
    match ANTHROPIC_API_KEY with
    | None | Some [] =>
        store_setJSON store jobId
          (errorRecord (JStr (lit "ANTHROPIC_API_KEY not configured")))
    | Some apiKey =>
        let* messages := buildMessages body in
        let* claudeData := makeRequest apiKey messages in
        let* error := prop (Some claudeData) "error" in
        if truthy error then
          store_setJSON store jobId (errorRecord (default JNull error))
        else
          let* config := extractConfig claudeData in
          store_setJSON store jobId (completedRecord config)
    end.

(** [exports.handler]: the outcome of the invocation and the store it
    leaves.  [connectLambda] and [getStore] only configure the client
    and are not modelled. *)
Definition handler (eventBody : jsstring) (store : BlobStore)
  : result unit * BlobStore :=
  match (let* parsed := JSON_parse eventBody in prop (Some parsed) "jobId") with
  | Throw error => (Ok tt, store)       (* catch: [store] is not assigned *)
  | Ok jobId =>
      match process jobId store with
      | Ok store' => (Ok tt, store')
      | Throw message =>
          (* catch (error) *)
          if truthy jobId then
            match store_setJSON store jobId (errorRecord (JStr message)) with
            | Ok store' => (Ok tt, store')
            | Throw e => (Ok tt, store)        (* Failed to save error state *)
            end
          else (Ok tt, store)
      end
  end.

End Worker.

(** ** Notions of the specification *)

(** [s.startsWith(p)], with the rest of [s] after [p]. *)
Fixpoint stripPrefix (p s : jsstring) : option jsstring :=
  match p, s with
  | [], _ => Some s
  | x :: p', y :: s' => if (x =? y)%N then stripPrefix p' s' else None
  | _ :: _, [] => None
  end.

(** [p] occurs in [s] at index [n]. *)
Definition occursAt (p : jsstring) (n : nat) (s : jsstring) : Prop :=
  exists pre post, s = pre ++ p ++ post /\ length pre = n.

(** A fenced block: an opening fence, the text [b] of the block, a closing
    fence. *)
Definition hasFencedBlock (text : jsstring) : Prop :=
  exists a b c, text = a ++ fence ++ b ++ fence ++ c.

(** The first fenced block of [text]: it opens at the first fence of the
    text and closes at the first fence after that. *)
Definition firstFencedBlock (text a b c : jsstring) : Prop :=
  text = a ++ fence ++ b ++ fence ++ c
  /\ (forall m, occursAt fence m text -> (length a <= m)%nat)
  /\ (forall m, occursAt fence m (b ++ fence ++ c) -> (length b <= m)%nat).

(** The opening fence marker may carry the language tag [javascript] or
    [js]: a block text that begins with one of them has it as part of the
    marker, and the contents of the block are what follows the marker. *)
Definition stripLang (b : jsstring) : jsstring :=
  match stripPrefix (lit "javascript") b with
  | Some b' => b'
  | None =>
      match stripPrefix (lit "js") b with
      | Some b' => b'
      | None => b
      end
  end.

(** An assignment to [window.ESSAY_CONFIG] followed by a closing brace. *)
Definition hasConfig (text : jsstring) : Prop :=
  exists a b c, text = a ++ lit "window.ESSAY_CONFIG" ++ b ++ lit "}" ++ c.

(** The language of a pattern, captures and priorities forgotten. *)
Fixpoint lang (r : regex) (p : jsstring) : Prop :=
  match r with
  | Empty => p = []
  | Class q => exists x, p = [x] /\ q x = true
  | Seq r1 r2 => exists p1 p2, p = p1 ++ p2 /\ lang r1 p1 /\ lang r2 p2
  | Alt r1 r2 => lang r1 p \/ lang r2 p
  | Star _ r' => exists ps, p = concat ps /\ Forall (lang r') ps
  | Group _ r' => lang r' p
  end.

(** Every match of [r] sets capture [i]. *)
Fixpoint defines (r : regex) (i : nat) : bool :=
  match r with
  | Empty | Class _ | Star _ _ => false
  | Seq r1 r2 => defines r1 i || defines r2 i
  | Alt r1 r2 => defines r1 i && defines r2 i
  | Group j r' => (i =? j)%nat || defines r' i
  end.

(** The interpolation formula in the words of the specification. *)
Definition spec_markPerGrade (upperMin lowerMin upperGrade lowerGrade : Z) : Q :=
  inject_Z (upperMin - lowerMin) / inject_Z (upperGrade - lowerGrade).

Definition spec_minMark (upperMin lowerMin upperGrade lowerGrade missingGrade : Z)
  : Z :=
  Math_round
    (inject_Z upperMin
     - inject_Z (upperGrade - missingGrade)
       * spec_markPerGrade upperMin lowerMin upperGrade lowerGrade).

Definition spec_maxMark (upperMin lowerMin upperGrade lowerGrade missingGrade : Z)
  : Z :=
  spec_minMark upperMin lowerMin upperGrade lowerGrade missingGrade
  + Math_round (spec_markPerGrade upperMin lowerMin upperGrade lowerGrade) - 1.


(** ** Further functions of the job lifecycle *)

(** *** The generation request ([makeRequest])

    The promise is settled by the HTTPS exchange: it is rejected on a
    request error, and resolved when the response has ended, with the
    parsed body on status 200 and with an [error] object otherwise.  The
    exchange itself is a parameter: it answers with a status code and the
    response text, or fails. *)
Inductive HttpOutcome : Type :=
| HttpResponse (statusCode : Z) (data : jsstring)
| HttpError (message : jsstring).

Definition makeRequest (JSON_parse : jsstring -> result json)
  (https_request : jsstring -> json -> HttpOutcome)
  (apiKey : jsstring) (messages : json) : result json :=
  match https_request apiKey messages with
  | HttpError message => Throw message                    (* reject *)
  | HttpResponse statusCode data =>
      match JSON_parse data with
      | Ok parsed =>
          Ok (if negb (statusCode =? 200)%Z
              then JObj [(lit "error", parsed)] else parsed)
      | Throw _ => Ok (JObj [(lit "error", JStr data)])
      end
  end.

(** An object literal as the store and [JSON.stringify] keep it: a
    property whose value is [undefined] is left out. *)
Definition object (fields : list (string * value)) : json :=
  JObj (omap (fun f : string * value =>
                match snd f with
                | Some v => Some (lit (fst f), v)
                | None => None
                end) fields).

(** [JSON.parse(event.body)]: the body of an event is a string, or
    [null] when the request has none; [null] is converted to the string
    ['null'] by the parser. *)
Definition parseBody (JSON_parse : jsstring -> result json)
  (body : option jsstring) : result json :=
  JSON_parse (default (lit "null") body).

(** *** Start endpoint of the generation jobs (start function)

    The handler creates the job record and triggers the processor with a
    request it does not wait for; [fetch] is taken to be available in
    the runtime, and a failure of the request itself is ignored by the
    code ([.catch(() => {})]). *)
Module StartJob.

Record Event : Type :=
  { httpMethod : jsstring;
    body : option jsstring;
    headers : option (list (jsstring * jsstring)) }.

(** The request sent by [fetch]: its URL and its JSON body. *)
Record Trigger : Type := { url : jsstring; payload : json }.

(** What an invocation leaves: the response, the store, and the request
    to the processor when one was sent. *)
Record Outcome : Type :=
  { response : CheckJob.Response; store : BlobStore;
    trigger : option Trigger }.

Section Handler.

(** Parameters: [JSON.parse]; the clock, read twice ([Date_now n] is its
    [n]-th reading); the random suffix
    [Math.random().toString(36).substr(2, 9)]; [process.env.URL]. *)
Variable JSON_parse : jsstring -> result json.
Variable Date_now : nat -> Z.
Variable random : jsstring.
Variable URL : option jsstring.

Definition newJobId : jsstring :=
  lit "job_" ++ toString (Date_now 0) ++ lit "_" ++ random.

Definition processingRecord (input : json) : json :=
  JObj [(lit "status", JStr (lit "processing")); (lit "input", input);
        (lit "timestamp", JNum (Date_now 1))].

Definition acceptedBody : CheckJob.Body :=
  CheckJob.JSON_stringify
    (JObj [(lit "jobId", JStr newJobId);
           (lit "status", JStr (lit "processing"))]).

(** [process.env.URL || `https://${event.headers.host}`]: the property
    read raises when the event has no headers; an absent [host] prints
    as [undefined]. *)
Definition siteUrl (event : Event) : result jsstring :=
  match URL with
  | Some (x :: u) => Ok (x :: u)
  | _ =>
      match headers event with
      | None => Throw TypeError
      | Some h =>
          Ok (lit "https://" ++ default (lit "undefined") (assoc (lit "host") h))
      end
  end.

Definition failed (message : jsstring) (store : BlobStore) : Outcome :=
  {| response := {| CheckJob.statusCode := 500; CheckJob.headers := [];
                    CheckJob.body := CheckJob.errorBody message |};
     store := store; trigger := None |}.

Definition handler (event : Event) (store : BlobStore) : Outcome :=
  if negb (eqStr (httpMethod event) (lit "POST")) then
    {| response := {| CheckJob.statusCode := 405; CheckJob.headers := [];
                      CheckJob.body := CheckJob.errorBody (lit "Method not allowed") |};
       store := store; trigger := None |}
  else
    match parseBody JSON_parse (body event) with
    | Throw message => failed message store
    | Ok input =>
        match store_setJSON store (Some (JStr newJobId))
                (processingRecord input) with
        | Throw message => failed message store
        | Ok store' =>
            match siteUrl event with
            | Throw message => failed message store'
            | Ok siteUrl =>
                {| response :=
                     {| CheckJob.statusCode := 202;
                        CheckJob.headers := CheckJob.jsonHeaders;
                        CheckJob.body := acceptedBody |};
                   store := store';
                   trigger :=
                     Some {| url := siteUrl ++ lit "/.netlify/functions/process-job";
                             payload := JObj [(lit "jobId", JStr newJobId)] |} |}
            end
        end
    end.

End Handler.

End StartJob.

(** *** Start endpoint of the question searches (start-search.js)

    [connectLambda] and [getStore] only configure the client and are
    not modelled. *)
Module StartSearch.

Record Event : Type := { httpMethod : jsstring; body : option jsstring }.

Section Handler.

Variable JSON_parse : jsstring -> result json.
Variable Date_now : nat -> Z.
Variable random : jsstring.

Definition newJobId : jsstring :=
  lit "search_" ++ toString (Date_now 0) ++ lit "_" ++ random.

Definition processingRecord (examBoard subject paper questionNumber : value)
  : json :=
  object [("status", Some (JStr (lit "processing")));
          ("input",
           Some (object [("examBoard", examBoard); ("subject", subject);
                         ("paper", paper);
                         ("questionNumber", questionNumber)]));
          ("timestamp", Some (JNum (Date_now 1)))].

Definition respond (statusCode : Z) (headers : list (jsstring * jsstring))
  (body : CheckJob.Body) : CheckJob.Response :=
  {| CheckJob.statusCode := statusCode; CheckJob.headers := headers;
     CheckJob.body := body |}.

Definition acceptedBody : CheckJob.Body :=
  CheckJob.JSON_stringify
    (JObj [(lit "jobId", JStr newJobId);
           (lit "status", JStr (lit "processing"))]).

(** The [try] block: the response and the store it leaves, or the error
    raised, with the store untouched. *)
Definition start (event : Event) (store : BlobStore)
  : result (CheckJob.Response * BlobStore) :=
  let* body := parseBody JSON_parse (body event) in
  let* examBoard := prop (Some body) "examBoard" in
  let* subject := prop (Some body) "subject" in
  let* paper := prop (Some body) "paper" in
  let* questionNumber := prop (Some body) "questionNumber" in
  if negb (truthy examBoard) || negb (truthy subject) then
    Ok (respond 400 []
          (CheckJob.errorBody (lit "Exam board and subject are required")),
        store)
  else
    let* store' :=
      store_setJSON store (Some (JStr newJobId))
        (processingRecord examBoard subject paper questionNumber) in
    Ok (respond 202 CheckJob.jsonHeaders acceptedBody, store').

Definition handler (event : Event) (store : BlobStore)
  : CheckJob.Response * BlobStore :=
  if negb (eqStr (httpMethod event) (lit "POST")) then
    (respond 405 [] (CheckJob.errorBody (lit "Method not allowed")), store)
  else
    match start event store with
    | Ok outcome => outcome
    | Throw message => (respond 500 [] (CheckJob.errorBody message), store)
    end.

End Handler.

End StartSearch.

(** *** Generation in one call (main generation function)

    The handler generates the configuration within the request and
    answers with it; the store ['essay-results'] is optional: it is
    [None] when Blobs is not configured or could not be initialised, and
    a failed write is ignored. *)
Module Generate.

Record Event : Type := { httpMethod : jsstring; body : option jsstring }.

Section Handler.

(** Parameters: as for the worker, with the clock read twice, the random
    suffix of the job id, and the [stack] of an error, whose text is
    engine dependent. *)
Variable JSON_parse : jsstring -> result json.
Variable buildMessages : value -> result json.
Variable makeRequest : jsstring -> json -> result json.
Variable ANTHROPIC_API_KEY : option jsstring.
Variable Date_now : nat -> Z.
Variable random : jsstring.
Variable stack : jsstring -> value.

Definition newJobId : jsstring :=
  lit "job_" ++ toString (Date_now 0) ++ lit "_" ++ random.

Definition respond (statusCode : Z) (headers : list (jsstring * jsstring))
  (body : json) : CheckJob.Response :=
  {| CheckJob.statusCode := statusCode; CheckJob.headers := headers;
     CheckJob.body := CheckJob.JSON_stringify body |}.

Definition resultRecord (config : jsstring) : json :=
  JObj [(lit "completed", JBool true); (lit "config", JStr config);
        (lit "jobId", JStr newJobId); (lit "timestamp", JNum (Date_now 1))].

(** [if (store) { try { await store.setJSON(jobId, result) } catch {} }] *)
Definition save (store : option BlobStore) (result : json)
  : option BlobStore :=
  match store with
  | None => None
  | Some s =>
      match store_setJSON s (Some (JStr newJobId)) result with
      | Ok s' => Some s'
      | Throw _ => Some s
      end
  end.

(** The [try] block: the response and the store it leaves, or the error
    raised, with the store untouched. *)
Definition generate (event : Event) (store : option BlobStore)
  : result (CheckJob.Response * option BlobStore) :=
  let* body := parseBody JSON_parse (body event) in
  let* _ := prop (Some body) "subject" in
  match ANTHROPIC_API_KEY with
  | None | Some [] =>
      Ok (respond 500 []
            (JObj [(lit "error", JStr (lit "ANTHROPIC_API_KEY not configured"))]),
          store)
  | Some apiKey =>
      let* messages := buildMessages (Some body) in
      let* claudeData := makeRequest apiKey messages in
      let* error := prop (Some claudeData) "error" in
      if truthy error then
        Ok (respond 500 []
              (JObj [(lit "error", JStr (lit "Claude API error"));
                     (lit "details", default JNull error)]),
            store)
      else
        let* config := extractConfig claudeData in
        Ok (respond 200 CheckJob.jsonHeaders (resultRecord config),
            save store (resultRecord config))
  end.

Definition handler (event : Event) (store : option BlobStore)
  : CheckJob.Response * option BlobStore :=
  if negb (eqStr (httpMethod event) (lit "POST")) then
    (respond 405 [] (JObj [(lit "error", JStr (lit "Method not allowed"))]),
     store)
  else
    match generate event store with
    | Ok outcome => outcome
    | Throw message =>
        (respond 500 []
           (object [("error", Some (JStr message)); ("stack", stack message)]),
         store)
    end.

End Handler.

End Generate.

(** *** Poll endpoint of the results (check job status)

    The endpoint of the store ['essay-results']: a job with no stored
    result is answered with [{ completed: false }]. *)
Module CheckResult.

Definition handler (event : CheckJob.Event) (store : BlobStore)
  : CheckJob.Response :=
  if negb (eqStr (CheckJob.httpMethod event) (lit "GET")) then
    {| CheckJob.statusCode := 405; CheckJob.headers := [];
       CheckJob.body := CheckJob.errorBody (lit "Method not allowed") |}
  else
    let jobId := CheckJob.jobIdParam event in
    if negb (truthy (option_map JStr jobId)) then
      {| CheckJob.statusCode := 400; CheckJob.headers := [];
         CheckJob.body := CheckJob.errorBody (lit "Missing jobId") |}
    else
      match store_get store (option_map JStr jobId) with
      | Ok result =>
          {| CheckJob.statusCode := 200;
             CheckJob.headers := CheckJob.jsonHeaders;
             CheckJob.body :=
               CheckJob.JSON_stringify
                 (if truthy result then default JNull result
                  else JObj [(lit "completed", JBool false)]) |}
      | Throw message =>
          {| CheckJob.statusCode := 500; CheckJob.headers := [];
             CheckJob.body := CheckJob.errorBody message |}
      end.

End CheckResult.

(** *** Source material in the generated code (injectSourceContent)

    [escapeForTemplateLiteral], the inner function that prepares the
    source material for its place between two backticks of the generated
    code. *)

(** [s.replace(/c/g, r)] for a pattern that is the one character [c]
    and a replacement [r] without [$]. *)
Definition replaceChar (c : N) (r : jsstring) (s : jsstring) : jsstring :=
  flat_map (fun x => if (x =? c)%N then r else [x]) s.

(** [s.replace(/\$\{/g, r)]: the occurrences of the two characters are
    replaced from left to right. *)
Fixpoint replaceDollarBrace (r : jsstring) (s : jsstring) : jsstring :=
  match s with
  | [] => []
  | x :: s' =>
      match s' with
      | y :: s'' =>
          if (x =? 36)%N && (y =? 123)%N then r ++ replaceDollarBrace r s''
          else x :: replaceDollarBrace r s'
      | [] => [x]
      end
  end.

(** The argument is a string at the one call of the function. *)
Definition escapeForTemplateLiteral (str : jsstring) : jsstring :=
  if negb (nonEmpty str) then []
  else
    replaceDollarBrace (lit "\${")
      (replaceChar 96 (lit "\`") (replaceChar 92 (lit "\\") str)).


(** ** Auxiliary definitions *)

(** *** The matcher *)

(** The code units of a list of ASCII characters. *)
Definition lits (l : list ascii) : jsstring := map N_of_ascii l.

(** A starred character class, greedy and lazy, as plain recursions on
    the input. *)
Fixpoint greedyClass (p : N -> bool) (k : Continuation) (s : jsstring)
  (c : captures) : option MatchState :=
  match s with
  | x :: s' =>
      if p x then
        match greedyClass p k s' c with
        | Some res => Some res
        | None => k s c
        end
      else k s c
  | [] => k s c
  end.

Fixpoint lazyClass (p : N -> bool) (k : Continuation) (s : jsstring)
  (c : captures) : option MatchState :=
  match k s c with
  | Some res => Some res
  | None =>
      match s with
      | x :: s' => if p x then lazyClass p k s' c else None
      | [] => None
      end
  end.

(** A match of [r] keeps the captures that are set and sets those [r]
    defines. *)
Definition keeps (r : regex) (c c' : captures) : Prop :=
  forall i, capture c i <> None \/ defines r i = true -> capture c' i <> None.

(** *** Fenced blocks *)

(** No fence starts inside [b] when [b] is followed by [rest]. *)
Definition fenceFree (b rest : jsstring) : Prop :=
  forall b1 b2, b = b1 ++ b2 -> b2 <> [] -> stripPrefix fence (b2 ++ rest) = None.

(** The first occurrence of [p] in [s]: the text before it and after it. *)
Fixpoint breakOn (p s : jsstring) : option (jsstring * jsstring) :=
  match stripPrefix p s with
  | Some t => Some ([], t)
  | None =>
      match s with
      | [] => None
      | x :: s' =>
          match breakOn p s' with
          | Some (a, t) => Some (x :: a, t)
          | None => None
          end
      end
  end.

(** *** Boundaries *)

(** The order of the sorted boundaries: [a] comes before [b]. *)
Definition descMinMark (a b : boundary) : Prop := (minMark b <= minMark a)%Z.

(** The number of a numeric grade token. *)
Definition gradeOf (b : boundary) : Z := parseInt (grade b).

(** [ga] is the nearest key above [g], [gb] the nearest key below. *)
Definition nearestAbove (keys : list Z) (g ga : Z) : Prop :=
  In ga keys /\ (g < ga)%Z /\ forall k, In k keys -> (g < k)%Z -> (ga <= k)%Z.

Definition nearestBelow (keys : list Z) (g gb : Z) : Prop :=
  In gb keys /\ (gb < g)%Z /\ forall k, In k keys -> (k < g)%Z -> (k <= gb)%Z.

(** The grades visited by the filling loop: [n] grades from [g] down. *)
Fixpoint gradesDown (n : nat) (g : Z) : list Z :=
  match n with
  | O => []
  | S n' => g :: gradesDown n' (g - 1)
  end.

(** The grades at which the filling loop calls [interpolateGrade]. *)
Fixpoint interpolateCalls (n : nat) (grade : Z)
  (knownGrades : JSMap.t numericBoundary) : list Z :=
  match n with
  | O => []
  | S n' =>
      match JSMap.get grade knownGrades with
      | Some _ => interpolateCalls n' (grade - 1) knownGrades
      | None => grade :: interpolateCalls n' (grade - 1) knownGrades
      end
  end.

(** The map [knownGrades] and the range of the loop, as [allGrades]
    computes them. *)
Definition knownGradesOf (boundaries : list boundary)
  : JSMap.t numericBoundary :=
  JSMap.of_entries
    (map (fun b : numericBoundary => (gradeNum b, b))
       (map withGradeNum boundaries)).

Definition maxGradeOf (boundaries : list boundary) : Z :=
  Math_max (map gradeNum (map withGradeNum boundaries)).

Definition minGradeOf (boundaries : list boundary) : Z :=
  Math_min (map gradeNum (map withGradeNum boundaries)).

(** An entry of the output at grade [g]: the known boundary, or the
    interpolation between the nearest known grades. *)
Definition entrySpec (known : JSMap.t numericBoundary) (g : Z)
  (e : numericBoundary) : Prop :=
  JSMap.get g known = Some e
  \/ (JSMap.get g known = None
      /\ exists ga gb upper lower,
           nearestAbove (JSMap.keys known) g ga
           /\ nearestBelow (JSMap.keys known) g gb
           /\ JSMap.get ga known = Some upper
           /\ JSMap.get gb known = Some lower
           /\ e = mkGrade g
                    (spec_minMark (minMark upper) (minMark lower) ga gb g)
                    (spec_maxMark (minMark upper) (minMark lower) ga gb g)).






(** *** Job records *)

(** The records written by the terminal transition of the worker. *)
Definition terminalRecord (Date_now : Z) (record : json) : Prop :=
  (exists config, record = completedRecord Date_now config)
  \/ (exists error, record = errorRecord error).

(** The entry under [k] is replaced by [record]; nothing else changes. *)
Definition overwritten (store : BlobStore) (k : jsstring) (record : json)
  : BlobStore :=
  {| blobs := <[k := record]> (blobs store);
     readable := readable store; writable := writable store |}.

(** *** Example inputs *)

Definition fencedExample : jsstring :=
  lit "Here you go: ```js" ++ [10%N] ++ lit "window.ESSAY_CONFIG = {};"
  ++ [10%N] ++ lit "``` Done.".


Definition letterExample : jsstring :=
  lit "C: 50-60" ++ [10%N] ++ lit "A*: 80-100".

Definition specExample : jsstring :=
  lit "Grade 9: 36-40" ++ [10%N] ++ lit "Grade 6: 24-28" ++ [10%N]
  ++ lit "Grade 4: 16-20".

Definition specExampleBoundaries : list boundary :=
  [ {| grade := lit "9"; minMark := 36; maxMark := 40 |};
    {| grade := lit "6"; minMark := 24; maxMark := 28 |};
    {| grade := lit "4"; minMark := 16; maxMark := 20 |} ].

Definition knownExample : JSMap.t numericBoundary :=
  knownGradesOf specExampleBoundaries.


Definition jobExample : json :=
  JObj [(lit "status", JStr (lit "processing"));
        (lit "input", JObj [(lit "subject", JStr (lit "English"))]);
        (lit "timestamp", JNum 1700000000000)].

Definition storeExample : BlobStore :=
  {| blobs := {[ lit "job_1" := jobExample ]};
     readable := true; writable := true |}.

(** The same store while its reads fail. *)
Definition unreadableExample : BlobStore :=
  {| blobs := {[ lit "job_1" := jobExample ]};
     readable := false; writable := true |}.

Definition quote : jsstring := [34%N].

Definition eventExample : jsstring :=
  lit "{" ++ quote ++ lit "jobId" ++ quote ++ lit ":" ++ quote ++ lit "job_1"
  ++ quote ++ lit "}".

(** Stand-ins for the collaborators of the worker in the examples. *)
Definition parseExample (body : jsstring) : result json :=
  if eqStr body eventExample then Ok (JObj [(lit "jobId", JStr (lit "job_1"))])
  else Throw (lit "Unexpected token").

Definition parseMissing (body : jsstring) : result json :=
  Ok (JObj [(lit "jobId", JStr (lit "job_2"))]).

Definition messagesExample (body : option json) : result json := Ok (JArr []).

Definition requestExample (apiKey : jsstring) (messages : json) : result json :=
  Ok (JObj [(lit "content",
             JArr [JObj [(lit "type", JStr (lit "text"));
                         (lit "text",
                          JStr (lit "```js" ++ [10%N]
                                ++ lit "window.ESSAY_CONFIG = {};" ++ [10%N]
                                ++ lit "```"))]])]).

Definition getEvent : CheckJob.Event :=
  {| CheckJob.httpMethod := lit "GET";
     CheckJob.queryStringParameters := Some [(lit "jobId", lit "job_1")] |}.

Definition getOtherEvent : CheckJob.Event :=
  {| CheckJob.httpMethod := lit "GET";
     CheckJob.queryStringParameters := Some [(lit "jobId", lit "job_2")] |}.




(** ** Further notions and auxiliary definitions *)

(** The string that a template literal denotes.  [templateValue s] is
    the value of the literal with the text [s] between its backticks,
    for a text written with the escapes [\\], [\`] and [\$] only: it is
    [None] when a backtick of [s] ends the literal early, a [${] opens a
    substitution, or [s] has another escape.  The line ends CR LF and CR
    of the text are LF in the value. *)
Fixpoint templateValue (s : jsstring) : option jsstring :=
  match s with
  | [] => Some []
  | x :: s' =>
      if (x =? 92)%N then
        match s' with
        | y :: s'' =>
            if ((y =? 92) || (y =? 96) || (y =? 36))%N
            then option_map (cons y) (templateValue s'')
            else None
        | [] => None
        end
      else if (x =? 96)%N then None
      else if (x =? 36)%N then
        match s' with
        | y :: _ =>
            if (y =? 123)%N then None
            else option_map (cons x) (templateValue s')
        | [] => Some [x]
        end
      else if (x =? 13)%N then
        match s' with
        | y :: s'' =>
            if (y =? 10)%N then option_map (cons 10%N) (templateValue s'')
            else option_map (cons 10%N) (templateValue s')
        | [] => Some [10%N]
        end
      else option_map (cons x) (templateValue s')
  end.

(** CR LF and CR turned to LF. *)
Fixpoint normalizeLineEnds (s : jsstring) : jsstring :=
  match s with
  | [] => []
  | x :: s' =>
      if (x =? 13)%N then
        match s' with
        | y :: s'' =>
            if (y =? 10)%N then 10%N :: normalizeLineEnds s''
            else 10%N :: normalizeLineEnds s'
        | [] => [10%N]
        end
      else x :: normalizeLineEnds s'
  end.

(** The job id of the event, as the worker reads it. *)
Definition jobIdOf (JSON_parse : jsstring -> result json)
  (eventBody : jsstring) : result (option json) :=
  let* parsed := JSON_parse eventBody in prop (Some parsed) "jobId".


(** The groups of a pattern, with the pattern each one encloses. *)
Fixpoint groups (r : regex) : list (nat * regex) :=
  match r with
  | Empty | Class _ => []
  | Seq r1 r2 | Alt r1 r2 => groups r1 ++ groups r2
  | Star _ r' => groups r'
  | Group i r' => (i, r') :: groups r'
  end.

(** [v] is a word of a group [i] of [r]. *)
Definition groupWord (r : regex) (i : nat) (v : jsstring) : Prop :=
  exists r', In (i, r') (groups r) /\ lang r' v.

(** The captures [c'] after a match that started with [c]: a value is
    one that was there, or a word of its group. *)
Definition sets (r : regex) (c c' : captures) : Prop :=
  forall i v, capture c' i = Some v -> capture c i = Some v \/ groupWord r i v.

(** A grade token as the parsing loop stores it. *)
Definition isGradeToken (s : jsstring) : bool :=
  nonEmpty s
  && forallb (fun c => isUpper c || isDigit c || (c =? 42) || (c =? 43))%N s.

Definition wellFormed (b : boundary) : Prop :=
  isGradeToken (grade b) = true /\ (0 <= minMark b)%Z /\ (0 <= maxMark b)%Z.

(** A string with no white space at its start. *)
Definition startsClean (s : jsstring) : Prop :=
  match s with
  | [] => True
  | x :: _ => isWhiteSpace x = false
  end.

Definition marker : jsstring := lit "window.ESSAY_CONFIG".

(** The text after the last closing brace that belongs to the match: a
    semicolon that follows the brace directly. *)
Definition semicolon (c : jsstring) : jsstring :=
  match c with
  | y :: _ => if (y =? 59)%N then lit ";" else []
  | [] => []
  end.


(** The two single-character passes of the escaping in one: each
    backslash is doubled, each backtick gets a backslash. *)
Definition escapeChar (x : N) : jsstring :=
  if (x =? 92)%N then [92; 92]%N
  else if (x =? 96)%N then [92; 96]%N else [x].

Definition escaped (s : jsstring) : jsstring :=
  replaceDollarBrace [92; 36; 123]%N (flat_map escapeChar s).

(** *** Further example inputs *)

Definition tableExample : list Scale.entry :=
  [ {| Scale.grade := lit "9"; Scale.minMarks := 80%Q; Scale.maxMarks := None |};
    {| Scale.grade := lit "5"; Scale.minMarks := 41%Q;
       Scale.maxMarks := Some 50%Q |};
    {| Scale.grade := lit "1"; Scale.minMarks := 0%Q;
       Scale.maxMarks := Some 0%Q |} ].

Definition configExample : jsstring :=
  lit "Here: window.ESSAY_CONFIG = { a: {} }; bye".

Definition duplicateExample : list boundary :=
  [ {| grade := lit "7"; minMark := 30; maxMark := 30 |};
    {| grade := lit "7"; minMark := 20; maxMark := 25 |};
    {| grade := lit "5"; minMark := 12; maxMark := 19 |} ].


(** A response of the generation service that is not a success. *)
Definition overloadedExample (apiKey : jsstring) (messages : json)
  : HttpOutcome :=
  HttpResponse 529 (lit "Overloaded").

Definition clockExample (n : nat) : Z := 1700000000000 + Z.of_nat n.

Definition randomExample : jsstring := lit "k3x9q2m1z".

(** The body of a start request, and the payload of the trigger that the
    start function sends for it. *)
Definition startBodyExample : jsstring :=
  lit "{" ++ quote ++ lit "subject" ++ quote ++ lit ":" ++ quote
  ++ lit "English" ++ quote ++ lit "}".

Definition startedIdExample : jsstring := lit "job_1700000000000_k3x9q2m1z".

Definition triggerExample : jsstring :=
  lit "{" ++ quote ++ lit "jobId" ++ quote ++ lit ":" ++ quote
  ++ startedIdExample ++ quote ++ lit "}".

Definition searchBodyExample : jsstring :=
  lit "{" ++ quote ++ lit "examBoard" ++ quote ++ lit ":" ++ quote
  ++ lit "AQA" ++ quote ++ lit "," ++ quote ++ lit "subject" ++ quote
  ++ lit ":" ++ quote ++ lit "History" ++ quote ++ lit "}".

Definition searchIdExample : jsstring := lit "search_1700000000000_k3x9q2m1z".

(** A stand-in for [JSON.parse] on the texts of the examples. *)
Definition parseLifecycle (body : jsstring) : result json :=
  if eqStr body startBodyExample then
    Ok (JObj [(lit "subject", JStr (lit "English"))])
  else if eqStr body triggerExample then
    Ok (JObj [(lit "jobId", JStr startedIdExample)])
  else if eqStr body searchBodyExample then
    Ok (JObj [(lit "examBoard", JStr (lit "AQA"));
              (lit "subject", JStr (lit "History"))])
  else if eqStr body (lit "{}") then Ok (JObj [])
  else Throw (lit "Unexpected token").

Definition startEventExample : StartJob.Event :=
  {| StartJob.httpMethod := lit "POST";
     StartJob.body := Some startBodyExample;
     StartJob.headers := Some [(lit "host", lit "essays.example")] |}.

Definition searchEventExample : StartSearch.Event :=
  {| StartSearch.httpMethod := lit "POST";
     StartSearch.body := Some searchBodyExample |}.

Definition emptySearchEventExample : StartSearch.Event :=
  {| StartSearch.httpMethod := lit "POST";
     StartSearch.body := Some (lit "{}") |}.

Definition generateEventExample : Generate.Event :=
  {| Generate.httpMethod := lit "POST";
     Generate.body := Some startBodyExample |}.

(** An engine that gives its errors no [stack]. *)
Definition noStack (message : jsstring) : option json := None.


(** * Properties *)

(** ** Strings *)

Lemma stripPrefix_app (p s : jsstring) : stripPrefix p (p ++ s) = Some s.
Proof.
  induction p as [|x p IH]; simpl; [reflexivity|].
  now rewrite N.eqb_refl.
Qed.

Lemma stripPrefix_Some (p s s' : jsstring) :
  stripPrefix p s = Some s' -> s = p ++ s'.
Proof.
  revert s; induction p as [|x p IH]; intros s H; simpl in *.
  - now inversion H.
  - destruct s as [|y s]; [discriminate|].
    destruct (N.eqb_spec x y) as [->|]; [|discriminate].
    now rewrite (IH _ H).
Qed.


Lemma trimStart_split (s : jsstring) :
  exists w, s = w ++ trimStart s /\ forallb isWhiteSpace w = true.
Proof.
  induction s as [|x s [w [E Hw]]]; simpl.
  - now exists [].
  - destruct (isWhiteSpace x) eqn:Hx.
    + exists (x :: w). simpl. rewrite Hx, Hw. now rewrite <- E.
    + now exists [].
Qed.

Lemma trimStart_head (s : jsstring) :
  match trimStart s with
  | [] => True
  | x :: _ => isWhiteSpace x = false
  end.
Proof.
  induction s as [|x s IH]; simpl; [exact I|].
  destruct (isWhiteSpace x) eqn:Hx; [exact IH|exact Hx].
Qed.

Lemma trimStart_nil (s : jsstring) :
  trimStart s = [] <-> forallb isWhiteSpace s = true.
Proof.
  induction s as [|x s IH]; simpl; [tauto|].
  destruct (isWhiteSpace x); simpl; [exact IH|].
  split; discriminate.
Qed.



Lemma trim_blank (s : jsstring) :
  trim s = [] <-> forallb isWhiteSpace s = true.
Proof.
  unfold trim, trimEnd. split.
  - intros H.
    assert (H1 : trimStart (rev (trimStart s)) = []).
    { apply (f_equal (@rev N)) in H. now rewrite rev_involutive in H. }
    apply trimStart_nil in H1.
    rewrite forallb_forall in H1.
    pose proof (trimStart_head s) as Hh.
    destruct (trimStart s) as [|x t] eqn:E.
    + now apply trimStart_nil.
    + rewrite (H1 x) in Hh; [discriminate|].
      apply in_rev. rewrite rev_involutive. now left.
  - intros H. apply trimStart_nil in H. now rewrite H.
Qed.


(** ** The matcher *)

Lemma matcher_chrs (l : list ascii) (s : jsstring) (c : captures)
  (k : Continuation) :
  matcher (seqs (map chr l)) s c k =
  match stripPrefix (lits l) s with
  | Some s' => k s' c
  | None => None
  end.
Proof.
  revert s; induction l as [|a l IH]; intros s; simpl; [reflexivity|].
  destruct s as [|x s]; [reflexivity|].
  destruct (N_of_ascii a =? x)%N; [apply IH|reflexivity].
Qed.

Lemma matcher_str (a : string) (s : jsstring) (c : captures) (k : Continuation) :
  matcher (str a) s c k =
  match stripPrefix (lit a) s with
  | Some s' => k s' c
  | None => None
  end.
Proof. apply matcher_chrs. Qed.

Lemma matcher_Seq (r1 r2 : regex) (s : jsstring) (c : captures)
  (k : Continuation) :
  matcher (Seq r1 r2) s c k = matcher r1 s c (fun s' c' => matcher r2 s' c' k).
Proof. reflexivity. Qed.

Lemma matcher_Alt (r1 r2 : regex) (s : jsstring) (c : captures)
  (k : Continuation) :
  matcher (Alt r1 r2) s c k =
  match matcher r1 s c k with
  | Some res => Some res
  | None => matcher r2 s c k
  end.
Proof. reflexivity. Qed.

Lemma matcher_Group (i : nat) (r : regex) (s : jsstring) (c : captures)
  (k : Continuation) :
  matcher (Group i r) s c k =
  matcher r s c (fun s1 c1 => k s1 ((i, firstn (length s - length s1) s) :: c1)).
Proof. reflexivity. Qed.

Lemma matcher_star_greedy (p : N -> bool) (s : jsstring) (c : captures)
  (k : Continuation) :
  matcher (Star true (Class p)) s c k = greedyClass p k s c.
Proof.
  simpl. induction s as [|x s IH]; simpl; [reflexivity|].
  destruct (p x); [|reflexivity].
  assert (L : (length s <? S (length s))%nat = true) by (apply Nat.ltb_lt; lia).
  rewrite L, IH. reflexivity.
Qed.

Lemma matcher_star_lazy (p : N -> bool) (s : jsstring) (c : captures)
  (k : Continuation) :
  matcher (Star false (Class p)) s c k = lazyClass p k s c.
Proof.
  simpl. induction s as [|x s IH]; simpl.
  - now destruct (k [] c).
  - destruct (k (x :: s) c); [reflexivity|].
    destruct (p x); [|reflexivity].
    assert (L : (length s <? S (length s))%nat = true) by (apply Nat.ltb_lt; lia).
    rewrite L, IH. reflexivity.
Qed.

(** Greedy white space: when the continuation succeeds after the whole
    run of white space, that is the match. *)
Lemma greedyClass_ws (k : Continuation) (s : jsstring) (c : captures) res :
  k (trimStart s) c = Some res ->
  greedyClass isWhiteSpace k s c = Some res.
Proof.
  induction s as [|x s IH]; simpl; [trivial|].
  destruct (isWhiteSpace x); [|trivial].
  intros H. now rewrite (IH H).
Qed.

(** Lazy [[\s\S]*?]: the first suffix on which the continuation succeeds. *)
Lemma lazyClass_first (k : Continuation) (pre s : jsstring) (c : captures) :
  (forall p1 p2, pre = p1 ++ p2 -> p2 <> [] -> k (p2 ++ s) c = None) ->
  lazyClass (fun _ => true) k (pre ++ s) c = lazyClass (fun _ => true) k s c.
Proof.
  induction pre as [|x pre IH]; intros H; [reflexivity|].
  pose proof (H [] (x :: pre) eq_refl ltac:(discriminate)) as H0.
  simpl in *. rewrite H0.
  apply IH. intros p1 p2 E N. apply (H (x :: p1) p2); [now rewrite E|exact N].
Qed.

Lemma lazyClass_here (p : N -> bool) (k : Continuation) (s : jsstring)
  (c : captures) res :
  k s c = Some res -> lazyClass p k s c = Some res.
Proof. intros H. destruct s; simpl; now rewrite H. Qed.

(** *** Soundness: a match consumes a word of the language, calls the
    continuation on the rest, and keeps or sets the captures *)

Lemma repeatMatcher_sound
  (m : jsstring -> captures -> Continuation -> option MatchState)
  (L : jsstring -> Prop) (greedy : bool) :
  (forall s c k res, m s c k = Some res ->
     exists p s' c', s = p ++ s' /\ L p /\ k s' c' = Some res
       /\ (forall i, capture c i <> None -> capture c' i <> None)) ->
  forall fuel s c k res,
    repeatMatcher m greedy k fuel s c = Some res ->
    exists p s' c', s = p ++ s' /\ (exists ps, p = concat ps /\ Forall L ps)
      /\ k s' c' = Some res
      /\ (forall i, capture c i <> None -> capture c' i <> None).
Proof.
  intros Hm fuel. induction fuel as [|fuel IH]; intros s c k res H.
  - simpl in H. exists [], s, c. repeat split; auto. now exists [].
  - simpl in H.
    assert (Hstop : k s c = Some res ->
      exists p s' c', s = p ++ s' /\ (exists ps, p = concat ps /\ Forall L ps)
        /\ k s' c' = Some res
        /\ (forall i, capture c i <> None -> capture c' i <> None)).
    { intros Hk. exists [], s, c. repeat split; auto. now exists []. }
    assert (Hgo : m s c (fun s' c' =>
                if (length s' <? length s)%nat
                then repeatMatcher m greedy k fuel s' c' else None) = Some res ->
      exists p s' c', s = p ++ s' /\ (exists ps, p = concat ps /\ Forall L ps)
        /\ k s' c' = Some res
        /\ (forall i, capture c i <> None -> capture c' i <> None)).
    { intros Hg. apply Hm in Hg as (p1 & s1 & c1 & E1 & L1 & K1 & C1).
      destruct (length s1 <? length s)%nat; [|discriminate].
      apply IH in K1 as (p2 & s2 & c2 & E2 & (ps & Eps & Fps) & K2 & C2).
      exists (p1 ++ p2), s2, c2. repeat split.
      - now rewrite E1, E2, app_assoc.
      - exists (p1 :: ps). split; [simpl; now rewrite Eps|now constructor].
      - exact K2.
      - intros i Hi. apply C2, C1, Hi. }
    destruct greedy.
    + destruct (m s c _) eqn:Em.
      * inversion H; subst. now apply Hgo.
      * now apply Hstop.
    + destruct (k s c) eqn:Ek.
      * inversion H; subst. now apply Hstop.
      * now apply Hgo.
Qed.

Lemma capture_cons_keep (c : captures) (j : nat) (v : jsstring) (i : nat) :
  capture c i <> None -> capture ((j, v) :: c) i <> None.
Proof. simpl. destruct (i =? j)%nat; [discriminate|trivial]. Qed.

Lemma matcher_sound (r : regex) :
  forall s c k res, matcher r s c k = Some res ->
    exists p s' c', s = p ++ s' /\ lang r p /\ k s' c' = Some res
      /\ keeps r c c'.
Proof.
  induction r as [|q|r1 IH1 r2 IH2|r1 IH1 r2 IH2|g r IH|j r IH];
    intros s c k res H; simpl in H.
  - exists [], s, c. repeat split; auto. intros i [Hi|Hi]; [exact Hi|discriminate].
  - destruct s as [|x s]; [discriminate|].
    destruct (q x) eqn:Hq; [|discriminate].
    exists [x], s, c. repeat split; auto.
    + now exists x.
    + intros i [Hi|Hi]; [exact Hi|discriminate].
  - apply IH1 in H as (p1 & s1 & c1 & E1 & L1 & K1 & C1).
    apply IH2 in K1 as (p2 & s2 & c2 & E2 & L2 & K2 & C2).
    exists (p1 ++ p2), s2, c2. repeat split.
    + now rewrite E1, E2, app_assoc.
    + now exists p1, p2.
    + exact K2.
    + intros i [Hi|Hi].
      * apply C2. left. apply C1. now left.
      * simpl in Hi. apply orb_true_iff in Hi as [Hi|Hi].
        -- apply C2. left. apply C1. now right.
        -- apply C2. now right.
  - destruct (matcher r1 s c k) eqn:E.
    + inversion H; subst.
      apply IH1 in E as (p1 & s1 & c1 & E1 & L1 & K1 & C1).
      exists p1, s1, c1. repeat split; auto.
      * now left.
      * intros i [Hi|Hi]; apply C1; [now left|].
        simpl in Hi. apply andb_true_iff in Hi. now right.
    + apply IH2 in H as (p1 & s1 & c1 & E1 & L1 & K1 & C1).
      exists p1, s1, c1. repeat split; auto.
      * now right.
      * intros i [Hi|Hi]; apply C1; [now left|].
        simpl in Hi. apply andb_true_iff in Hi. now right.
  - apply (repeatMatcher_sound (matcher r) (lang r)) in H
      as (p & s' & c' & E & Lp & K & C).
    + exists p, s', c'. repeat split; auto.
      intros i [Hi|Hi]; [now apply C|discriminate].
    + intros s0 c0 k0 res0 H0.
      apply IH in H0 as (p1 & s1 & c1 & E1 & L1 & K1 & C1).
      exists p1, s1, c1. repeat split; auto; intros i Hi; apply C1; now left.
  - apply IH in H as (p1 & s1 & c1 & E1 & L1 & K1 & C1).
    eexists p1, s1, _. repeat split; eauto.
    intros i [Hi|Hi]; simpl.
    + destruct (i =? j)%nat; [discriminate|]. apply C1. now left.
    + destruct (i =? j)%nat eqn:Eij; [discriminate|].
      simpl in Hi. rewrite Eij in Hi. apply C1. now right.
Qed.

Lemma exec_sound (r : regex) (s : jsstring) (c : captures) :
  exec r s = Some c ->
  (exists pre p post, s = pre ++ p ++ post /\ lang r p)
  /\ (forall i, defines r i = true -> capture c i <> None).
Proof.
  induction s as [|x s IH]; simpl.
  - destruct (matcher r [] [] _) as [[s' c']|] eqn:E; [|discriminate].
    intros H; inversion H; subst.
    apply matcher_sound in E as (p & s1 & c1 & E1 & L1 & K1 & C1).
    inversion K1; subst. split.
    + now exists [], p, s'.
    + intros i Hi. apply C1. now right.
  - destruct (matcher r (x :: s) [] _) as [[s' c']|] eqn:E.
    + intros H; inversion H; subst.
      apply matcher_sound in E as (p & s1 & c1 & E1 & L1 & K1 & C1).
      inversion K1; subst. split.
      * now exists [], p, s'.
      * intros i Hi. apply C1. now right.
    + intros H. apply IH in H as [(pre & p & post & E1 & L1) C1]. split.
      * exists (x :: pre), p, post. now rewrite E1.
      * exact C1.
Qed.


(** ** Extraction of the generated code *)

Lemma fenceFree_suffix (t b rest : jsstring) :
  fenceFree (t ++ b) rest -> fenceFree b rest.
Proof.
  intros H b1 b2 E N. apply (H (t ++ b1) b2); [|exact N].
  now rewrite E, app_assoc.
Qed.

Lemma fenceFree_first (b rest : jsstring) :
  fenceFree b rest <->
  (forall m, occursAt fence m (b ++ rest) -> (length b <= m)%nat).
Proof.
  split.
  - intros H m (pre & post & E & Lm).
    destruct (Nat.le_gt_cases (length b) m) as [|Hlt]; [assumption|exfalso].
    apply app_eq_app in E as [l [[E1 E2]|[E1 E2]]].
    + assert (N : l <> []).
      { intros ->. rewrite app_nil_r in E1. subst. lia. }
      specialize (H pre l E1 N).
      rewrite <- E2 in H. now rewrite stripPrefix_app in H.
    + subst pre. rewrite length_app in Lm. lia.
  - intros H b1 b2 E N.
    destruct (stripPrefix fence (b2 ++ rest)) as [t|] eqn:S; [exfalso|reflexivity].
    apply stripPrefix_Some in S.
    assert (O : occursAt fence (length b1) (b ++ rest)).
    { exists b1, t. split; [|reflexivity]. now rewrite E, <- app_assoc, S. }
    apply H in O. rewrite E, length_app in O.
    destruct b2; [now apply N|simpl in O; lia].
Qed.

Lemma fence_eq : fence = [96; 96; 96]%N.
Proof. reflexivity. Qed.

Lemma stripPrefix_before_fence (l b rest : jsstring) :
  forallb (fun x => negb (x =? 96)%N) l = true ->
  stripPrefix l (b ++ fence ++ rest) =
  option_map (fun b' => b' ++ fence ++ rest) (stripPrefix l b).
Proof.
  rewrite fence_eq.
  revert b; induction l as [|x l IH]; intros b H; [reflexivity|].
  simpl in H. apply andb_true_iff in H as [Hx Hl].
  destruct b as [|y b]; simpl.
  - destruct (x =? 96)%N; [discriminate|reflexivity].
  - destruct (x =? y)%N; [now apply IH|reflexivity].
Qed.

Lemma trimStart_before_fence (b rest : jsstring) :
  trimStart (b ++ fence ++ rest) = trimStart b ++ fence ++ rest.
Proof.
  rewrite fence_eq.
  induction b as [|x b IH]; simpl; [reflexivity|].
  now destruct (isWhiteSpace x).
Qed.

(** The pattern after the opening marker: white space, the captured
    contents, the closing fence. *)
Lemma fenced_contents (b post : jsstring) :
  fenceFree b (fence ++ post) ->
  matcher (seqs [Star true ws; Group 1 (Star false any); str "```"])
    (b ++ fence ++ post) [] final
  = Some (post, [(1%nat, trimStart b)]).
Proof.
  intros NF.
  change (seqs [Star true ws; Group 1 (Star false any); str "```"])
    with (Seq (Star true (Class isWhiteSpace))
            (Seq (Group 1 (Star false (Class (fun _ => true))))
               (Seq (str "```") Empty))).
  change (matcher (Seq ?A ?B) ?s ?c ?k)
    with (matcher A s c (fun s' c' => matcher B s' c' k)).
  rewrite matcher_star_greedy. apply greedyClass_ws.
  rewrite trimStart_before_fence.
  destruct (trimStart_split b) as [w [Eb Hw]].
  rewrite Eb in NF. apply fenceFree_suffix in NF.
  set (b' := trimStart b) in *. clearbody b'. clear Eb Hw w.
  change (matcher (Seq (Group 1 ?A) ?B) ?s ?c ?k)
    with (matcher A s c
            (fun s' c' => matcher B s'
               ((1%nat, firstn (length s - length s') s) :: c') k)).
  rewrite matcher_star_lazy.
  rewrite lazyClass_first.
  - apply lazyClass_here.
    rewrite matcher_Seq, matcher_str, stripPrefix_app. simpl. unfold final.
    now rewrite length_app, Nat.add_sub, take_app_length.
  - intros p1 p2 E N.
    rewrite matcher_Seq, matcher_str. fold fence. now rewrite (NF p1 p2 E N).
Qed.

Lemma stripLang_spec (b : jsstring) :
  exists t, b = t ++ stripLang b
    /\ forall rest k res,
         k (stripLang b ++ fence ++ rest) [] = Some res ->
         matcher (opt (Alt (str "javascript") (str "js")))
           (b ++ fence ++ rest) [] k = Some res.
Proof.
  unfold stripLang.
  destruct (stripPrefix (lit "javascript") b) as [b1|] eqn:E1.
  - exists (lit "javascript"). split; [now apply stripPrefix_Some|].
    intros rest k res Hk. unfold opt. rewrite !matcher_Alt, !matcher_str.
    rewrite !stripPrefix_before_fence by reflexivity. rewrite E1. cbn [option_map].
    now rewrite Hk.
  - destruct (stripPrefix (lit "js") b) as [b2|] eqn:E2.
    + exists (lit "js"). split; [now apply stripPrefix_Some|].
      intros rest k res Hk. unfold opt. rewrite !matcher_Alt, !matcher_str.
      rewrite !stripPrefix_before_fence by reflexivity. rewrite E1, E2. cbn [option_map].
      now rewrite Hk.
    + exists []. split; [reflexivity|].
      intros rest k res Hk. unfold opt. rewrite !matcher_Alt, !matcher_str.
      rewrite !stripPrefix_before_fence by reflexivity. rewrite E1, E2. cbn [option_map].
      exact Hk.
Qed.

Lemma re_fenced_at_fence (b post : jsstring) :
  fenceFree b (fence ++ post) ->
  matcher re_fenced (fence ++ b ++ fence ++ post) [] final
  = Some (post, [(1%nat, trimStart (stripLang b))]).
Proof.
  intros NF.
  change re_fenced
    with (Seq (str "```")
            (Seq (opt (Alt (str "javascript") (str "js")))
               (seqs [Star true ws; Group 1 (Star false any); str "```"]))).
  rewrite matcher_Seq, matcher_str, stripPrefix_app, matcher_Seq.
  destruct (stripLang_spec b) as (t & Eb & Hm).
  apply Hm. apply fenced_contents.
  rewrite Eb in NF. now apply fenceFree_suffix in NF.
Qed.

Lemma re_fenced_needs_fence (s : jsstring) (k : Continuation) :
  stripPrefix fence s = None -> matcher re_fenced s [] k = None.
Proof.
  intros H.
  change re_fenced
    with (Seq (str "```")
            (Seq (opt (Alt (str "javascript") (str "js")))
               (seqs [Star true ws; Group 1 (Star false any); str "```"]))).
  rewrite matcher_Seq, matcher_str. fold fence. now rewrite H.
Qed.

Lemma exec_cons (r : regex) (x : N) (s : jsstring) :
  exec r (x :: s) =
  match matcher r (x :: s) [] final with
  | Some (_, c) => Some c
  | None => exec r s
  end.
Proof. reflexivity. Qed.

Lemma exec_fenced_skip (a rest : jsstring) :
  fenceFree a rest -> exec re_fenced (a ++ rest) = exec re_fenced rest.
Proof.
  induction a as [|x a IH]; intros NF; [reflexivity|].
  simpl app. rewrite exec_cons, re_fenced_needs_fence.
  - apply IH. now apply (fenceFree_suffix [x]).
  - apply (NF [] (x :: a)); [reflexivity|discriminate].
Qed.

Lemma exec_first_fenced (text a b c : jsstring) :
  firstFencedBlock text a b c ->
  exec re_fenced text = Some [(1%nat, trimStart (stripLang b))].
Proof.
  intros (E & Ha & Hb). subst text.
  apply fenceFree_first in Ha, Hb.
  rewrite exec_fenced_skip by assumption.
  assert (M := re_fenced_at_fence b c Hb).
  destruct (fence ++ b ++ fence ++ c) eqn:E; [discriminate|].
  now rewrite exec_cons, M.
Qed.

Lemma breakOn_Some (p s a t : jsstring) :
  breakOn p s = Some (a, t) ->
  s = a ++ p ++ t
  /\ forall b1 b2, a = b1 ++ b2 -> b2 <> [] ->
       stripPrefix p (b2 ++ p ++ t) = None.
Proof.
  revert a; induction s as [|x s IH]; intros a; simpl.
  - destruct (stripPrefix p []) eqn:E; [|discriminate].
    intros H; inversion H; subst. apply stripPrefix_Some in E. split; [exact E|].
    intros b1 b2 E' N. destruct b1; destruct b2; try discriminate. now elim N.
  - destruct (stripPrefix p (x :: s)) as [t'|] eqn:E.
    + intros H; inversion H; subst. apply stripPrefix_Some in E. split; [exact E|].
      intros b1 b2 E' N. destruct b1; destruct b2; try discriminate. now elim N.
    + destruct (breakOn p s) as [[a' t']|]; [|discriminate].
      intros H; inversion H; subst.
      destruct (IH a' eq_refl) as [Es NF]. split; [now rewrite Es|].
      intros b1 b2 E' N. destruct b1 as [|y b1].
      * simpl in E'. subst b2. simpl. now rewrite <- Es.
      * inversion E'; subst. now apply (NF b1 b2).
Qed.

Lemma breakOn_occurs (p s pre post : jsstring) :
  s = pre ++ p ++ post -> exists a t, breakOn p s = Some (a, t).
Proof.
  revert s; induction pre as [|x pre IH]; intros s ->; simpl app.
  - destruct (p ++ post) eqn:E; simpl; rewrite <- E, stripPrefix_app; eauto.
  - simpl. destruct (stripPrefix p (x :: pre ++ p ++ post)); [eauto|].
    destruct (IH _ eq_refl) as (a & t & ->). eauto.
Qed.

Lemma first_fenced_exists (text : jsstring) :
  hasFencedBlock text -> exists a b c, firstFencedBlock text a b c.
Proof.
  intros (a0 & b0 & c0 & E).
  destruct (breakOn_occurs fence text a0 _ E) as (a & t & Ba).
  apply breakOn_Some in Ba as [Et NFa].
  assert (O : exists pre post, t = pre ++ fence ++ post).
  { assert (La : (length a <= length a0)%nat).
    { apply (proj1 (fenceFree_first a (fence ++ t))); [exact NFa|].
      exists a0, (b0 ++ fence ++ c0). now rewrite <- Et, E. }
    rewrite E in Et.
    replace (a0 ++ fence ++ b0 ++ fence ++ c0)
      with ((a0 ++ fence ++ b0) ++ fence ++ c0) in Et
      by now rewrite <- !app_assoc.
    replace (a ++ fence ++ t) with ((a ++ fence) ++ t) in Et
      by now rewrite <- app_assoc.
    apply app_eq_app in Et as [l [[E1 E2]|[E1 E2]]].
    - now exists l, c0.
    - apply (f_equal (@length N)) in E1.
      rewrite !length_app in E1. rewrite fence_eq in E1. simpl in E1.
      assert (b0 = [] /\ l = []) as (-> & ->).
      { destruct b0, l; simpl in E1; split; try lia; reflexivity. }
      now exists [], c0. }
  destruct O as (pre & post & Ot).
  destruct (breakOn_occurs fence t pre post Ot) as (b & c & Bb).
  apply breakOn_Some in Bb as [Et' NFb].
  exists a, b, c. split; [now rewrite Et, Et'|]. rewrite <- Et'. split.
  - rewrite Et. now apply fenceFree_first.
  - rewrite Et'. now apply fenceFree_first.
Qed.


Lemma lang_chrs (l : list ascii) (p : jsstring) :
  lang (seqs (map chr l)) p -> p = lits l.
Proof.
  revert p; induction l as [|a l IH]; intros p; simpl.
  - trivial.
  - intros (p1 & p2 & -> & (x & -> & Hx) & H2).
    apply N.eqb_eq in Hx. subst x. now rewrite (IH _ H2).
Qed.

Lemma lang_str (a : string) (p : jsstring) : lang (str a) p -> p = lit a.
Proof. apply lang_chrs. Qed.

Lemma lang_re_fenced (p : jsstring) :
  lang re_fenced p -> exists b, p = fence ++ b ++ fence.
Proof.
  change re_fenced
    with (Seq (str "```")
            (Seq (opt (Alt (str "javascript") (str "js")))
               (Seq (Star true ws)
                  (Seq (Group 1 (Star false any)) (Seq (str "```") Empty))))).
  intros (p1 & q1 & -> & L1 & p2 & q2 & -> & _ & p3 & q3 & -> & _
          & p4 & q4 & -> & _ & p5 & q5 & -> & L5 & L6).
  apply lang_str in L1, L5. simpl in L6. subst.
  exists (p2 ++ p3 ++ p4). fold fence. now rewrite app_nil_r, <- !app_assoc.
Qed.

Lemma lang_re_config (p : jsstring) :
  lang re_config p ->
  exists b c, p = lit "window.ESSAY_CONFIG" ++ b ++ lit "}" ++ c.
Proof.
  change re_config
    with (Group 1
            (Seq (str "window.ESSAY_CONFIG")
               (Seq (Star true any) (Seq (chr "}") (Seq (opt (chr ";")) Empty))))).
  intros (p1 & q1 & -> & L1 & p2 & q2 & -> & _ & p3 & q3 & -> & L3
          & p4 & q4 & -> & _ & L5).
  apply lang_str in L1. destruct L3 as (x & -> & Hx).
  apply N.eqb_eq in Hx. subst.
  now exists p2, (p4 ++ q4).
Qed.

Lemma exec_fenced_None (text : jsstring) :
  ~ hasFencedBlock text -> exec re_fenced text = None.
Proof.
  intros H. destruct (exec re_fenced text) as [c|] eqn:E; [exfalso|reflexivity].
  apply exec_sound in E as [(pre & p & post & -> & L) _].
  apply lang_re_fenced in L as [b ->].
  apply H. exists pre, b, post. now rewrite <- !app_assoc.
Qed.


(** The two patterns match exactly the texts with a fenced block and
    with a configuration assignment. *)
Lemma exec_complete (r : regex) (a s : jsstring) :
  matcher r s [] final <> None -> exec r (a ++ s) <> None.
Proof.
  intros H. induction a as [|x a IH]; simpl app.
  - destruct s as [|y s]; simpl; fold final.
    + destruct (matcher r [] [] final) as [[? ?]|]; [discriminate|contradiction].
    + destruct (matcher r (y :: s) [] final) as [[? ?]|];
        [discriminate|contradiction].
  - rewrite exec_cons.
    destruct (matcher r (x :: a ++ s) [] final) as [[? ?]|];
      [discriminate|exact IH].
Qed.

Lemma greedyClass_any (k : Continuation) (pre s : jsstring) (c : captures) :
  k s c <> None -> greedyClass (fun _ => true) k (pre ++ s) c <> None.
Proof.
  intros H. induction pre as [|x pre IH]; simpl.
  - destruct s as [|y s]; simpl; [exact H|].
    destruct (greedyClass (fun _ => true) k s c); [discriminate|exact H].
  - destruct (greedyClass (fun _ => true) k (pre ++ s) c);
      [discriminate|contradiction].
Qed.

Lemma matcher_chr_cons (a : ascii) (s : jsstring) (c : captures)
  (k : Continuation) :
  matcher (chr a) (N_of_ascii a :: s) c k = k s c.
Proof. simpl. now rewrite N.eqb_refl. Qed.

Lemma matcher_brace (s : jsstring) (c : captures) (k : Continuation) :
  (forall s' c', k s' c' <> None) ->
  matcher (Seq (chr "}") (Seq (opt (chr ";")) Empty)) (lit "}" ++ s) c k
  <> None.
Proof.
  intros H. change (lit "}" ++ s) with (N_of_ascii "}" :: s).
  rewrite matcher_Seq, matcher_chr_cons, matcher_Seq. unfold opt.
  rewrite matcher_Alt.
  destruct (matcher (chr ";") s c _); [discriminate|apply H].
Qed.

Lemma hasFencedBlock_match (text : jsstring) :
  hasFencedBlock text <-> exec re_fenced text <> None.
Proof.
  split.
  - intros H. destruct (first_fenced_exists text H) as (a & b & c & F).
    now rewrite (exec_first_fenced _ _ _ _ F).
  - intros H. destruct (exec re_fenced text) as [c|] eqn:E; [|contradiction].
    apply exec_sound in E as [(pre & p & post & -> & L) _].
    apply lang_re_fenced in L as [b ->].
    exists pre, b, post. now rewrite <- !app_assoc.
Qed.

Lemma hasConfig_match (text : jsstring) :
  hasConfig text <-> exec re_config text <> None.
Proof.
  split.
  - intros (a & b & c & ->). apply exec_complete.
    change re_config
      with (Group 1
              (Seq (str "window.ESSAY_CONFIG")
                 (Seq (Star true (Class (fun _ => true)))
                    (Seq (chr "}") (Seq (opt (chr ";")) Empty))))).
    rewrite matcher_Group, matcher_Seq, matcher_str, stripPrefix_app.
    rewrite matcher_Seq, matcher_star_greedy. apply greedyClass_any.
    apply matcher_brace. discriminate.
  - intros H. destruct (exec re_config text) as [c|] eqn:E; [|contradiction].
    apply exec_sound in E as [(pre & p & post & -> & L) _].
    apply lang_re_config in L as (b & c' & ->).
    exists pre, b, (c' ++ post). now rewrite <- !app_assoc.
Qed.

Lemma trimGroup_defined (r : regex) (s : jsstring) (c : captures) (i : nat) :
  exec r s = Some c -> defines r i = true ->
  exists v, capture c i = Some v /\ trimGroup c i = Ok (trim v).
Proof.
  intros E D. apply exec_sound in E as [_ C]. specialize (C i D).
  unfold trimGroup. destruct (capture c i) as [v|]; [|now elim C].
  now exists v.
Qed.



Example extractJavaScript_js_block :
  extractJavaScript fencedExample = Ok (lit "window.ESSAY_CONFIG = {};").
Proof. vm_compute. reflexivity. Qed.

(** A tag other than [javascript] and [js] is not part of the opening
    marker: it stays in the contents. *)
Example extractJavaScript_other_tag :
  extractJavaScript (lit "```python" ++ [10%N] ++ lit "x = 1" ++ [10%N] ++ lit "```")
  = Ok (lit "python" ++ [10%N] ++ lit "x = 1").
Proof. vm_compute. reflexivity. Qed.

Example extractJavaScript_plain_text :
  extractJavaScript (lit "  no code here ") = Ok (lit "no code here").
Proof. vm_compute. reflexivity. Qed.


(** ** Parsing of the boundary text *)

Lemma parseLine_ok (line : jsstring) : exists ob, parseLine line = Ok ob.
Proof.
  unfold parseLine. destruct (exec re_boundary line) as [c|] eqn:E; [|eauto].
  apply exec_sound in E as [_ C].
  specialize (C 1%nat eq_refl).
  destruct (capture c 1) as [g|]; [eauto|now elim C].
Qed.

Lemma parseLines_ok (lines : list jsstring) :
  exists bs, parseLines lines = Ok bs.
Proof.
  induction lines as [|l lines [bs IH]]; simpl; [eauto|].
  destruct (parseLine_ok l) as [ob ->]. simpl. rewrite IH. simpl. eauto.
Qed.

Lemma parseBoundaries_ok (text : jsstring) :
  exists bs, parseBoundaries text = Ok bs.
Proof. apply parseLines_ok. Qed.

Lemma split_forallb (P : N -> bool) (sep : N) (s : jsstring) :
  forallb P s = true -> Forall (fun l => forallb P l = true) (split sep s).
Proof.
  induction s as [|x s IH]; simpl.
  - repeat constructor.
  - intros [Hx Hs]%andb_true_iff. specialize (IH Hs).
    destruct (x =? sep)%N; [now constructor|].
    destruct (split sep s) as [|l ls]; [repeat constructor; simpl; now rewrite Hx|].
    inversion IH; subst. constructor; [simpl; now rewrite Hx|assumption].
Qed.

Lemma splitLines_blank (text : jsstring) :
  trim text = [] -> splitLines text = [].
Proof.
  intros H. apply trim_blank in H.
  apply (split_forallb _ 10%N) in H. unfold splitLines.
  induction H as [|l ls Hl _ IH]; simpl; [reflexivity|].
  apply trim_blank in Hl. now rewrite Hl.
Qed.

Lemma parseBoundaries_blank (text : jsstring) :
  trim text = [] -> parseBoundaries text = Ok [].
Proof. intros H. unfold parseBoundaries. now rewrite splitLines_blank. Qed.

Lemma nonEmpty_false (s : jsstring) : nonEmpty s = false <-> s = [].
Proof. destruct s; simpl; split; congruence. Qed.

(** ** Sorting *)

Lemma insertBy_perm {A} (cmp : A -> A -> Z) (x : A) (l : list A) :
  Permutation (x :: l) (insertBy cmp x l).
Proof.
  induction l as [|y l IH]; simpl; [reflexivity|].
  destruct (cmp x y <=? 0)%Z; [reflexivity|].
  rewrite perm_swap. now constructor.
Qed.

Lemma sortBy_perm {A} (cmp : A -> A -> Z) (l : list A) :
  Permutation l (sortBy cmp l).
Proof.
  induction l as [|x l IH]; simpl; [reflexivity|].
  rewrite <- insertBy_perm. now constructor.
Qed.

Lemma insertBy_sorted (x : boundary) (l : list boundary) :
  Sorted descMinMark l -> Sorted descMinMark (insertBy byMinMarkDesc x l).
Proof.
  induction l as [|y l IH]; simpl; intros S.
  - repeat constructor.
  - unfold byMinMarkDesc at 1.
    destruct (Z.leb_spec (minMark y - minMark x) 0).
    + constructor; [assumption|]. constructor. unfold descMinMark. lia.
    + inversion S as [|? ? S' Hd]; subst. constructor; [now apply IH|].
      destruct l as [|z l]; simpl.
      * constructor. unfold descMinMark. lia.
      * destruct (byMinMarkDesc x z <=? 0)%Z.
        -- constructor. unfold descMinMark. lia.
        -- inversion Hd; subst. now constructor.
Qed.

Lemma sortBy_sorted (l : list boundary) :
  Sorted descMinMark (sortBy byMinMarkDesc l).
Proof.
  induction l as [|x l IH]; simpl; [constructor|now apply insertBy_sorted].
Qed.

Lemma descMinMark_trans : Relations_1.Transitive descMinMark.
Proof. intros a b c. unfold descMinMark. lia. Qed.

(** Stability: boundaries with equal [minMark] keep their input order. *)
Lemma insertBy_stable (m : Z) (x : boundary) (l : list boundary) :
  List.filter (fun b => minMark b =? m)%Z (insertBy byMinMarkDesc x l)
  = List.filter (fun b => minMark b =? m)%Z (x :: l).
Proof.
  induction l as [|y l IH]; [reflexivity|].
  simpl insertBy. unfold byMinMarkDesc at 1.
  destruct (Z.leb_spec (minMark y - minMark x) 0); [reflexivity|].
  simpl List.filter in *. rewrite IH.
  destruct (Z.eqb_spec (minMark x) m), (Z.eqb_spec (minMark y) m);
    try reflexivity; lia.
Qed.

Lemma sortBy_stable (m : Z) (l : list boundary) :
  List.filter (fun b => minMark b =? m)%Z (sortBy byMinMarkDesc l)
  = List.filter (fun b => minMark b =? m)%Z l.
Proof.
  induction l as [|x l IH]; [reflexivity|].
  simpl sortBy. rewrite insertBy_stable. simpl. now rewrite IH.
Qed.

Lemma forallb_perm {A} (P : A -> bool) (l l' : list A) :
  Permutation l l' -> forallb P l = forallb P l'.
Proof.
  induction 1; simpl; try congruence.
  now rewrite !andb_assoc, (andb_comm (P y)).
Qed.

Lemma isNumeric_sortBy (bs : list boundary) :
  isNumeric (sortBy byMinMarkDesc bs) = isNumeric bs.
Proof. symmetry. apply forallb_perm, sortBy_perm. Qed.

Lemma length_sortBy {A} (cmp : A -> A -> Z) (l : list A) :
  length (sortBy cmp l) = length l.
Proof. symmetry. apply Permutation_length, sortBy_perm. Qed.

(** What [processGradeBoundaries] does once some boundary has parsed. *)
Lemma processGradeBoundaries_parsed (text : jsstring) (tm : Z)
  (bs : list boundary) :
  parseBoundaries text = Ok bs -> bs <> [] ->
  processGradeBoundaries text tm =
  if isNumeric bs then
    let* all := allGrades (sortBy byMinMarkDesc bs) tm in
    Ok (Some (formatBoundaries (map base all)))
  else Ok (Some (formatBoundaries (sortBy byMinMarkDesc bs))).
Proof.
  intros P N. unfold processGradeBoundaries.
  destruct (nonEmpty (trim text)) eqn:E; simpl.
  - rewrite P. simpl. rewrite isNumeric_sortBy.
    destruct bs; [now elim N|reflexivity].
  - apply nonEmpty_false, parseBoundaries_blank in E. congruence.
Qed.

Lemma nothing_parsed_result (text : jsstring) (tm : Z) :
  parseBoundaries text = Ok [] ->
  processGradeBoundaries text tm =
  Ok (if nonEmpty (trim text) then Some text else None).
Proof.
  intros P. unfold processGradeBoundaries.
  destruct (nonEmpty (trim text)); simpl; [|reflexivity].
  now rewrite P.
Qed.

(** C3 (as amended).  When no boundary parses from the text, the
    interpolator raises no error: it returns [null] for an empty or blank
    text, and the input text itself, unchanged, for any other text. *)
Theorem processGradeBoundaries_nothing_parsed (text : jsstring) (tm : Z) :
  parseBoundaries text = Ok [] ->
  processGradeBoundaries text tm =
  Ok (if nonEmpty (trim text) then Some text else None).
Proof.
  apply nothing_parsed_result.
Qed.

Lemma processGradeBoundaries_nothing_parsed_witness :
  parseBoundaries (lit "see the attached mark scheme") = Ok []
  /\ processGradeBoundaries (lit "see the attached mark scheme") 40
     = Ok (Some (lit "see the attached mark scheme")).
Proof.
  split; [vm_compute; reflexivity|].
  exact (processGradeBoundaries_nothing_parsed
           (lit "see the attached mark scheme") 40 eq_refl).
Defined.

Example processGradeBoundaries_blank :
  processGradeBoundaries (lit "   " ++ [10%N] ++ lit " ") 40 = Ok None.
Proof. reflexivity. Qed.

(** A text that matches no line of the pattern is returned as it is, not
    as [null] or the empty string. *)
Lemma processGradeBoundaries_unparsed_not_null :
  parseBoundaries (lit "see the attached mark scheme") = Ok []
  /\ processGradeBoundaries (lit "see the attached mark scheme") 40 <> Ok None
  /\ processGradeBoundaries (lit "see the attached mark scheme") 40
     <> Ok (Some []).
Proof. vm_compute. repeat split; discriminate. Qed.

(** C6.  When the parsed grade tokens are not all numeric, nothing is
    interpolated: the output is the formatted list of the parsed
    boundaries, sorted by descending [minMark] (boundaries with equal
    [minMark] in input order) and otherwise unchanged. *)
Theorem letter_grades_sorted_unchanged (text : jsstring) (tm : Z)
  (bs : list boundary) :
  parseBoundaries text = Ok bs ->
  isNumeric bs = false ->
  processGradeBoundaries text tm
    = Ok (Some (formatBoundaries (sortBy byMinMarkDesc bs)))
  /\ Permutation bs (sortBy byMinMarkDesc bs)
  /\ StronglySorted descMinMark (sortBy byMinMarkDesc bs)
  /\ forall m, List.filter (fun b => minMark b =? m)%Z (sortBy byMinMarkDesc bs)
               = List.filter (fun b => minMark b =? m)%Z bs.
Proof.
  intros P Hn. repeat split.
  - rewrite (processGradeBoundaries_parsed text tm bs P).
    + now rewrite Hn.
    + intros ->. discriminate.
  - apply sortBy_perm.
  - apply Sorted_StronglySorted; [exact descMinMark_trans|apply sortBy_sorted].
  - intros m. apply sortBy_stable.
Qed.

Lemma letter_grades_sorted_unchanged_witness :
  processGradeBoundaries letterExample 100
  = Ok (Some (lit "Grade A*: 80-100 marks" ++ [10%N]
              ++ lit "Grade C: 50-60 marks")).
Proof.
  destruct (letter_grades_sorted_unchanged letterExample 100
              [ {| grade := lit "C"; minMark := 50; maxMark := 60 |};
                {| grade := lit "A*"; minMark := 80; maxMark := 100 |} ])
    as [H _]; [vm_compute; reflexivity|reflexivity|].
  rewrite H. vm_compute. reflexivity.
Defined.


(** ** Rounding *)

Lemma Math_round_spec (x : Q) :
  (inject_Z (Math_round x) <= x + (1 # 2) /\ x + (1 # 2) < inject_Z (Math_round x + 1))%Q.
Proof. unfold Math_round. split; [apply Qfloor_le|apply Qlt_floor]. Qed.

Lemma Qfloor_unique (x : Q) (z : Z) :
  (inject_Z z <= x)%Q -> (x < inject_Z (z + 1))%Q -> Qfloor x = z.
Proof.
  intros H1 H2.
  apply Qfloor_resp_le in H1. rewrite Qfloor_Z in H1.
  assert (H3 : (Qfloor x < z + 1)%Z).
  { apply Z.lt_nge. intros H. rewrite Zle_Qle in H.
    pose proof (Qfloor_le x) as H4.
    apply (Qlt_irrefl x). eapply Qlt_le_trans; [exact H2|].
    eapply Qle_trans; [exact H|exact H4]. }
  lia.
Qed.

Lemma Math_round_unique (x : Q) (z : Z) :
  (inject_Z z <= x + (1 # 2))%Q -> (x + (1 # 2) < inject_Z (z + 1))%Q ->
  Math_round x = z.
Proof. apply Qfloor_unique. Qed.

Lemma Math_round_add (n : Z) (x : Q) :
  Math_round (inject_Z n + x) = (n + Math_round x)%Z.
Proof.
  destruct (Math_round_spec x) as [H1 H2].
  apply Math_round_unique.
  - rewrite inject_Z_plus. lra.
  - rewrite <- Z.add_assoc, inject_Z_plus. lra.
Qed.

Lemma Math_round_le (x y : Q) : (x <= y)%Q -> (Math_round x <= Math_round y)%Z.
Proof. intros H. apply Qfloor_resp_le. lra. Qed.


(** The code rounds [minMark + markPerGrade - 1]; with [minMark] an
    integer that is [minMark + round(markPerGrade) - 1]. *)
Lemma Math_round_maxMark (m : Z) (q : Q) :
  Math_round (inject_Z m + q - 1) = (m + Math_round q - 1)%Z.
Proof.
  assert (E : (inject_Z m + q - 1 == inject_Z (m - 1) + q)%Q).
  { unfold Z.sub. rewrite inject_Z_plus, inject_Z_opp.
    change (inject_Z 1) with 1%Q. lra. }
  unfold Math_round at 1. rewrite (Qfloor_comp _ _ (Qplus_comp _ _ E _ _ (Qeq_refl _))).
  fold (Math_round (inject_Z (m - 1) + q)). rewrite Math_round_add. lia.
Qed.

(** ** The map of known grades *)

Lemma JSMap_get_set {V} (k k' : Z) (v : V) (m : JSMap.t V) :
  JSMap.get k (JSMap.set k' v m) = if (k =? k')%Z then Some v else JSMap.get k m.
Proof.
  induction m as [|[k0 v0] m IH]; simpl.
  - reflexivity.
  - destruct (Z.eqb_spec k' k0) as [->|N0]; simpl.
    + destruct (Z.eqb_spec k k0); reflexivity.
    + destruct (Z.eqb_spec k k0) as [->|N1].
      * destruct (Z.eqb_spec k0 k'); [congruence|reflexivity].
      * exact IH.
Qed.

Lemma JSMap_keys_get {V} (k : Z) (m : JSMap.t V) :
  In k (JSMap.keys m) <-> JSMap.get k m <> None.
Proof.
  induction m as [|[k0 v0] m IH]; simpl; [tauto|].
  destruct (Z.eqb_spec k k0) as [->|N0].
  - split; [discriminate|auto].
  - rewrite <- IH. split; [intros [?|?]; congruence|auto].
Qed.

Lemma JSMap_of_entries_get {V} (l : list (Z * V)) (m0 : JSMap.t V) (k : Z) :
  JSMap.get k (fold_left (fun m e => JSMap.set (fst e) (snd e) m) l m0)
  = match JSMap.get k (rev l) with
    | Some v => Some v
    | None => JSMap.get k m0
    end.
Proof.
  revert m0; induction l as [|[k1 v1] l IH]; intros m0; simpl; [reflexivity|].
  rewrite IH, JSMap_get_set. simpl.
  assert (A : forall (l1 : JSMap.t V) k2 v2,
             JSMap.get k (l1 ++ [(k2, v2)]) =
             match JSMap.get k l1 with
             | Some v => Some v
             | None => if (k =? k2)%Z then Some v2 else None
             end).
  { induction l1 as [|[k3 v3] l1 IHl]; intros k2 v2; simpl; [reflexivity|].
    destruct (k =? k3)%Z; [reflexivity|apply IHl]. }
  rewrite A. destruct (JSMap.get k (rev l)); [reflexivity|].
  now destruct (k =? k1)%Z.
Qed.

Lemma JSMap_get_In {V} (k : Z) (v : V) (m : JSMap.t V) :
  JSMap.get k m = Some v -> In (k, v) m.
Proof.
  induction m as [|[k0 v0] m IH]; simpl; [discriminate|].
  destruct (Z.eqb_spec k k0) as [->|]; [intros [= ->]; now left|auto].
Qed.

Lemma JSMap_get_None {V} (k : Z) (m : JSMap.t V) :
  JSMap.get k m = None <-> ~ In k (map fst m).
Proof.
  induction m as [|[k0 v0] m IH]; simpl; [tauto|].
  destruct (Z.eqb_spec k k0) as [->|]; [split; [discriminate|tauto]|].
  rewrite IH. split; [intros H [?|?]; auto|tauto].
Qed.

(** The entry of the map under a key is an entry of the list, and a key is
    in the map exactly when it is a key of the list. *)
Lemma of_entries_Some {V} (l : list (Z * V)) (k : Z) (v : V) :
  JSMap.get k (JSMap.of_entries l) = Some v -> In (k, v) l.
Proof.
  unfold JSMap.of_entries. rewrite JSMap_of_entries_get. simpl.
  destruct (JSMap.get k (rev l)) eqn:E; [|discriminate].
  intros [= ->]. apply JSMap_get_In in E. now apply in_rev in E.
Qed.

Lemma of_entries_None {V} (l : list (Z * V)) (k : Z) :
  JSMap.get k (JSMap.of_entries l) = None <-> ~ In k (map fst l).
Proof.
  unfold JSMap.of_entries. rewrite JSMap_of_entries_get. simpl.
  destruct (JSMap.get k (rev l)) eqn:E.
  - split; [discriminate|]. intros H. exfalso. apply H.
    apply JSMap_get_In, in_rev in E. now apply (in_map fst) in E.
  - apply JSMap_get_None in E. split; [|reflexivity].
    intros _ H. apply E. rewrite map_rev. now apply in_rev in H.
Qed.

(** ** Nearest known grades *)

Lemma nearest_snoc (g : Z) (keys : list Z) (k : Z) :
  nearest g (keys ++ [k]) = nearestStep g (nearest g keys) k.
Proof. unfold nearest. now rewrite fold_left_app. Qed.

Lemma nearest_spec (g : Z) (keys : list Z) :
  match fst (nearest g keys) with
  | Some a => nearestAbove keys g a
  | None => forall k, In k keys -> (k <= g)%Z
  end
  /\ match snd (nearest g keys) with
     | Some b => nearestBelow keys g b
     | None => forall k, In k keys -> (g <= k)%Z
     end.
Proof.
  induction keys as [|k keys IH] using rev_ind.
  - simpl. split; intros k [].
  - rewrite nearest_snoc. destruct (nearest g keys) as [a b].
    simpl in IH. destruct IH as [IHa IHb].
    unfold nearestStep, nearestAbove, nearestBelow in *. simpl. split.
    + destruct a as [a|].
      * destruct IHa as (Ia & La & Ma).
        destruct (Z.gtb_spec k g), (Z.ltb_spec k a); simpl;
          (split; [rewrite in_app_iff; simpl; auto|]);
          (split; [lia|]);
          intros k' [Hk|[<-|[]]]%in_app_iff Hg; try lia;
          specialize (Ma _ Hk Hg); lia.
      * destruct (Z.gtb_spec k g); simpl.
        -- split; [rewrite in_app_iff; simpl; auto|]. split; [lia|].
           intros k' [Hk|[<-|[]]]%in_app_iff Hg; [|lia].
           specialize (IHa _ Hk). lia.
        -- intros k' [Hk|[<-|[]]]%in_app_iff; [now apply IHa|lia].
    + destruct b as [b|].
      * destruct IHb as (Ib & Lb & Mb).
        destruct (Z.ltb_spec k g), (Z.gtb_spec k b); simpl;
          (split; [rewrite in_app_iff; simpl; auto|]);
          (split; [lia|]);
          intros k' [Hk|[<-|[]]]%in_app_iff Hg; try lia;
          specialize (Mb _ Hk Hg); lia.
      * destruct (Z.ltb_spec k g); simpl.
        -- split; [rewrite in_app_iff; simpl; auto|]. split; [lia|].
           intros k' [Hk|[<-|[]]]%in_app_iff Hg; [|lia].
           specialize (IHb _ Hk). lia.
        -- intros k' [Hk|[<-|[]]]%in_app_iff; [now apply IHb|lia].
Qed.

Lemma nearest_eq (g : Z) (keys : list Z) (ga gb : Z) :
  nearestAbove keys g ga -> nearestBelow keys g gb ->
  nearest g keys = (Some ga, Some gb).
Proof.
  intros (Ia & La & Ma) (Ib & Lb & Mb).
  destruct (nearest_spec g keys) as [Ha Hb].
  destruct (nearest g keys) as [[a|] [b|]]; simpl in *.
  - destruct Ha as (Ia' & La' & Ma'), Hb as (Ib' & Lb' & Mb').
    assert (a = ga) by (specialize (Ma _ Ia' La'); specialize (Ma' _ Ia La); lia).
    assert (b = gb) by (specialize (Mb _ Ib' Lb'); specialize (Mb' _ Ib Lb); lia).
    congruence.
  - specialize (Hb _ Ib). lia.
  - specialize (Ha _ Ia). lia.
  - specialize (Ha _ Ia). lia.
Qed.

Lemma nearestAbove_perm (keys keys' : list Z) (g ga : Z) :
  Permutation keys keys' -> nearestAbove keys g ga -> nearestAbove keys' g ga.
Proof.
  intros P (I & L & M). split; [|split]; [|exact L|].
  - now apply (Permutation_in _ P).
  - intros k Hk. apply M. now apply (Permutation_in _ (Permutation_sym P)).
Qed.

Lemma nearestBelow_perm (keys keys' : list Z) (g gb : Z) :
  Permutation keys keys' -> nearestBelow keys g gb -> nearestBelow keys' g gb.
Proof.
  intros P (I & L & M). split; [|split]; [|exact L|].
  - now apply (Permutation_in _ P).
  - intros k Hk. apply M. now apply (Permutation_in _ (Permutation_sym P)).
Qed.

(** ** interpolateGrade *)

(** The interpolation branch, taken when the grade has a known grade on
    either side. *)
Lemma interpolateGrade_between (grade : Z)
  (knownGrades : JSMap.t numericBoundary) (totalMarks : Z)
  (gradeAbove gradeBelow : Z) (upper lower : numericBoundary) :
  nearestAbove (JSMap.keys knownGrades) grade gradeAbove ->
  nearestBelow (JSMap.keys knownGrades) grade gradeBelow ->
  JSMap.get gradeAbove knownGrades = Some upper ->
  JSMap.get gradeBelow knownGrades = Some lower ->
  interpolateGrade grade knownGrades totalMarks
  = Ok (Some (mkGrade grade
                (spec_minMark (minMark upper) (minMark lower)
                   gradeAbove gradeBelow grade)
                (spec_maxMark (minMark upper) (minMark lower)
                   gradeAbove gradeBelow grade))).
Proof.
  intros Ha Hb Gu Gl. unfold interpolateGrade.
  rewrite (nearest_eq grade _ gradeAbove gradeBelow).
  - unfold getBound. rewrite Gu, Gl. simpl.
    unfold spec_maxMark, spec_minMark, spec_markPerGrade.
    now rewrite Math_round_maxMark.
  - eapply nearestAbove_perm; [apply sortBy_perm|exact Ha].
  - eapply nearestBelow_perm; [apply sortBy_perm|exact Hb].
Qed.



(** ** The interpolation formula *)






(** ** Range of the filling loop *)

Lemma fold_max_spec (l : list Z) (x : Z) :
  (fold_left Z.max l x = x \/ In (fold_left Z.max l x) l)
  /\ (x <= fold_left Z.max l x)%Z
  /\ forall y, In y l -> (y <= fold_left Z.max l x)%Z.
Proof.
  revert x; induction l as [|a l IH]; intros x; simpl.
  - repeat split; [now left|lia|intros y []].
  - destruct (IH (Z.max x a)) as (I & L & M). repeat split.
    + destruct I as [E|I]; [|now right; right].
      rewrite E. destruct (Z.max_spec x a) as [[_ ->]|[_ ->]]; auto.
    + lia.
    + intros y [<-|Hy]; [lia|now apply M].
Qed.

Lemma fold_min_spec (l : list Z) (x : Z) :
  (fold_left Z.min l x = x \/ In (fold_left Z.min l x) l)
  /\ (fold_left Z.min l x <= x)%Z
  /\ forall y, In y l -> (fold_left Z.min l x <= y)%Z.
Proof.
  revert x; induction l as [|a l IH]; intros x; simpl.
  - repeat split; [now left|lia|intros y []].
  - destruct (IH (Z.min x a)) as (I & L & M). repeat split.
    + destruct I as [E|I]; [|now right; right].
      rewrite E. destruct (Z.min_spec x a) as [[_ ->]|[_ ->]]; auto.
    + lia.
    + intros y [<-|Hy]; [lia|now apply M].
Qed.

Lemma Math_max_spec (l : list Z) :
  l <> [] -> In (Math_max l) l /\ forall y, In y l -> (y <= Math_max l)%Z.
Proof.
  destruct l as [|x l]; [congruence|intros _]. simpl Math_max.
  destruct (fold_max_spec l x) as (I & L & M). split.
  - destruct I as [->|I]; [now left|now right].
  - intros y [<-|Hy]; [exact L|now apply M].
Qed.

Lemma Math_min_spec (l : list Z) :
  l <> [] -> In (Math_min l) l /\ forall y, In y l -> (Math_min l <= y)%Z.
Proof.
  destruct l as [|x l]; [congruence|intros _]. simpl Math_min.
  destruct (fold_min_spec l x) as (I & L & M). split.
  - destruct I as [->|I]; [now left|now right].
  - intros y [<-|Hy]; [exact L|now apply M].
Qed.

Lemma gradeNums_eq (bs : list boundary) :
  map gradeNum (map withGradeNum bs) = map gradeOf bs.
Proof. rewrite map_map. reflexivity. Qed.

Lemma known_keys (bs : list boundary) (k : Z) :
  In k (JSMap.keys (knownGradesOf bs)) <-> In k (map gradeOf bs).
Proof.
  rewrite JSMap_keys_get. unfold knownGradesOf.
  rewrite of_entries_None, map_map. simpl.
  change (map (fun x : numericBoundary => gradeNum x) (map withGradeNum bs))
    with (map gradeNum (map withGradeNum bs)).
  rewrite gradeNums_eq.
  destruct (in_dec Z.eq_dec k (map gradeOf bs)); tauto.
Qed.

Lemma known_get (bs : list boundary) (k : Z) (e : numericBoundary) :
  JSMap.get k (knownGradesOf bs) = Some e ->
  In (base e) bs /\ gradeNum e = gradeOf (base e) /\ gradeNum e = k.
Proof.
  intros H. apply of_entries_Some in H.
  apply in_map_iff in H as (nb & [= <- <-] & H).
  apply in_map_iff in H as (b & <- & H). auto.
Qed.

Lemma known_get_None (bs : list boundary) (k : Z) :
  JSMap.get k (knownGradesOf bs) = None ->
  forall b, In b bs -> gradeOf b <> k.
Proof.
  intros H b Hb E. apply JSMap_keys_get in H; [trivial|].
  apply known_keys. rewrite <- E. now apply in_map.
Qed.

(** ** The filling loop *)

Lemma nearestAbove_exists (keys : list Z) (g hi : Z) :
  In hi keys -> (g < hi)%Z -> exists ga, nearestAbove keys g ga.
Proof.
  intros I L. destruct (nearest_spec g keys) as [H _].
  destruct (fst (nearest g keys)) as [a|]; [eauto|].
  specialize (H _ I). lia.
Qed.

Lemma nearestBelow_exists (keys : list Z) (g lo : Z) :
  In lo keys -> (lo < g)%Z -> exists gb, nearestBelow keys g gb.
Proof.
  intros I L. destruct (nearest_spec g keys) as [_ H].
  destruct (snd (nearest g keys)) as [b|]; [eauto|].
  specialize (H _ I). lia.
Qed.

(** Inside the range of the known grades a missing grade has a known
    grade on either side. *)
Lemma missing_in_range (known : JSMap.t numericBoundary) (lo hi g : Z) :
  In lo (JSMap.keys known) -> In hi (JSMap.keys known) ->
  (lo <= g <= hi)%Z -> JSMap.get g known = None ->
  (lo < g < hi)%Z
  /\ exists ga gb upper lower,
       nearestAbove (JSMap.keys known) g ga
       /\ nearestBelow (JSMap.keys known) g gb
       /\ JSMap.get ga known = Some upper
       /\ JSMap.get gb known = Some lower.
Proof.
  intros Ilo Ihi R G.
  assert (Nk : ~ In g (JSMap.keys known)) by (rewrite JSMap_keys_get; tauto).
  assert (R' : (lo < g < hi)%Z).
  { split; apply Z.le_neq; split; try lia; intros E; subst; contradiction. }
  split; [exact R'|].
  destruct (nearestAbove_exists _ g hi Ihi) as [ga Ha]; [lia|].
  destruct (nearestBelow_exists _ g lo Ilo) as [gb Hb]; [lia|].
  destruct (JSMap.get ga known) as [upper|] eqn:Gu.
  2:{ destruct Ha as (I & _). apply JSMap_keys_get in I. contradiction. }
  destruct (JSMap.get gb known) as [lower|] eqn:Gl.
  2:{ destruct Hb as (I & _). apply JSMap_keys_get in I. contradiction. }
  exists ga, gb, upper, lower. auto.
Qed.

Lemma fillGrades_spec (known : JSMap.t numericBoundary) (tm lo hi : Z) :
  In lo (JSMap.keys known) -> In hi (JSMap.keys known) ->
  forall n g, (g <= hi)%Z -> (lo <= g - Z.of_nat n + 1)%Z ->
    exists out, fillGrades n g known tm = Ok out
      /\ Forall2 (entrySpec known) (gradesDown n g) out.
Proof.
  intros Ilo Ihi n. induction n as [|n IH]; intros g Hhi Hlo.
  - exists []. split; [reflexivity|constructor].
  - destruct (IH (g - 1)%Z) as (rest & Er & Fr); [lia|lia|].
    simpl. destruct (JSMap.get g known) as [b|] eqn:G.
    + simpl. rewrite Er. simpl. exists (b :: rest). split; [reflexivity|].
      constructor; [now left|exact Fr].
    + destruct (missing_in_range known lo hi g Ilo Ihi) as
        (_ & ga & gb & upper & lower & Ha & Hb & Gu & Gl); [lia|exact G|].
      rewrite (interpolateGrade_between g known tm ga gb upper lower Ha Hb Gu Gl).
      simpl. rewrite Er. simpl. eexists. split; [reflexivity|].
      constructor; [|exact Fr]. right. split; [exact G|].
      exists ga, gb, upper, lower. auto.
Qed.

Lemma fillGrades_totalMarks (known : JSMap.t numericBoundary) (tm tm' lo hi : Z) :
  In lo (JSMap.keys known) -> In hi (JSMap.keys known) ->
  forall n g, (g <= hi)%Z -> (lo <= g - Z.of_nat n + 1)%Z ->
    fillGrades n g known tm = fillGrades n g known tm'.
Proof.
  intros Ilo Ihi n. induction n as [|n IH]; intros g Hhi Hlo; [reflexivity|].
  simpl. rewrite (IH (g - 1)%Z) by lia.
  destruct (JSMap.get g known) as [b|] eqn:G; [reflexivity|].
  destruct (missing_in_range known lo hi g Ilo Ihi) as
    (_ & ga & gb & upper & lower & Ha & Hb & Gu & Gl); [lia|exact G|].
  now rewrite !(interpolateGrade_between g known _ ga gb upper lower Ha Hb Gu Gl).
Qed.

Lemma interpolateCalls_in_range (known : JSMap.t numericBoundary)
  (tm lo hi : Z) :
  In lo (JSMap.keys known) -> In hi (JSMap.keys known) ->
  forall n g, (g <= hi)%Z -> (lo <= g - Z.of_nat n + 1)%Z ->
    Forall (fun c => (lo < c < hi)%Z
              /\ (exists ga gb,
                    nearest c (sortBy (fun a b => b - a)%Z (JSMap.keys known))
                    = (Some ga, Some gb))
              /\ exists e, interpolateGrade c known tm = Ok (Some e))
      (interpolateCalls n g known).
Proof.
  intros Ilo Ihi n. induction n as [|n IH]; intros g Hhi Hlo; [constructor|].
  simpl. specialize (IH (g - 1)%Z ltac:(lia) ltac:(lia)).
  destruct (JSMap.get g known) as [b|] eqn:G; [exact IH|].
  constructor; [|exact IH].
  destruct (missing_in_range known lo hi g Ilo Ihi) as
    (R & ga & gb & upper & lower & Ha & Hb & Gu & Gl); [lia|exact G|].
  split; [exact R|]. split.
  - exists ga, gb. apply nearest_eq.
    + eapply nearestAbove_perm; [apply sortBy_perm|exact Ha].
    + eapply nearestBelow_perm; [apply sortBy_perm|exact Hb].
  - rewrite (interpolateGrade_between g known tm ga gb upper lower Ha Hb Gu Gl).
    eauto.
Qed.

Lemma entrySpec_gradeNum (bs : list boundary) (g : Z) (e : numericBoundary) :
  entrySpec (knownGradesOf bs) g e -> gradeNum e = g.
Proof.
  intros [G|(_ & ga & gb & u & l & _ & _ & _ & _ & ->)]; [|reflexivity].
  now apply known_get in G.
Qed.




(** *** Strict descent of the marks *)









(** ** processGradeBoundaries on numeric grades *)






(** The range of the loop and what it needs of the map. *)
Lemma loop_range (bs : list boundary) :
  bs <> [] ->
  In (minGradeOf bs) (JSMap.keys (knownGradesOf bs))
  /\ In (maxGradeOf bs) (JSMap.keys (knownGradesOf bs))
  /\ (minGradeOf bs <= maxGradeOf bs)%Z.
Proof.
  intros N. unfold minGradeOf, maxGradeOf. rewrite gradeNums_eq.
  assert (N' : map gradeOf bs <> []) by (destruct bs; [congruence|discriminate]).
  destruct (Math_max_spec _ N') as [I M], (Math_min_spec _ N') as [I' M'].
  rewrite !known_keys. auto.
Qed.

Lemma allGrades_unfold (bs : list boundary) (tm : Z) :
  allGrades bs tm =
  fillGrades (Z.to_nat (maxGradeOf bs - minGradeOf bs + 1)) (maxGradeOf bs)
    (knownGradesOf bs) tm.
Proof. reflexivity. Qed.

Lemma allGrades_spec (bs : list boundary) (tm : Z) :
  bs <> [] ->
  exists out, allGrades bs tm = Ok out
    /\ Forall2 (entrySpec (knownGradesOf bs))
         (gradesDown (Z.to_nat (maxGradeOf bs - minGradeOf bs + 1))
            (maxGradeOf bs)) out.
Proof.
  intros N. destruct (loop_range bs N) as (Ilo & Ihi & L).
  rewrite allGrades_unfold.
  apply (fillGrades_spec _ tm (minGradeOf bs) (maxGradeOf bs) Ilo Ihi); lia.
Qed.

Lemma allGrades_totalMarks (bs : list boundary) (tm tm' : Z) :
  bs <> [] -> allGrades bs tm = allGrades bs tm'.
Proof.
  intros N. destruct (loop_range bs N) as (Ilo & Ihi & L).
  rewrite !allGrades_unfold.
  apply (fillGrades_totalMarks _ tm tm' (minGradeOf bs) (maxGradeOf bs) Ilo Ihi);
    lia.
Qed.

Lemma sortBy_nonempty {A} (cmp : A -> A -> Z) (l : list A) :
  l <> [] -> sortBy cmp l <> [].
Proof.
  intros N E. apply N. apply Permutation_nil.
  rewrite <- E. apply Permutation_sym, sortBy_perm.
Qed.

Lemma processGradeBoundaries_totalMarks (text : jsstring) (tm tm' : Z) :
  processGradeBoundaries text tm = processGradeBoundaries text tm'.
Proof.
  destruct (parseBoundaries_ok text) as [bs P].
  destruct bs as [|b bs].
  - now rewrite !(nothing_parsed_result text _ P).
  - rewrite !(processGradeBoundaries_parsed text _ _ P) by discriminate.
    destruct (isNumeric (b :: bs)); [|reflexivity].
    rewrite (allGrades_totalMarks _ tm tm'); [reflexivity|].
    apply sortBy_nonempty. discriminate.
Qed.




(** C10.  On numeric input [interpolateGrade] is only called for grades
    strictly between the lowest and the highest known grade; each such
    call finds a known grade on either side, so it takes the
    interpolation branch and returns a boundary, never [null]; and the
    output does not depend on [totalMarks]. *)
Theorem extrapolation_unreachable (text : jsstring) (tm : Z)
  (bs : list boundary) :
  parseBoundaries text = Ok bs -> bs <> [] -> isNumeric bs = true ->
  let sorted := sortBy byMinMarkDesc bs in
  let known := knownGradesOf sorted in
  let hi := maxGradeOf sorted in
  let lo := minGradeOf sorted in
  Forall (fun g =>
            (lo < g < hi)%Z
            /\ (exists ga gb,
                  nearest g (sortBy (fun a b => b - a)%Z (JSMap.keys known))
                  = (Some ga, Some gb))
            /\ exists e, interpolateGrade g known tm = Ok (Some e))
    (interpolateCalls (Z.to_nat (hi - lo + 1)) hi known)
  /\ forall tm', processGradeBoundaries text tm'
                 = processGradeBoundaries text tm.
Proof.
  intros P N Num sorted known hi lo. split.
  - assert (N' : sorted <> []) by now apply sortBy_nonempty.
    destruct (loop_range sorted N') as (Ilo & Ihi & L).
    fold known lo hi in Ilo, Ihi, L.
    apply (interpolateCalls_in_range known tm lo hi Ilo Ihi); lia.
  - intros tm'. apply processGradeBoundaries_totalMarks.
Qed.

Lemma extrapolation_unreachable_witness :
  Forall (fun g =>
            (4 < g < 9)%Z
            /\ (exists ga gb,
                  nearest g (sortBy (fun a b => b - a)%Z (JSMap.keys knownExample))
                  = (Some ga, Some gb))
            /\ exists e, interpolateGrade g knownExample 40 = Ok (Some e))
    (interpolateCalls 6 9 knownExample)
  /\ forall tm', processGradeBoundaries specExample tm'
                 = processGradeBoundaries specExample 40.
Proof.
  exact (extrapolation_unreachable specExample 40 specExampleBoundaries
           eq_refl ltac:(discriminate) eq_refl).
Defined.



(** ** Scaling *)

Lemma Math_round_Z (z : Z) : Math_round (inject_Z z) = z.
Proof.
  apply Math_round_unique.
  - lra.
  - rewrite inject_Z_plus. change (inject_Z 1) with 1%Q. lra.
Qed.

Lemma Math_round_comp (x y : Q) : (x == y)%Q -> Math_round x = Math_round y.
Proof. intros E. unfold Math_round. apply Qfloor_comp. now rewrite E. Qed.

(** C5.  Scaling a table from a non-zero maximum [M] to the same maximum
    keeps every integer [minMarks] value (and records it as the original
    value as well). *)
Theorem scaleBoundaries_identity (boundaries : list Scale.entry) (M : Q) :
  ~ (M == 0)%Q ->
  Forall (fun b => exists z, (Scale.minMarks b == inject_Z z)%Q) boundaries ->
  exists scaled,
    Scale.scaleBoundaries boundaries (Some M) M = Scale.Scaled scaled
    /\ Forall2 (fun s b =>
                  (inject_Z (Scale.s_minMarks s) == Scale.minMarks b)%Q
                  /\ Scale.originalMin s = Scale.minMarks b
                  /\ Scale.s_grade s = Scale.grade b)
         scaled boundaries.
Proof.
  intros NZ Int. unfold Scale.scaleBoundaries, Scale.truthyNum.
  assert (Z0 : Qeq_bool M 0 = false).
  { destruct (Qeq_bool M 0) eqn:E; [|reflexivity].
    apply Qeq_bool_iff in E. contradiction. }
  rewrite Z0. simpl. eexists. split; [reflexivity|].
  induction Int as [|b bs [z Hz] _ IH]; simpl; constructor; [|exact IH].
  simpl. repeat split.
  assert (E : (Scale.minMarks b * (M / M) == inject_Z z)%Q).
  { rewrite Hz. field. exact NZ. }
  rewrite (Math_round_comp _ _ E), Math_round_Z. now rewrite Hz.
Qed.

Lemma scaleBoundaries_identity_witness :
  exists scaled,
    Scale.scaleBoundaries
      [ {| Scale.grade := lit "9"; Scale.minMarks := 64%Q; Scale.maxMarks := None |};
        {| Scale.grade := lit "8"; Scale.minMarks := 55%Q; Scale.maxMarks := None |} ]
      (Some 80%Q) 80%Q = Scale.Scaled scaled
    /\ map Scale.s_minMarks scaled = [64; 55]%Z.
Proof.
  destruct (scaleBoundaries_identity
    [ {| Scale.grade := lit "9"; Scale.minMarks := 64%Q; Scale.maxMarks := None |};
      {| Scale.grade := lit "8"; Scale.minMarks := 55%Q; Scale.maxMarks := None |} ]
    80%Q) as (scaled & E & _).
  - discriminate.
  - repeat constructor; [now exists 64%Z|now exists 55%Z].
  - exists scaled. split; [exact E|].
    vm_compute in E. injection E as <-. reflexivity.
Defined.

(** ** Poll endpoint *)




(** ** Background worker *)

Lemma store_setJSON_Ok (store store' : BlobStore) (jobId : option json)
  (v : json) :
  store_setJSON store jobId v = Ok store' ->
  exists k, validKey jobId = Some k /\ store' = overwritten store k v.
Proof.
  unfold store_setJSON. destruct (validKey jobId) as [k|]; [|discriminate].
  destruct (writable store) eqn:W; [|discriminate]. intros [= <-].
  exists k. split; [reflexivity|]. unfold overwritten. now rewrite W.
Qed.

Section WorkerProperties.

Variable JSON_parse : jsstring -> result json.
Variable buildMessages : option json -> result json.
Variable makeRequest : jsstring -> json -> result json.
Variable ANTHROPIC_API_KEY : option jsstring.
Variable Date_now : Z.

Local Abbreviation run :=
  (process buildMessages makeRequest ANTHROPIC_API_KEY Date_now).
Local Abbreviation worker :=
  (handler JSON_parse buildMessages makeRequest ANTHROPIC_API_KEY Date_now).

Lemma process_Ok (jobId : option json) (store store' : BlobStore) :
  run jobId store = Ok store' ->
  store' = store
  \/ exists k record,
       validKey jobId = Some k /\ terminalRecord Date_now record
       /\ store' = overwritten store k record.
Proof.
  unfold process, bind, terminalRecord. intros H.
  repeat case_match; simplify_eq; auto;
    apply store_setJSON_Ok in H as (k & V & ->); right; eauto 8.
Qed.

Lemma handler_outcome (eventBody : jsstring) (store : BlobStore) :
  exists store',
    worker eventBody store = (Ok tt, store')
    /\ (store' = store
        \/ exists jobId k record,
             (let* parsed := JSON_parse eventBody in
              prop (Some parsed) "jobId") = Ok jobId
             /\ validKey jobId = Some k
             /\ terminalRecord Date_now record
             /\ store' = overwritten store k record).
Proof.
  unfold handler.
  destruct (let* parsed := JSON_parse eventBody in prop (Some parsed) "jobId")
    as [jobId|e] eqn:J; [|eauto].
  destruct (run jobId store) as [store'|msg] eqn:P.
  - exists store'. split; [reflexivity|].
    apply process_Ok in P as [->|(k & record & V & T & ->)]; [now left|].
    right. eauto 8.
  - destruct (truthy jobId); [|eauto].
    destruct (store_setJSON store jobId (errorRecord (JStr msg)))
      as [store'|e] eqn:W; [|eauto].
    exists store'. split; [reflexivity|].
    apply store_setJSON_Ok in W as (k & V & ->).
    right. exists jobId, k, (errorRecord (JStr msg)).
    repeat split; auto. right. eauto.
Qed.

(** C9.  An invocation whose job id names no stored record (the read of
    the job answering, with no entry under the id) leaves the store as
    it was and returns normally. *)
Theorem worker_job_not_found (eventBody : jsstring) (store : BlobStore) :
  (forall jobId k,
     (let* parsed := JSON_parse eventBody in prop (Some parsed) "jobId")
     = Ok jobId ->
     validKey jobId = Some k ->
     readable store = true /\ blobs store !! k = None) ->
  worker eventBody store = (Ok tt, store).
Proof.
  intros H. unfold handler.
  destruct (let* parsed := JSON_parse eventBody in prop (Some parsed) "jobId")
    as [jobId|e] eqn:J; [|reflexivity].
  specialize (H jobId).
  unfold process, store_get, store_setJSON.
  destruct (validKey jobId) as [k|]; simpl.
  - destruct (H k eq_refl eq_refl) as [R L]. now rewrite R, L.
  - now destruct (truthy jobId).
Qed.

Lemma terminalRecord_no_input (record : json) :
  terminalRecord Date_now record -> prop (Some record) "input" = Ok None.
Proof. intros [[config ->]|[error ->]]; reflexivity. Qed.

(** C4 (as amended).  An invocation returns normally and either leaves
    the store as it was or replaces the whole record under the job id by
    a fresh record, [{ status: 'completed', config, timestamp }] or
    [{ status: 'error', error }]: that record has no [input] field, and
    the entries under all other keys are untouched. *)
Theorem terminal_transition_overwrites (eventBody : jsstring)
  (store : BlobStore) :
  exists store',
    worker eventBody store = (Ok tt, store')
    /\ (store' = store
        \/ exists jobId k record,
             (let* parsed := JSON_parse eventBody in
              prop (Some parsed) "jobId") = Ok jobId
             /\ validKey jobId = Some k
             /\ terminalRecord Date_now record
             /\ blobs store' !! k = Some record
             /\ prop (Some record) "input" = Ok None
             /\ forall k', k' <> k -> blobs store' !! k' = blobs store !! k').
Proof.
  destruct (handler_outcome eventBody store)
    as (store' & E & [->|(jobId & k & record & J & V & T & ->)]).
  - exists store. auto.
  - eexists. split; [exact E|]. right. exists jobId, k, record.
    repeat split; auto.
    + apply lookup_insert_eq.
    + now apply terminalRecord_no_input.
    + intros k' N. simpl. now apply lookup_insert_ne.
Qed.

End WorkerProperties.

Lemma worker_job_not_found_witness :
  handler parseMissing messagesExample requestExample (Some (lit "sk-key"))
    1700000000999 eventExample storeExample
  = (Ok tt, storeExample).
Proof.
  apply worker_job_not_found.
  intros jobId k [= <-] [= <-]. split; reflexivity.
Defined.

(** A read that fails is not a missing job: the error is caught and
    recorded under the job id. *)
Example worker_read_failure_recorded :
  exists store',
    handler parseMissing messagesExample requestExample (Some (lit "sk-key"))
      1700000000999 eventExample unreadableExample
    = (Ok tt, store')
    /\ blobs store' !! lit "job_2" = Some (errorRecord (JStr StoreError)).
Proof. eexists. split; vm_compute; reflexivity. Qed.

(** The record of a completed job no longer has the [input] it was
    created with. *)
Lemma terminal_transition_drops_input :
  exists store',
    handler parseExample messagesExample requestExample (Some (lit "sk-key"))
      1700000000999 eventExample storeExample
    = (Ok tt, store')
    /\ blobs storeExample !! lit "job_1" = Some jobExample
    /\ prop (Some jobExample) "input"
       = Ok (Some (JObj [(lit "subject", JStr (lit "English"))]))
    /\ blobs store' !! lit "job_1"
       = Some (completedRecord 1700000000999 (lit "window.ESSAY_CONFIG = {};"))
    /\ prop (blobs store' !! lit "job_1") "input" = Ok None.
Proof.
  eexists. split; [vm_compute; reflexivity|].
  repeat split; vm_compute; reflexivity.
Qed.

(** The same on the error transition (no credential configured). *)
Example error_transition_drops_input :
  exists store',
    handler parseExample messagesExample requestExample None
      1700000000999 eventExample storeExample
    = (Ok tt, store')
    /\ blobs store' !! lit "job_1"
       = Some (errorRecord (JStr (lit "ANTHROPIC_API_KEY not configured")))
    /\ prop (blobs store' !! lit "job_1") "input" = Ok None.
Proof.
  eexists. split; [vm_compute; reflexivity|].
  split; vm_compute; reflexivity.
Qed.


(** ** trim: the result has no white space at either end *)

Lemma trimStart_clean (s : jsstring) : startsClean s -> trimStart s = s.
Proof. destruct s as [|x s]; simpl; [trivial|]. now intros ->. Qed.

Lemma trim_clean (s : jsstring) :
  startsClean s -> startsClean (rev s) -> trim s = s.
Proof.
  intros H1 H2. unfold trim, trimEnd.
  rewrite (trimStart_clean s H1), (trimStart_clean _ H2).
  apply rev_involutive.
Qed.

Lemma trim_ends (s : jsstring) :
  startsClean (trim s) /\ startsClean (rev (trim s)).
Proof.
  unfold trim, trimEnd.
  pose proof (trimStart_head s) as H1. fold (startsClean (trimStart s)) in H1.
  set (t := trimStart s) in *.
  pose proof (trimStart_head (rev t)) as H2.
  fold (startsClean (trimStart (rev t))) in H2.
  destruct (trimStart_split (rev t)) as (w & E & _).
  set (u := trimStart (rev t)) in *.
  rewrite rev_involutive. split; [|exact H2].
  apply (f_equal (@rev N)) in E. rewrite rev_involutive, rev_app_distr in E.
  destruct (rev u) as [|x r] eqn:Eu; [exact I|].
  rewrite E in H1. exact H1.
Qed.

Lemma trim_idempotent (s : jsstring) : trim (trim s) = trim s.
Proof. destruct (trim_ends s). now apply trim_clean. Qed.

(** X9.  The code returned by [extractJavaScript] is trimmed on every path:
    it neither begins nor ends with white space. *)
Theorem extractJavaScript_trimmed (text : jsstring) :
  exists code,
    extractJavaScript text = Ok code
    /\ trim code = code
    /\ startsClean code /\ startsClean (rev code).
Proof.
  assert (T : forall v, exists code,
            Ok (trim v) = Ok code /\ trim code = code
            /\ startsClean code /\ startsClean (rev code)).
  { intros v. exists (trim v). split; [reflexivity|].
    split; [apply trim_idempotent|apply trim_ends]. }
  unfold extractJavaScript.
  destruct (exec re_fenced text) as [c|] eqn:E1.
  - destruct (trimGroup_defined _ _ _ 1%nat E1 eq_refl) as (v & _ & ->).
    apply T.
  - destruct (exec re_config text) as [c|] eqn:E2; [|apply T].
    destruct (trimGroup_defined _ _ _ 1%nat E2 eq_refl) as (v & _ & ->).
    apply T.
Qed.

(** ** The configuration fallback of extractJavaScript *)

Lemma exec_skip (r : regex) (a rest : jsstring) :
  (forall b1 b2, a = b1 ++ b2 -> b2 <> [] ->
     matcher r (b2 ++ rest) [] final = None) ->
  exec r (a ++ rest) = exec r rest.
Proof.
  induction a as [|x a IH]; intros NF; [reflexivity|].
  simpl app. rewrite exec_cons.
  assert (F : matcher r (x :: a ++ rest) [] final = None)
    by (apply (NF [] (x :: a)); [reflexivity|discriminate]).
  rewrite F. apply IH. intros b1 b2 -> N. now apply (NF (x :: b1) b2).
Qed.

Lemma exec_here (r : regex) (s s' : jsstring) (c : captures) :
  matcher r s [] final = Some (s', c) -> exec r s = Some c.
Proof. intros H. destruct s; simpl; fold final; now rewrite H. Qed.

Lemma greedyClass_any_last (k : Continuation) (pre : jsstring) (x : N)
  (s : jsstring) (c : captures) res :
  greedyClass (fun _ => true) k s c = None ->
  k (x :: s) c = Some res ->
  greedyClass (fun _ => true) k (pre ++ x :: s) c = Some res.
Proof.
  intros F H. induction pre as [|y pre IH]; simpl.
  - now rewrite F.
  - simpl in IH. now rewrite IH.
Qed.

Lemma greedyClass_any_None (k : Continuation) (s : jsstring) (c : captures) :
  (forall s1 s2, s = s1 ++ s2 -> k s2 c = None) ->
  greedyClass (fun _ => true) k s c = None.
Proof.
  induction s as [|x s IH]; intros H; simpl.
  - apply (H [] []). reflexivity.
  - rewrite IH; [apply (H [] (x :: s)); reflexivity|].
    intros s1 s2 ->. apply (H (x :: s1) s2). reflexivity.
Qed.

Lemma firstn_prefix {A} (p q : list A) :
  firstn (length (p ++ q) - length q) (p ++ q) = p.
Proof.
  rewrite length_app, Nat.add_sub.
  rewrite firstn_app, Nat.sub_diag, firstn_all. simpl. apply app_nil_r.
Qed.

Lemma semicolon_cases (c : jsstring) :
  semicolon c = [] \/ semicolon c = lit ";".
Proof. destruct c as [|y c]; simpl; [|destruct (y =? 59)%N]; auto. Qed.

Lemma matcher_Empty (s : jsstring) (c : captures) (k : Continuation) :
  matcher Empty s c k = k s c.
Proof. reflexivity. Qed.

Lemma matcher_chr (a : ascii) (s : jsstring) (c : captures)
  (k : Continuation) :
  matcher (chr a) s c k
  = match s with
    | x :: s' => if (N_of_ascii a =? x)%N then k s' c else None
    | [] => None
    end.
Proof. reflexivity. Qed.

Lemma re_config_needs_marker (s : jsstring) (k : Continuation) :
  stripPrefix marker s = None -> matcher re_config s [] k = None.
Proof.
  intros H.
  change re_config
    with (Group 1
            (Seq (str "window.ESSAY_CONFIG")
               (Seq (Star true (Class (fun _ => true)))
                  (Seq (chr "}") (Seq (opt (chr ";")) Empty))))).
  rewrite matcher_Group, matcher_Seq, matcher_str. fold marker. now rewrite H.
Qed.

Lemma brace_fails (s : jsstring) (c : captures) (k : Continuation) :
  ~ In 125%N s ->
  forall s1 s2, s = s1 ++ s2 ->
    matcher (Seq (chr "}") (Seq (opt (chr ";")) Empty)) s2 c k = None.
Proof.
  intros H s1 s2 ->. rewrite matcher_Seq, matcher_chr.
  destruct s2 as [|y s2]; [reflexivity|].
  destruct (N.eqb_spec (N_of_ascii "}") y) as [E|]; [|reflexivity].
  exfalso. apply H. rewrite in_app_iff. right. left. symmetry. exact E.
Qed.

Lemma re_config_at_marker (b c : jsstring) :
  ~ In 125%N c ->
  exists s',
    matcher re_config (marker ++ b ++ lit "}" ++ c) [] final
    = Some (s', [(1%nat, marker ++ b ++ lit "}" ++ semicolon c)]).
Proof.
  intros H.
  change re_config
    with (Group 1
            (Seq (str "window.ESSAY_CONFIG")
               (Seq (Star true (Class (fun _ => true)))
                  (Seq (chr "}") (Seq (opt (chr ";")) Empty))))).
  rewrite matcher_Group, matcher_Seq, matcher_str. fold marker.
  rewrite stripPrefix_app, matcher_Seq, matcher_star_greedy.
  set (s := marker ++ b ++ lit "}" ++ c).
  assert (F0 : firstn (length s - length c) s = marker ++ b ++ lit "}").
  { unfold s.
    replace (marker ++ b ++ lit "}" ++ c)
      with ((marker ++ b ++ lit "}") ++ c) by now rewrite <- !app_assoc.
    apply firstn_prefix. }
  assert (F1 : forall c', c = N_of_ascii ";" :: c' ->
            firstn (length s - length c') s
            = marker ++ b ++ lit "}" ++ lit ";").
  { intros c' ->. unfold s.
    replace (marker ++ b ++ lit "}" ++ N_of_ascii ";" :: c')
      with ((marker ++ b ++ lit "}" ++ lit ";") ++ c')
      by (rewrite <- !app_assoc; reflexivity).
    apply firstn_prefix. }
  change (lit "}" ++ c) with (N_of_ascii "}" :: c).
  set (k := fun s1 c1 => matcher _ s1 c1 _).
  assert (K : exists s', k (N_of_ascii "}" :: c) []
              = Some (s', [(1%nat, marker ++ b ++ lit "}" ++ semicolon c)])).
  { unfold k. rewrite matcher_Seq, matcher_chr_cons, matcher_Seq. unfold opt.
    rewrite matcher_Alt, matcher_chr.
    destruct c as [|y c'].
    - repeat (rewrite matcher_Empty; cbv beta). unfold final. rewrite F0.
      cbn [semicolon]. rewrite app_nil_r. eauto.
    - destruct (N.eqb_spec (N_of_ascii ";") y) as [E|Ne].
      + repeat (rewrite matcher_Empty; cbv beta). unfold final. subst y.
        rewrite (F1 c' eq_refl). eauto.
      + repeat (rewrite matcher_Empty; cbv beta). unfold final. rewrite F0.
        assert (Sc : semicolon (y :: c') = []).
        { cbn [semicolon]. destruct (N.eqb_spec y 59) as [E|]; [|reflexivity].
          elim Ne. symmetry. exact E. }
        rewrite Sc, app_nil_r. eauto. }
  destruct K as [s' K]. exists s'.
  apply greedyClass_any_last; [|exact K].
  apply greedyClass_any_None. intros s1 s2 E. unfold k.
  now apply (brace_fails c [] _ H s1 s2).
Qed.

(** X10.  On a text with no fenced block in which [window.ESSAY_CONFIG]
    occurs with a closing brace after it, [extractJavaScript] returns
    the text from the first [window.ESSAY_CONFIG] to the last closing
    brace of the whole text, with the semicolon that directly follows
    that brace if there is one. *)
Theorem extractJavaScript_config_fallback (text a b c : jsstring) :
  ~ hasFencedBlock text ->
  breakOn marker text = Some (a, b ++ lit "}" ++ c) ->
  ~ In 125%N c ->
  extractJavaScript text = Ok (marker ++ b ++ lit "}" ++ semicolon c).
Proof.
  intros NF B Hc. unfold extractJavaScript.
  rewrite (exec_fenced_None _ NF).
  apply breakOn_Some in B as [-> Ha].
  rewrite exec_skip.
  - destruct (re_config_at_marker b c Hc) as [s' M].
    rewrite (exec_here _ _ _ _ M). unfold trimGroup. cbn [capture Nat.eqb].
    f_equal. apply trim_clean.
    + reflexivity.
    + rewrite !rev_app_distr.
      destruct (semicolon_cases c) as [-> | ->]; reflexivity.
  - intros b1 b2 E N. apply re_config_needs_marker.
    now apply (Ha b1 b2).
Qed.

Lemma extractJavaScript_config_fallback_witness :
  extractJavaScript configExample
  = Ok (lit "window.ESSAY_CONFIG = { a: {} };").
Proof.
  apply (extractJavaScript_config_fallback configExample (lit "Here: ")
           (lit " = { a: {} ") (lit "; bye")).
  - intros (a & b & c & E).
    assert (I : In 96%N configExample).
    { rewrite E, fence_eq, !in_app_iff. right. left. now left. }
    vm_compute in I. intuition discriminate.
  - reflexivity.
  - intros I. vm_compute in I. intuition discriminate.
Defined.


(** ** The values of the captures *)

Lemma sets_refl (r : regex) (c : captures) : sets r c c.
Proof. intros i v H. now left. Qed.

Lemma sets_trans (r1 r2 r : regex) (c c1 c2 : captures) :
  (forall i v, groupWord r1 i v -> groupWord r i v) ->
  (forall i v, groupWord r2 i v -> groupWord r i v) ->
  sets r1 c c1 -> sets r2 c1 c2 -> sets r c c2.
Proof.
  intros W1 W2 S1 S2 i v H.
  destruct (S2 i v H) as [H1|H1]; [|right; now apply W2].
  destruct (S1 i v H1) as [H0|H0]; [now left|right; now apply W1].
Qed.

Lemma groupWord_incl (r r0 : regex) :
  incl (groups r0) (groups r) ->
  forall i v, groupWord r0 i v -> groupWord r i v.
Proof. intros I i v (r' & H & L). exists r'. split; [now apply I|exact L]. Qed.

Lemma repeatMatcher_values
  (m : jsstring -> captures -> Continuation -> option MatchState)
  (L : jsstring -> Prop) (r : regex) (greedy : bool) :
  (forall s c k res, m s c k = Some res ->
     exists p s' c', s = p ++ s' /\ L p /\ k s' c' = Some res
       /\ sets r c c') ->
  forall fuel s c k res,
    repeatMatcher m greedy k fuel s c = Some res ->
    exists p s' c', s = p ++ s' /\ (exists ps, p = concat ps /\ Forall L ps)
      /\ k s' c' = Some res /\ sets r c c'.
Proof.
  intros Hm fuel. induction fuel as [|fuel IH]; intros s c k res H.
  - simpl in H. exists [], s, c. repeat split; auto; [now exists []|].
    apply sets_refl.
  - simpl in H.
    assert (Hstop : k s c = Some res ->
      exists p s' c', s = p ++ s' /\ (exists ps, p = concat ps /\ Forall L ps)
        /\ k s' c' = Some res /\ sets r c c').
    { intros Hk. exists [], s, c. repeat split; auto; [now exists []|].
      apply sets_refl. }
    assert (Hgo : m s c (fun s' c' =>
                if (length s' <? length s)%nat
                then repeatMatcher m greedy k fuel s' c' else None) = Some res ->
      exists p s' c', s = p ++ s' /\ (exists ps, p = concat ps /\ Forall L ps)
        /\ k s' c' = Some res /\ sets r c c').
    { intros Hg. apply Hm in Hg as (p1 & s1 & c1 & E1 & L1 & K1 & C1).
      destruct (length s1 <? length s)%nat; [|discriminate].
      apply IH in K1 as (p2 & s2 & c2 & E2 & (ps & Eps & Fps) & K2 & C2).
      exists (p1 ++ p2), s2, c2. repeat split.
      - now rewrite E1, E2, app_assoc.
      - exists (p1 :: ps). split; [simpl; now rewrite Eps|now constructor].
      - exact K2.
      - eapply (sets_trans r r r); eauto. }
    destruct greedy.
    + destruct (m s c _) eqn:Em.
      * inversion H; subst. now apply Hgo.
      * now apply Hstop.
    + destruct (k s c) eqn:Ek.
      * inversion H; subst. now apply Hstop.
      * now apply Hgo.
Qed.

(** A match consumes a word of the language of the pattern, and the
    value it leaves in a capture is a word of the group's pattern. *)
Lemma matcher_values (r : regex) :
  forall s c k res, matcher r s c k = Some res ->
    exists p s' c', s = p ++ s' /\ lang r p /\ k s' c' = Some res
      /\ sets r c c'.
Proof.
  induction r as [|q|r1 IH1 r2 IH2|r1 IH1 r2 IH2|g r IH|j r IH];
    intros s c k res H; simpl in H.
  - exists [], s, c. repeat split; auto. apply sets_refl.
  - destruct s as [|x s]; [discriminate|].
    destruct (q x) eqn:Hq; [|discriminate].
    exists [x], s, c. repeat split; auto; [now exists x|apply sets_refl].
  - apply IH1 in H as (p1 & s1 & c1 & E1 & L1 & K1 & C1).
    apply IH2 in K1 as (p2 & s2 & c2 & E2 & L2 & K2 & C2).
    exists (p1 ++ p2), s2, c2. repeat split.
    + now rewrite E1, E2, app_assoc.
    + now exists p1, p2.
    + exact K2.
    + eapply (sets_trans r1 r2); eauto; apply groupWord_incl; simpl;
        [apply incl_appl|apply incl_appr]; apply incl_refl.
  - destruct (matcher r1 s c k) eqn:E.
    + inversion H; subst.
      apply IH1 in E as (p1 & s1 & c1 & E1 & L1 & K1 & C1).
      exists p1, s1, c1. repeat split; auto; [now left|].
      intros i v Hv. destruct (C1 i v Hv) as [?|W]; [now left|right].
      revert W. apply groupWord_incl. simpl. apply incl_appl, incl_refl.
    + apply IH2 in H as (p1 & s1 & c1 & E1 & L1 & K1 & C1).
      exists p1, s1, c1. repeat split; auto; [now right|].
      intros i v Hv. destruct (C1 i v Hv) as [?|W]; [now left|right].
      revert W. apply groupWord_incl. simpl. apply incl_appr, incl_refl.
  - apply (repeatMatcher_values (matcher r) (lang r) (Star g r)) in H
      as (p & s' & c' & E & Lp & K & C).
    + exists p, s', c'. repeat split; auto.
    + intros s0 c0 k0 res0 H0.
      apply IH in H0 as (p1 & s1 & c1 & E1 & L1 & K1 & C1).
      exists p1, s1, c1. repeat split; auto.
  - apply IH in H as (p1 & s1 & c1 & E1 & L1 & K1 & C1).
    exists p1, s1, ((j, p1) :: c1). repeat split; auto.
    + rewrite E1 in K1. now rewrite firstn_prefix in K1.
    + intros i v Hv. simpl in Hv.
      destruct (Nat.eqb_spec i j) as [->|Ne].
      * injection Hv as <-. right. exists r. split; [now left|exact L1].
      * destruct (C1 i v Hv) as [?|(r' & I & W)]; [now left|right].
        exists r'. split; [now right|exact W].
Qed.

Lemma exec_values (r : regex) (s : jsstring) (c : captures) :
  exec r s = Some c -> forall i v, capture c i = Some v -> groupWord r i v.
Proof.
  induction s as [|x s IH]; simpl.
  - destruct (matcher r [] [] _) as [[s' c']|] eqn:E; [|discriminate].
    intros [= <-] i v Hv.
    apply matcher_values in E as (p & s1 & c1 & E1 & L1 & K1 & C1).
    inversion K1; subst. destruct (C1 i v Hv) as [?|W]; [discriminate|exact W].
  - destruct (matcher r (x :: s) [] _) as [[s' c']|] eqn:E; [|exact IH].
    intros [= <-] i v Hv.
    apply matcher_values in E as (p & s1 & c1 & E1 & L1 & K1 & C1).
    inversion K1; subst. destruct (C1 i v Hv) as [?|W]; [discriminate|exact W].
Qed.

(** ** Parsed boundaries are well formed *)

Lemma lang_plus_class (q : N -> bool) (v : jsstring) :
  lang (plus (Class q)) v -> v <> [] /\ forallb q v = true.
Proof.
  intros (p1 & p2 & -> & (x & -> & Hx) & ps & -> & F). split; [discriminate|].
  simpl. rewrite Hx. simpl.
  induction F as [|p ps (y & -> & Hy) _ IH]; simpl; [reflexivity|].
  now rewrite Hy.
Qed.

Lemma boundary_captures (line : jsstring) (c : captures) (i : nat)
  (v : jsstring) :
  exec re_boundary line = Some c -> capture c i = Some v ->
  v <> []
  /\ ((i = 1%nat /\ forallb isGradeChar v = true)
      \/ forallb isDigit v = true).
Proof.
  intros E Hv. destruct (exec_values _ _ _ E i v Hv) as (r' & I & W).
  change (groups re_boundary)
    with [(1%nat, plus (Class isGradeChar)); (2%nat, plus digit);
          (3%nat, plus digit)] in I.
  destruct I as [[= <- <-]|[[= <- <-]|[[= <- <-]|[]]]];
    apply lang_plus_class in W as [N F]; auto.
Qed.

Lemma parseInt_digits (s : jsstring) :
  forallb isDigit s = true -> (0 <= parseInt s)%Z.
Proof.
  unfold parseInt.
  assert (G : forall a, (0 <= a)%Z -> forallb isDigit s = true ->
            (0 <= fold_left (fun acc c => 10 * acc + digitValue c) s a)%Z).
  { induction s as [|x s IH]; simpl; intros a Ha H; [exact Ha|].
    apply andb_true_iff in H as [Hx Hs]. apply IH; [|exact Hs].
    unfold isDigit in Hx. apply andb_true_iff in Hx as [L U].
    apply N.leb_le in L. unfold digitValue. lia. }
  apply G. lia.
Qed.

Lemma toUpperCase_gradeToken (g : jsstring) :
  g <> [] -> forallb isGradeChar g = true ->
  isGradeToken (toUpperCase g) = true.
Proof.
  intros N F. unfold isGradeToken. apply andb_true_iff. split.
  - destruct g; [contradiction|reflexivity].
  - clear N. induction g as [|x g IH]; [reflexivity|].
    simpl in F. apply andb_true_iff in F as [Hx Hg].
    simpl. rewrite (IH Hg), andb_true_r. clear IH Hg.
    unfold isGradeChar in Hx. unfold upperChar.
    destruct (isLower x) eqn:Lx.
    + unfold isLower in Lx. apply andb_true_iff in Lx as [L U].
      apply N.leb_le in L, U.
      assert (Up : isUpper (x - 32) = true).
      { unfold isUpper. apply andb_true_iff.
        split; apply N.leb_le; lia. }
      now rewrite Up.
    + rewrite orb_false_r in Hx. exact Hx.
Qed.

Lemma parseLine_wellFormed (line : jsstring) (b : boundary) :
  parseLine line = Ok (Some b) -> wellFormed b.
Proof.
  unfold parseLine.
  destruct (exec re_boundary line) as [c|] eqn:E; [|discriminate].
  pose proof (boundary_captures line c) as V.
  destruct (capture c 1) as [g|] eqn:C1; [|discriminate].
  intros [= <-]. unfold wellFormed. cbn [grade minMark maxMark].
  assert (M : (0 <= match capture c 2 with
                    | Some m => parseInt m
                    | None => 0
                    end)%Z).
  { destruct (capture c 2) as [m|] eqn:C2; [|lia].
    destruct (V 2%nat m E C2) as [_ [[? _]|F]]; [discriminate|].
    now apply parseInt_digits. }
  split; [|split; [exact M|]].
  - destruct (V 1%nat g E C1) as [N [[_ F]|F]].
    + now apply toUpperCase_gradeToken.
    + apply toUpperCase_gradeToken; [exact N|].
      clear -F. induction g as [|x g IH]; [reflexivity|].
      simpl in F. apply andb_true_iff in F as [Hx Hg].
      simpl. rewrite (IH Hg), andb_true_r.
      unfold isGradeChar. rewrite Hx. now rewrite !orb_true_r.
  - destruct (capture c 3) as [[|x m]|] eqn:C3; [exact M| |exact M].
    destruct (V 3%nat (x :: m) E C3) as [_ [[? _]|F]]; [discriminate|].
    now apply parseInt_digits.
Qed.

Lemma parseLines_wellFormed (lines : list jsstring) :
  forall bs, parseLines lines = Ok bs -> Forall wellFormed bs.
Proof.
  induction lines as [|line lines IH]; simpl; intros bs.
  - intros [= <-]. constructor.
  - destruct (parseLine line) as [ob|] eqn:L; [|discriminate].
    destruct (parseLines lines) as [bs'|]; [|discriminate].
    cbn [bind]. intros [= <-]. specialize (IH bs' eq_refl).
    destruct ob as [b|]; [|exact IH].
    constructor; [now apply (parseLine_wellFormed line)|exact IH].
Qed.

(** X5.  Every boundary that the parsing loop takes from the text has a
    non-empty grade token of upper-case letters, digits, [*] and [+]
    (lower-case letters of the text are turned to upper case), and marks
    that are not negative. *)
Theorem parseBoundaries_wellFormed (text : jsstring) :
  exists bs, parseBoundaries text = Ok bs /\ Forall wellFormed bs.
Proof.
  destruct (parseBoundaries_ok text) as [bs P].
  exists bs. split; [exact P|].
  exact (parseLines_wellFormed (splitLines text) bs P).
Qed.


(** ** Printing and reading of numbers *)

Lemma lit_String (a : ascii) (s : string) :
  lit (String a s) = N_of_ascii a :: lit s.
Proof. reflexivity. Qed.

Lemma uint_digits (d : Decimal.uint) :
  forallb isDigit (lit (NilEmpty.string_of_uint d)) = true.
Proof.
  induction d; cbn [NilEmpty.string_of_uint]; [reflexivity|..];
    rewrite lit_String; cbn [forallb]; rewrite IHd; reflexivity.
Qed.

Lemma uint_parse_acc (d : Decimal.uint) (acc : positive) :
  fold_left (fun a c => 10 * a + digitValue c)%Z
    (lit (NilEmpty.string_of_uint d)) (Z.pos acc)
  = Z.pos (Pos.of_uint_acc d acc).
Proof.
  revert acc; induction d; intros acc;
    cbn [NilEmpty.string_of_uint Pos.of_uint_acc]; [reflexivity|..];
    rewrite lit_String; cbn [fold_left];
    match goal with
    | |- fold_left _ _ ?z = _ =>
        match goal with
        | |- _ = Z.pos (Pos.of_uint_acc _ ?a) =>
            replace z with (Z.pos a) by (unfold digitValue; simpl; lia)
        end
    end; apply IHd.
Qed.

Lemma uint_parse (d : Decimal.uint) :
  parseInt (lit (NilEmpty.string_of_uint d)) = Z.of_N (Pos.of_uint d).
Proof.
  unfold parseInt.
  induction d; cbn [NilEmpty.string_of_uint Pos.of_uint]; [reflexivity|..];
    rewrite lit_String; cbn [fold_left];
    [exact IHd|..];
    match goal with
    | |- fold_left _ _ ?z = Z.of_N (N.pos (Pos.of_uint_acc _ ?a)) =>
        replace z with (Z.pos a) by (unfold digitValue; simpl; lia)
    end; apply uint_parse_acc.
Qed.

Lemma toString_pos (p : positive) :
  toString (Z.pos p) = lit (NilEmpty.string_of_uint (Pos.to_uint p)).
Proof.
  unfold toString. cbn [Z.to_int NilZero.string_of_int].
  unfold NilZero.string_of_uint.
  pose proof (DecimalPos.Unsigned.to_uint_nonnil p) as N.
  destruct (Pos.to_uint p); [contradiction|reflexivity..].
Qed.

Lemma uint_nonempty (d : Decimal.uint) :
  d <> Decimal.Nil -> lit (NilEmpty.string_of_uint d) <> [].
Proof. destruct d; [contradiction|intros _; discriminate..]. Qed.

(** A number that is not negative prints as a non-empty string of
    digits, from which [parseInt] reads the number back. *)
Lemma toString_parseInt (n : Z) :
  (0 <= n)%Z ->
  toString n <> [] /\ forallb isDigit (toString n) = true
  /\ parseInt (toString n) = n.
Proof.
  intros H. destruct n as [|p|p]; [repeat split; discriminate| |lia].
  rewrite toString_pos. split; [|split].
  - apply uint_nonempty, DecimalPos.Unsigned.to_uint_nonnil.
  - apply uint_digits.
  - now rewrite uint_parse, DecimalPos.Unsigned.of_to.
Qed.

(** ** A formatted line is read back *)














(** ** The output of the interpolator is read back *)











(** ** interpolateGrade: the result on every map of known grades *)

Lemma nearest_none (g : Z) (keys : list Z) :
  nearest g keys = (None, None) <-> forall k, In k keys -> k = g.
Proof.
  pose proof (nearest_spec g keys) as [Ha Hb]. split.
  - intros E k Hk. rewrite E in Ha, Hb. simpl in Ha, Hb.
    specialize (Ha k Hk). specialize (Hb k Hk). lia.
  - intros H. destruct (nearest g keys) as [[a|] [b|]]; simpl in *.
    + destruct Ha as (I & L & _). specialize (H _ I). lia.
    + destruct Ha as (I & L & _). specialize (H _ I). lia.
    + destruct Hb as (I & L & _). specialize (H _ I). lia.
    + reflexivity.
Qed.

Lemma keys_sorted_In (keys : list Z) (k : Z) :
  In k (sortBy (fun a b => b - a)%Z keys) <-> In k keys.
Proof.
  split; apply Permutation_in;
    [apply Permutation_sym|]; apply sortBy_perm.
Qed.

Lemma spec_minMark_between (mu ml ga gb g : Z) :
  (gb < g < ga)%Z ->
  (Z.min ml mu <= spec_minMark mu ml ga gb g <= Z.max ml mu)%Z.
Proof.
  intros H. unfold spec_minMark, spec_markPerGrade.
  set (d := (ga - gb)%Z). set (a := (ga - g)%Z).
  assert (Hd : ~ (inject_Z d == 0)%Q).
  { change 0%Q with (inject_Z 0). rewrite inject_Z_injective. unfold d. lia. }
  assert (Hd' : (0 < inject_Z d)%Q).
  { change 0%Q with (inject_Z 0). rewrite <- Zlt_Qlt. unfold d. lia. }
  assert (E : (inject_Z mu - inject_Z a * (inject_Z (mu - ml) / inject_Z d)
               == inject_Z (mu * (d - a) + ml * a) / inject_Z d)%Q).
  { unfold Z.sub. rewrite !inject_Z_plus, !inject_Z_mult, !inject_Z_plus,
      !inject_Z_opp. field. exact Hd. }
  rewrite (Math_round_comp _ _ E).
  split.
  - rewrite <- (Math_round_Z (Z.min ml mu)). apply Math_round_le.
    apply Qle_shift_div_l; [exact Hd'|].
    rewrite <- inject_Z_mult, <- Zle_Qle. unfold d, a. nia.
  - rewrite <- (Math_round_Z (Z.max ml mu)). apply Math_round_le.
    apply Qle_shift_div_r; [exact Hd'|].
    rewrite <- inject_Z_mult, <- Zle_Qle. unfold d, a. nia.
Qed.

(** X1.  [interpolateGrade] returns [null] exactly when no known grade differs
    from the requested grade: the map is empty or holds that grade
    alone. *)
Theorem interpolateGrade_null_iff (grade : Z)
  (knownGrades : JSMap.t numericBoundary) (totalMarks : Z) :
  interpolateGrade grade knownGrades totalMarks = Ok None
  <-> forall k, In k (JSMap.keys knownGrades) -> k = grade.
Proof.
  unfold interpolateGrade.
  set (keys := sortBy (fun a b => (b - a)%Z) (JSMap.keys knownGrades)).
  pose proof (nearest_none grade keys) as N.
  assert (K : (forall k, In k keys -> k = grade)
              <-> forall k, In k (JSMap.keys knownGrades) -> k = grade).
  { split; intros H k Hk; apply H; now apply keys_sorted_In. }
  rewrite <- K, <- N.
  destruct (nearest grade keys) as [[a|] [b|]]; unfold getBound, bind.
  - split; [|discriminate]. repeat case_match; discriminate.
  - split; [|discriminate]. repeat case_match; discriminate.
  - split; [|discriminate]. repeat case_match; discriminate.
  - split; reflexivity.
Qed.

(** X2.  The interpolated [minMark] of a missing grade lies between the
    [minMark]s of its two nearest known grades. *)
Theorem interpolateGrade_within_neighbours (grade : Z)
  (knownGrades : JSMap.t numericBoundary) (totalMarks : Z)
  (gradeAbove gradeBelow : Z) (upper lower : numericBoundary) :
  nearestAbove (JSMap.keys knownGrades) grade gradeAbove ->
  nearestBelow (JSMap.keys knownGrades) grade gradeBelow ->
  JSMap.get gradeAbove knownGrades = Some upper ->
  JSMap.get gradeBelow knownGrades = Some lower ->
  exists missing,
    interpolateGrade grade knownGrades totalMarks = Ok (Some missing)
    /\ (Z.min (minMark lower) (minMark upper) <= minMark missing
        <= Z.max (minMark lower) (minMark upper))%Z.
Proof.
  intros Ha Hb Gu Gl.
  rewrite (interpolateGrade_between grade knownGrades totalMarks
             gradeAbove gradeBelow upper lower Ha Hb Gu Gl).
  eexists. split; [reflexivity|]. simpl.
  apply spec_minMark_between.
  destruct Ha as (_ & La & _), Hb as (_ & Lb & _). lia.
Qed.

Lemma interpolateGrade_within_neighbours_witness :
  exists missing,
    interpolateGrade 7 knownExample 40 = Ok (Some missing)
    /\ (Z.min 24 36 <= minMark missing <= Z.max 24 36)%Z.
Proof.
  apply (interpolateGrade_within_neighbours 7 knownExample 40 9 6
           (withGradeNum {| grade := lit "9"; minMark := 36; maxMark := 40 |})
           (withGradeNum {| grade := lit "6"; minMark := 24; maxMark := 28 |})).
  - split; [vm_compute; auto|]. split; [lia|].
    intros k Hk. vm_compute in Hk. lia.
  - split; [vm_compute; auto|]. split; [lia|].
    intros k Hk. vm_compute in Hk. lia.
  - reflexivity.
  - reflexivity.
Defined.




(** ** processGradeBoundaries: no input makes it raise *)


(** ** A grade that is supplied more than once *)

Lemma get_rev_last {V} (l : list (Z * V)) (k : Z) (v : V) :
  JSMap.get k (rev l) = Some v ->
  exists l1 l2, l = l1 ++ (k, v) :: l2 /\ ~ In k (map fst l2).
Proof.
  induction l as [|[k' v'] l IH] using rev_ind; [discriminate|].
  rewrite rev_app_distr. simpl.
  destruct (Z.eqb_spec k k') as [->|Ne].
  - intros [= ->]. exists l, []. split; [reflexivity|]. intros [].
  - intros H. destruct (IH H) as (l1 & l2 & -> & N).
    exists l1, (l2 ++ [(k', v')]). split; [now rewrite <- app_assoc|].
    rewrite map_app, in_app_iff. simpl. intros [?|[?|[]]]; auto.
Qed.

Lemma known_last (l : list boundary) (g : Z) (e : numericBoundary) :
  JSMap.get g (knownGradesOf l) = Some e ->
  exists l1 l2, l = l1 ++ base e :: l2
    /\ gradeOf (base e) = g /\ forall b, In b l2 -> gradeOf b <> g.
Proof.
  unfold knownGradesOf, JSMap.of_entries.
  rewrite JSMap_of_entries_get, map_map. simpl.
  destruct (JSMap.get g (rev _)) as [e'|] eqn:G; [|discriminate].
  intros [= ->]. apply get_rev_last in G as (m1 & m2 & E & N).
  apply map_eq_app in E as (l1 & l2' & -> & <- & E2).
  destruct l2' as [|b0 l2]; [discriminate|].
  simpl in E2. injection E2 as Eg <- <-.
  exists l1, l2. repeat split; auto.
  intros b Hb Hg. apply N. rewrite map_map. simpl.
  rewrite <- Hg. now apply (in_map (fun b => parseInt (grade b))).
Qed.

Lemma StronglySorted_before {A} (R : A -> A -> Prop) (l1 l2 : list A)
  (x : A) :
  StronglySorted R (l1 ++ x :: l2) -> forall y, In y l1 -> R y x.
Proof.
  induction l1 as [|z l1 IH]; simpl; intros S y; [intros []|].
  apply StronglySorted_inv in S as [S F]. intros [<-|Hy].
  - rewrite List.Forall_forall in F. apply F.
    rewrite in_app_iff. right. now left.
  - now apply IH.
Qed.

(** X6.  When a numeric grade is supplied on several lines, the line with
    the lowest [minMark] is the one that appears in the output (the map
    of known grades is filled in descending order of [minMark], and a
    later entry replaces an earlier one). *)
Theorem duplicate_grade_lowest_wins (bs : list boundary) (tm : Z) :
  bs <> [] ->
  exists out,
    allGrades (sortBy byMinMarkDesc bs) tm = Ok out
    /\ Forall (fun e : numericBoundary =>
                 forall b, In b bs -> gradeOf b = gradeNum e ->
                   In (base e) bs /\ (minMark e <= minMark b)%Z) out.
Proof.
  intros NE. set (sorted := sortBy byMinMarkDesc bs).
  assert (S : StronglySorted descMinMark sorted)
    by (apply Sorted_StronglySorted;
        [exact descMinMark_trans|apply sortBy_sorted]).
  assert (P : forall b, In b bs <-> In b sorted).
  { intros b. split; apply Permutation_in;
      [|apply Permutation_sym]; apply sortBy_perm. }
  destruct (allGrades_spec sorted tm) as (out & E & F);
    [now apply sortBy_nonempty|].
  exists out. split; [exact E|]. clear E.
  induction F as [|g e gs out' H _ IH]; [constructor|].
  constructor; [|exact IH].
  intros b Hb Hg. pose proof (entrySpec_gradeNum _ _ _ H) as Gn.
  destruct H as [G|[G _]].
  - destruct (known_last _ _ _ G) as (l1 & l2 & El & _ & N2).
    split.
    + apply P. rewrite El, in_app_iff. right. now left.
    + apply P in Hb. rewrite El, in_app_iff in Hb.
      destruct Hb as [Hb|[<-|Hb]].
      * rewrite El in S. exact (StronglySorted_before _ _ _ _ S b Hb).
      * lia.
      * elim (N2 b Hb). congruence.
  - elim (known_get_None _ _ G b); [now apply P|congruence].
Qed.

Lemma duplicate_grade_lowest_wins_witness :
  exists out,
    allGrades (sortBy byMinMarkDesc duplicateExample) 40 = Ok out
    /\ Forall (fun e : numericBoundary =>
                 forall b, In b duplicateExample -> gradeOf b = gradeNum e ->
                   In (base e) duplicateExample /\ (minMark e <= minMark b)%Z)
         out.
Proof. apply (duplicate_grade_lowest_wins duplicateExample 40). discriminate. Defined.

Example duplicate_grade_output :
  processGradeBoundaries
    (lit "grade 7: 30" ++ [10%N] ++ lit "7: 20-25" ++ [10%N]
     ++ lit "Grade 5 : 12 - 19") 40
  = Ok (Some (lit "Grade 7: 20-25 marks" ++ [10%N]
              ++ lit "Grade 6: 16-19 marks" ++ [10%N]
              ++ lit "Grade 5: 12-19 marks")).
Proof. vm_compute. reflexivity. Qed.

(** ** Running the interpolator on its own output *)









Lemma formatBoundaries_nonblank (l : list boundary) :
  l <> [] -> nonEmpty (trim (formatBoundaries l)) = true.
Proof.
  intros N. destruct (trim (formatBoundaries l)) eqn:E; [|reflexivity].
  apply trim_blank in E. destruct l as [|b l]; [contradiction|].
  unfold formatBoundaries in E. cbn [map] in E.
  destruct (map formatBoundary l); discriminate.
Qed.




(** Flatter marks: the interpolated grade 2 between grades 3 and 1 at 0
    marks is written with the [maxMark] -1, and read back with 0. *)
Example processGradeBoundaries_flat_rerun :
  let text := lit "Grade 3: 0" ++ [10%N] ++ lit "Grade 1: 0" in
  let out := lit "Grade 3: 0-0 marks" ++ [10%N] ++ lit "Grade 2: 0--1 marks"
             ++ [10%N] ++ lit "Grade 1: 0-0 marks" in
  processGradeBoundaries text 40 = Ok (Some out)
  /\ processGradeBoundaries out 40
     = Ok (Some (lit "Grade 3: 0-0 marks" ++ [10%N]
                 ++ lit "Grade 2: 0-0 marks" ++ [10%N]
                 ++ lit "Grade 1: 0-0 marks")).
Proof. split; vm_compute; reflexivity. Qed.


(** ** Scaling: shape, order and range of the scaled table *)

Lemma truthyNum_false (x : option Q) :
  Scale.truthyNum x = false <-> x = None \/ exists q, x = Some q /\ (q == 0)%Q.
Proof.
  unfold Scale.truthyNum. destruct x as [q|].
  - destruct (Qeq_bool q 0) eqn:E; simpl.
    + apply Qeq_bool_iff in E. split; [eauto|reflexivity].
    + split; [discriminate|]. intros [H|(q' & [= <-] & H)]; [discriminate|].
      apply Qeq_bool_iff in H. congruence.
  - split; auto.
Qed.

Lemma scaleBoundaries_Scaled (boundaries : list Scale.entry)
  (originalMax : option Q) (targetMax : Q) (out : list Scale.scaledEntry) :
  Scale.scaleBoundaries boundaries originalMax targetMax = Scale.Scaled out ->
  exists om, originalMax = Some om /\ ~ (om == 0)%Q
    /\ out = map (Scale.scaleEntry (targetMax / om)) boundaries.
Proof.
  unfold Scale.scaleBoundaries. destruct originalMax as [om|]; [|discriminate].
  destruct (Scale.truthyNum (Some om)) eqn:T; simpl; [|discriminate].
  destruct (Qeq_bool om 0) eqn:E; [discriminate|].
  intros [= <-]. exists om. repeat split.
  intros H. apply Qeq_bool_iff in H. congruence.
Qed.

(** X11.  [scaleBoundaries] returns its argument when the original maximum is
    absent or zero.  Otherwise it returns one scaled entry per entry of
    the table, in the same order, each with the grade of its entry and
    the original marks under [originalMin] and [originalMax]; the scaled
    [maxMarks] is [null] exactly when the entry has no [maxMarks] or a
    zero one. *)
Theorem scaleBoundaries_shape (boundaries : list Scale.entry)
  (originalMax : option Q) (targetMax : Q) :
  match Scale.scaleBoundaries boundaries originalMax targetMax with
  | Scale.Unchanged out =>
      out = boundaries /\ Scale.truthyNum originalMax = false
  | Scale.Scaled out =>
      Scale.truthyNum originalMax = true
      /\ Forall2 (fun s b =>
                    Scale.s_grade s = Scale.grade b
                    /\ Scale.originalMin s = Scale.minMarks b
                    /\ Scale.originalMax s = Scale.maxMarks b
                    /\ (Scale.s_maxMarks s = None
                        <-> Scale.truthyNum (Scale.maxMarks b) = false))
           out boundaries
  end.
Proof.
  destruct (Scale.scaleBoundaries boundaries originalMax targetMax)
    as [out|out] eqn:E.
  - unfold Scale.scaleBoundaries in E. destruct originalMax as [om|].
    + destruct (Scale.truthyNum (Some om)) eqn:T; simpl in E.
      * destruct (Qeq_bool om 0) eqn:Z0; [|discriminate].
        unfold Scale.truthyNum in T. rewrite Z0 in T. discriminate.
      * now injection E as <-.
    + now injection E as <-.
  - apply scaleBoundaries_Scaled in E as (om & -> & NZ & ->). split.
    + destruct (Scale.truthyNum (Some om)) eqn:T; [reflexivity|].
      apply truthyNum_false in T as [T|(q & [= <-] & T)];
        [discriminate|contradiction].
    + induction boundaries as [|b bs IH]; simpl; constructor; [|exact IH].
      simpl. repeat split; destruct (Scale.maxMarks b) as [m|]; simpl; auto;
        destruct (Qeq_bool m 0); simpl; auto; discriminate.
Qed.

Lemma StronglySorted_map {A B} (R : A -> A -> Prop) (S : B -> B -> Prop)
  (f : A -> B) (l : list A) :
  (forall a b, R a b -> S (f a) (f b)) ->
  StronglySorted R l -> StronglySorted S (map f l).
Proof.
  intros H. induction 1 as [|a l _ IH F]; simpl; constructor; [exact IH|].
  rewrite Forall_map. eapply List.Forall_impl; [|exact F]. intros b. apply H.
Qed.

(** X12.  Scaling by a ratio that is not negative keeps the order of the
    table: a table in descending order of [minMarks] is in descending
    order of the scaled [minMarks]. *)
Theorem scaleBoundaries_monotone (boundaries : list Scale.entry)
  (originalMax targetMax : Q) (out : list Scale.scaledEntry) :
  (0 < originalMax)%Q -> (0 <= targetMax)%Q ->
  Scale.scaleBoundaries boundaries (Some originalMax) targetMax
    = Scale.Scaled out ->
  StronglySorted (fun a b => (Scale.minMarks b <= Scale.minMarks a)%Q)
    boundaries ->
  StronglySorted (fun a b => (Scale.s_minMarks b <= Scale.s_minMarks a)%Z) out.
Proof.
  intros Ho Ht E S.
  apply scaleBoundaries_Scaled in E as (om & [= <-] & NZ & ->).
  eapply StronglySorted_map; [|exact S].
  intros a b L. simpl. apply Math_round_le.
  apply Qmult_le_compat_r; [exact L|].
  apply Qle_shift_div_l; [exact Ho|]. lra.
Qed.

(** X13.  Marks between 0 and the original maximum scale to marks between 0
    and the target maximum, for a target maximum that is a whole number
    of marks; the original maximum itself scales to the target
    maximum. *)
Theorem scaleBoundaries_range (boundaries : list Scale.entry)
  (originalMax : Q) (targetMax : Z) (out : list Scale.scaledEntry) :
  (0 < originalMax)%Q -> (0 <= targetMax)%Z ->
  Scale.scaleBoundaries boundaries (Some originalMax) (inject_Z targetMax)
    = Scale.Scaled out ->
  Forall (fun b => (0 <= Scale.minMarks b <= originalMax)%Q) boundaries ->
  Forall (fun s => (0 <= Scale.s_minMarks s <= targetMax)%Z
                   /\ ((Scale.originalMin s == originalMax)%Q ->
                       Scale.s_minMarks s = targetMax)) out.
Proof.
  intros Ho Ht E F.
  apply scaleBoundaries_Scaled in E as (om & [= <-] & NZ & ->).
  rewrite Forall_map. eapply List.Forall_impl; [|exact F].
  intros b [L U]. simpl.
  assert (T : (0 <= inject_Z targetMax)%Q).
  { change 0%Q with (inject_Z 0). now rewrite <- Zle_Qle. }
  assert (S : (0 <= inject_Z targetMax / originalMax)%Q).
  { apply Qle_shift_div_l; [exact Ho|]. lra. }
  split; [split|].
  - rewrite <- (Math_round_Z 0). apply Math_round_le.
    change (inject_Z 0) with 0%Q. now apply Qmult_le_0_compat.
  - rewrite <- (Math_round_Z targetMax) at 2. apply Math_round_le.
    assert (E : (inject_Z targetMax
                 == originalMax * (inject_Z targetMax / originalMax))%Q)
      by (field; exact NZ).
    rewrite E at 2. now apply Qmult_le_compat_r.
  - intros M. rewrite <- (Math_round_Z targetMax) at 2.
    apply Math_round_comp. rewrite M. field. exact NZ.
Qed.

Lemma scaleBoundaries_monotone_witness :
  StronglySorted (fun a b => (Scale.s_minMarks b <= Scale.s_minMarks a)%Z)
    (map (Scale.scaleEntry (40 / 80)) tableExample).
Proof.
  apply (scaleBoundaries_monotone tableExample 80 40).
  - reflexivity.
  - discriminate.
  - reflexivity.
  - repeat constructor; discriminate.
Defined.

Lemma scaleBoundaries_range_witness :
  Forall (fun s => (0 <= Scale.s_minMarks s <= 40)%Z
                   /\ ((Scale.originalMin s == 80)%Q ->
                       Scale.s_minMarks s = 40%Z))
    (map (Scale.scaleEntry (inject_Z 40 / 80)) tableExample).
Proof.
  apply (scaleBoundaries_range tableExample 80 40).
  - reflexivity.
  - lia.
  - reflexivity.
  - repeat constructor; discriminate.
Defined.

Example scaleBoundaries_halved :
  Scale.scaleBoundaries tableExample (Some 80%Q) 40%Q
  = Scale.Scaled
      [ {| Scale.s_grade := lit "9"; Scale.s_minMarks := 40;
           Scale.s_maxMarks := None; Scale.originalMin := 80%Q;
           Scale.originalMax := None |};
        {| Scale.s_grade := lit "5"; Scale.s_minMarks := 21;
           Scale.s_maxMarks := Some 25%Z; Scale.originalMin := 41%Q;
           Scale.originalMax := Some 50%Q |};
        {| Scale.s_grade := lit "1"; Scale.s_minMarks := 0;
           Scale.s_maxMarks := None; Scale.originalMin := 0%Q;
           Scale.originalMax := Some 0%Q |} ].
Proof. reflexivity. Qed.


(** ** Background worker: the outcome for a job that exists *)

Lemma store_get_readable (store : BlobStore) (jobId : option json)
  (k : jsstring) :
  validKey jobId = Some k -> readable store = true ->
  store_get store jobId = Ok (blobs store !! k).
Proof. unfold store_get. now intros -> ->. Qed.

Lemma store_setJSON_writable (store : BlobStore) (jobId : option json)
  (k : jsstring) (v : json) :
  validKey jobId = Some k -> writable store = true ->
  store_setJSON store jobId v = Ok (overwritten store k v).
Proof. unfold store_setJSON, overwritten. now intros -> ->. Qed.

Lemma validKey_truthy (jobId : option json) (k : jsstring) :
  validKey jobId = Some k -> truthy jobId = true /\ jobId = Some (JStr k).
Proof.
  destruct jobId as [[| | |[|x s]| |]|]; simpl; try discriminate.
  now intros [= <-].
Qed.

Lemma validKey_JStr (k : jsstring) :
  k <> [] -> validKey (Some (JStr k)) = Some k.
Proof. destruct k; [contradiction|reflexivity]. Qed.

Lemma validKey_nonempty (k : jsstring) :
  validKey (Some (JStr k)) = Some k -> k <> [].
Proof. destruct k; [discriminate|discriminate]. Qed.

(** Reading the record under [k] through the poll endpoint. *)
Lemma poll_record (store : BlobStore) (k : jsstring) (record : json)
  (q : list (jsstring * jsstring)) :
  k <> [] -> assoc (lit "jobId") q = Some k ->
  readable store = true -> blobs store !! k = Some record ->
  truthy (Some record) = true ->
  CheckJob.handler
    {| CheckJob.httpMethod := lit "GET";
       CheckJob.queryStringParameters := Some q |} store
  = {| CheckJob.statusCode := 200; CheckJob.headers := CheckJob.jsonHeaders;
       CheckJob.body := CheckJob.JSON_stringify record |}.
Proof.
  intros N Q R L T. unfold CheckJob.handler, CheckJob.jobIdParam.
  cbn [CheckJob.httpMethod CheckJob.queryStringParameters].
  rewrite Q. replace (eqStr (lit "GET") (lit "GET")) with true by reflexivity.
  cbn [negb option_map].
  rewrite (store_get_readable store _ k (validKey_JStr k N) R), L, T.
  destruct k; [contradiction|reflexivity].
Qed.

Section WorkerOutcomes.

Variable JSON_parse : jsstring -> result json.
Variable buildMessages : option json -> result json.
Variable makeRequest : jsstring -> json -> result json.
Variable ANTHROPIC_API_KEY : option jsstring.
Variable Date_now : Z.

Local Abbreviation run :=
  (process buildMessages makeRequest ANTHROPIC_API_KEY Date_now).
Local Abbreviation worker :=
  (handler JSON_parse buildMessages makeRequest ANTHROPIC_API_KEY Date_now).

Lemma handler_settles (eventBody : jsstring) (store : BlobStore)
  (jobId : option json) (k : jsstring) (job : json) :
  jobIdOf JSON_parse eventBody = Ok jobId -> validKey jobId = Some k ->
  readable store = true -> writable store = true ->
  blobs store !! k = Some job -> truthy (Some job) = true ->
  exists record,
    worker eventBody store = (Ok tt, overwritten store k record)
    /\ terminalRecord Date_now record.
Proof.
  intros J V R W L T. unfold handler. unfold jobIdOf in J. rewrite J.
  destruct (validKey_truthy _ _ V) as [Tj _].
  destruct (run jobId store) as [store'|msg] eqn:P.
  - unfold process in P.
    rewrite (store_get_readable _ _ _ V R), L in P. cbn [bind] in P.
    rewrite T in P. cbn [negb] in P.
    assert (S : forall v, store_setJSON store jobId v
                          = Ok (overwritten store k v))
      by (intros v; now apply store_setJSON_writable).
    unfold bind, terminalRecord in *.
    repeat case_match; simplify_eq; rewrite S in P; simplify_eq; eauto 8.
  - rewrite Tj, (store_setJSON_writable _ _ _ _ V W).
    eexists. split; [reflexivity|]. right. eauto.
Qed.

(** X14.  A job that exists does not stay in [processing]: when the store can
    be read and written, an invocation for the job replaces its record
    by a [completed] or an [error] record, whatever the request, the
    response and the stored input are. *)
Theorem worker_settles_job (eventBody : jsstring) (store : BlobStore)
  (jobId : option json) (k : jsstring) (job : json) :
  jobIdOf JSON_parse eventBody = Ok jobId -> validKey jobId = Some k ->
  readable store = true -> writable store = true ->
  blobs store !! k = Some job -> truthy (Some job) = true ->
  exists store' record,
    worker eventBody store = (Ok tt, store')
    /\ blobs store' !! k = Some record
    /\ terminalRecord Date_now record
    /\ prop (Some record) "status" <> Ok (Some (JStr (lit "processing"))).
Proof.
  intros J V R W L T.
  destruct (handler_settles eventBody store jobId k job J V R W L T)
    as (record & E & Tr).
  exists (overwritten store k record), record.
  repeat split; [exact E|apply lookup_insert_eq|exact Tr|].
  destruct Tr as [[config ->]|[error ->]]; vm_compute; discriminate.
Qed.

(** X15.  What the poll endpoint answers after the worker has run for a job
    that exists: status 200 with the terminal record the worker wrote. *)
Theorem worker_then_poll (eventBody : jsstring) (store : BlobStore)
  (jobId : option json) (k : jsstring) (job : json)
  (q : list (jsstring * jsstring)) :
  jobIdOf JSON_parse eventBody = Ok jobId -> validKey jobId = Some k ->
  readable store = true -> writable store = true ->
  blobs store !! k = Some job -> truthy (Some job) = true ->
  assoc (lit "jobId") q = Some k ->
  exists record,
    terminalRecord Date_now record
    /\ CheckJob.handler
         {| CheckJob.httpMethod := lit "GET";
            CheckJob.queryStringParameters := Some q |}
         (snd (worker eventBody store))
       = {| CheckJob.statusCode := 200;
            CheckJob.headers := CheckJob.jsonHeaders;
            CheckJob.body := CheckJob.JSON_stringify record |}.
Proof.
  intros J V R W L T Q.
  destruct (handler_settles eventBody store jobId k job J V R W L T)
    as (record & E & Tr).
  exists record. split; [exact Tr|]. rewrite E. cbn [snd].
  apply (poll_record _ k); auto.
  - destruct jobId as [[| | |[|x s]| |]|]; try discriminate.
    simpl in V. injection V as <-. discriminate.
  - apply lookup_insert_eq.
  - destruct Tr as [[config ->]|[error ->]]; reflexivity.
Qed.

(** X16.  Without a configured credential the job is settled with the error
    ['ANTHROPIC_API_KEY not configured']. *)
Theorem worker_missing_credential (eventBody : jsstring) (store : BlobStore)
  (jobId : option json) (k : jsstring) (job : json) (input : json) :
  jobIdOf JSON_parse eventBody = Ok jobId -> validKey jobId = Some k ->
  readable store = true -> writable store = true ->
  blobs store !! k = Some job ->
  prop (Some job) "input" = Ok (Some input) -> input <> JNull ->
  ANTHROPIC_API_KEY = None \/ ANTHROPIC_API_KEY = Some [] ->
  worker eventBody store
  = (Ok tt,
     overwritten store k
       (errorRecord (JStr (lit "ANTHROPIC_API_KEY not configured")))).
Proof.
  intros J V R W L I N K. unfold handler. unfold jobIdOf in J. rewrite J.
  unfold process.
  rewrite (store_get_readable _ _ _ V R), L. cbn [bind].
  assert (T : truthy (Some job) = true).
  { destruct job; simpl in I; try discriminate. reflexivity. }
  rewrite T, I. cbn [negb bind].
  assert (S : exists s, prop (Some input) "subject" = Ok s).
  { destruct input; simpl; eauto. contradiction. }
  destruct S as [s ->].
  destruct K as [-> | ->]; now rewrite (store_setJSON_writable _ _ _ _ V W).
Qed.

(** X17.  A job is marked [completed] only when the request went through: the
    record written is [completed] only if the credential is set, the
    response has no [error] and its first content block has a text, and
    then [config] is the code extracted from that text. *)
Theorem worker_completed_only_if (eventBody : jsstring)
  (store store' : BlobStore) (k : jsstring) (config : jsstring) :
  worker eventBody store = (Ok tt, store') ->
  blobs store' !! k = Some (completedRecord Date_now config) ->
  blobs store !! k <> Some (completedRecord Date_now config) ->
  exists job input apiKey messages claudeData block text,
    blobs store !! k = Some job
    /\ prop (Some job) "input" = Ok input
    /\ ANTHROPIC_API_KEY = Some apiKey /\ apiKey <> []
    /\ buildMessages input = Ok messages
    /\ makeRequest apiKey messages = Ok claudeData
    /\ (exists error, prop (Some claudeData) "error" = Ok error
                      /\ truthy error = false)
    /\ (exists content, prop (Some claudeData) "content" = Ok content
                        /\ index0 content = Ok block)
    /\ prop block "text" = Ok (Some (JStr text))
    /\ extractJavaScript text = Ok config.
Proof.
  intros E L' L. unfold handler in E.
  destruct (let* parsed := JSON_parse eventBody in prop (Some parsed) "jobId")
    as [jobId|e]; [|simplify_eq; contradiction].
  assert (NoErr : forall jobId msg s,
            store_setJSON store jobId (errorRecord msg) = Ok s ->
            blobs s !! k = Some (completedRecord Date_now config) -> False).
  { intros j msg s H Hs. apply store_setJSON_Ok in H as (k' & _ & ->).
    simpl in Hs. destruct (decide (k' = k)) as [->|Ne].
    - rewrite lookup_insert_eq in Hs. discriminate.
    - rewrite lookup_insert_ne in Hs by exact Ne. contradiction. }
  destruct (run jobId store) as [s|msg] eqn:P.
  - injection E as <-. unfold process in P.
    destruct (store_get store jobId) as [job|] eqn:G; [|discriminate].
    cbn [bind] in P.
    destruct (truthy job) eqn:T; cbn [negb] in P;
      [|simplify_eq; contradiction].
    destruct (prop job "input") as [input|] eqn:I; [|discriminate].
    cbn [bind] in P.
    destruct (prop input "subject") as [subject|]; [|discriminate].
    cbn [bind] in P.
    destruct ANTHROPIC_API_KEY as [[|x apiKey]|] eqn:K;
      [exfalso; eapply NoErr; eauto| |exfalso; eapply NoErr; eauto].
    destruct (buildMessages input) as [messages|] eqn:B; [|discriminate].
    cbn [bind] in P.
    destruct (makeRequest (x :: apiKey) messages) as [claudeData|] eqn:M;
      [|discriminate].
    cbn [bind] in P.
    destruct (prop (Some claudeData) "error") as [error|] eqn:Er;
      [|discriminate].
    cbn [bind] in P.
    destruct (truthy error) eqn:Te; [exfalso; eapply NoErr; eauto|].
    destruct (extractConfig claudeData) as [cfg|] eqn:X;
      [|discriminate].
    cbn [bind] in P.
    apply store_setJSON_Ok in P as (k' & V & ->).
    assert (k' = k /\ cfg = config) as [-> ->].
    { simpl in L'. destruct (decide (k' = k)) as [->|Ne].
      - rewrite lookup_insert_eq in L'. injection L' as EQ.
        split; [reflexivity|]. unfold completedRecord in EQ. congruence.
      - rewrite lookup_insert_ne in L' by exact Ne. contradiction. }
    unfold store_get in G. rewrite V in G.
    destruct (readable store); [|discriminate]. injection G as <-.
    destruct (blobs store !! k) as [job|] eqn:Lk; [|discriminate].
    unfold extractConfig in X.
    destruct (prop (Some claudeData) "content") as [content|] eqn:C;
      [|discriminate].
    cbn [bind] in X.
    destruct (index0 content) as [block|] eqn:I0; [|discriminate].
    cbn [bind] in X.
    destruct (prop block "text") as [[[| | |text| |]|]|] eqn:Tx;
      try discriminate.
    exists job, input, (x :: apiKey), messages, claudeData, block, text.
    repeat split; eauto; discriminate.
  - destruct (truthy jobId); [|simplify_eq; contradiction].
    destruct (store_setJSON store jobId (errorRecord (JStr msg))) as [s|] eqn:S;
      [|simplify_eq; contradiction].
    injection E as <-. exfalso. eapply NoErr; eauto.
Qed.

End WorkerOutcomes.

(** ** Background worker and the generation request *)

Lemma error_response_error (v : json) :
  prop (Some (JObj [(lit "error", v)])) "error" = Ok (Some v).
Proof. reflexivity. Qed.

Lemma error_response_no_content (v : json) :
  extractConfig (JObj [(lit "error", v)]) = Throw TypeError.
Proof. reflexivity. Qed.

Section WorkerRequest.

Variable JSON_parse : jsstring -> result json.
Variable buildMessages : option json -> result json.
Variable https_request : jsstring -> json -> HttpOutcome.
Variable ANTHROPIC_API_KEY : option jsstring.
Variable Date_now : Z.

(** X18.  A response whose status is not 200 never completes the job: the
    worker settles the job with an [error] record, also when the body of
    the response is not JSON, or is JSON that is falsy as an error (the
    read of the content of the response then raises, which is
    recorded). *)
Theorem worker_failed_response_not_completed (eventBody : jsstring)
  (store : BlobStore) (jobId : option json) (k : jsstring) (job : json) :
  jobIdOf JSON_parse eventBody = Ok jobId -> validKey jobId = Some k ->
  readable store = true -> writable store = true ->
  blobs store !! k = Some job -> truthy (Some job) = true ->
  (forall apiKey messages statusCode data,
     https_request apiKey messages = HttpResponse statusCode data ->
     statusCode <> 200%Z) ->
  exists error,
    handler JSON_parse buildMessages (makeRequest JSON_parse https_request)
      ANTHROPIC_API_KEY Date_now eventBody store
    = (Ok tt, overwritten store k (errorRecord error)).
Proof.
  intros J V R W L T H. unfold handler. unfold jobIdOf in J. rewrite J.
  destruct (validKey_truthy _ _ V) as [Tj _].
  assert (S : forall v, store_setJSON store jobId v
                        = Ok (overwritten store k v))
    by (intros v; now apply store_setJSON_writable).
  match goal with
  | |- context [process ?b ?m ?a ?d jobId store] =>
      destruct (process b m a d jobId store) as [store'|msg] eqn:P
  end.
  - unfold process in P.
    rewrite (store_get_readable _ _ _ V R), L in P. cbn [bind] in P.
    rewrite T in P. cbn [negb] in P.
    destruct (prop (Some job) "input") as [input|]; [|discriminate].
    cbn [bind] in P.
    destruct (prop input "subject") as [subject|]; [|discriminate].
    cbn [bind] in P.
    destruct ANTHROPIC_API_KEY as [[|x apiKey]|];
      [rewrite S in P; simplify_eq; eauto| |rewrite S in P; simplify_eq; eauto].
    destruct (buildMessages input) as [messages|]; [|discriminate].
    cbn [bind] in P. unfold makeRequest in P.
    specialize (H (x :: apiKey) messages).
    destruct (https_request (x :: apiKey) messages) as [statusCode data|e];
      [|discriminate].
    specialize (H _ _ eq_refl).
    assert (Ne : negb (statusCode =? 200)%Z = true).
    { destruct (Z.eqb_spec statusCode 200); [contradiction|reflexivity]. }
    rewrite Ne in P.
    destruct (JSON_parse data) as [parsed|e]; cbn [bind] in P;
      rewrite error_response_error in P; cbn [bind default] in P;
      match type of P with
      | context [truthy ?v] => destruct (truthy v)
      end;
      try (rewrite S in P; simplify_eq; eauto);
      rewrite error_response_no_content in P; discriminate.
  - rewrite Tj, S. eauto.
Qed.

End WorkerRequest.

(** ** Start endpoints *)

Lemma eqStr_refl (a : jsstring) : eqStr a a = true.
Proof. unfold eqStr. now destruct (decide (a = a)). Qed.

Lemma eqStr_eq (a b : jsstring) : eqStr a b = true <-> a = b.
Proof. unfold eqStr. destruct (decide (a = b)); split; auto; discriminate. Qed.

Section StartProperties.

Variable JSON_parse : jsstring -> result json.
Variable Date_now : nat -> Z.
Variable random : jsstring.
Variable URL : option jsstring.

Local Abbreviation startJob := (StartJob.handler JSON_parse Date_now random URL).
Local Abbreviation jobId := (StartJob.newJobId Date_now random).
Local Abbreviation startSearch := (StartSearch.handler JSON_parse Date_now random).
Local Abbreviation searchId := (StartSearch.newJobId Date_now random).


Lemma searchId_valid : validKey (Some (JStr searchId)) = Some searchId.
Proof. reflexivity. Qed.


(** X20.  A search is started only for a request that names an exam board and
    a subject: when either is absent or falsy the answer is 400 and the
    store is left untouched, whatever state the store is in. *)
Theorem startSearch_requires_board_and_subject (event : StartSearch.Event)
  (store : BlobStore) (body : json) (examBoard subject : option json) :
  StartSearch.httpMethod event = lit "POST" ->
  parseBody JSON_parse (StartSearch.body event) = Ok body ->
  prop (Some body) "examBoard" = Ok examBoard ->
  prop (Some body) "subject" = Ok subject ->
  truthy examBoard && truthy subject = false ->
  startSearch event store
  = (StartSearch.respond 400 []
       (CheckJob.errorBody (lit "Exam board and subject are required")),
     store).
Proof.
  intros M P E S T. unfold StartSearch.handler, StartSearch.start.
  rewrite M, eqStr_refl, P. cbn [negb bind]. rewrite E, S. cbn [bind].
  assert (B : exists p q, prop (Some body) "paper" = Ok p
                          /\ prop (Some body) "questionNumber" = Ok q).
  { destruct body; simpl in *; try discriminate; eauto. }
  destruct B as (p & q & -> & ->). cbn [bind].
  replace (negb (truthy examBoard) || negb (truthy subject)) with true;
    [reflexivity|].
  destruct (truthy examBoard), (truthy subject); simpl in *; congruence.
Qed.

(** X21.  An accepted search request creates the job: the record stored under
    the new job id has status [processing] and an [input] with the four
    fields of the request that are defined, and nothing else of the
    request; the poll endpoint then answers 200 with that record. *)
Theorem startSearch_then_poll (event : StartSearch.Event)
  (store : BlobStore) (body : json) (examBoard subject : option json)
  (q : list (jsstring * jsstring)) :
  StartSearch.httpMethod event = lit "POST" ->
  parseBody JSON_parse (StartSearch.body event) = Ok body ->
  prop (Some body) "examBoard" = Ok examBoard ->
  prop (Some body) "subject" = Ok subject ->
  truthy examBoard && truthy subject = true ->
  readable store = true -> writable store = true ->
  assoc (lit "jobId") q = Some searchId ->
  exists paper questionNumber,
    prop (Some body) "paper" = Ok paper
    /\ prop (Some body) "questionNumber" = Ok questionNumber
    /\ let record :=
         StartSearch.processingRecord Date_now examBoard subject paper
           questionNumber in
       startSearch event store
       = (StartSearch.respond 202 CheckJob.jsonHeaders
            (StartSearch.acceptedBody Date_now random),
          overwritten store searchId record)
       /\ CheckJob.handler
            {| CheckJob.httpMethod := lit "GET";
               CheckJob.queryStringParameters := Some q |}
            (snd (startSearch event store))
          = {| CheckJob.statusCode := 200;
               CheckJob.headers := CheckJob.jsonHeaders;
               CheckJob.body := CheckJob.JSON_stringify record |}.
Proof.
  intros M P E S T R W Q.
  assert (B : exists p q, prop (Some body) "paper" = Ok p
                          /\ prop (Some body) "questionNumber" = Ok q).
  { destruct body; simpl in *; try discriminate; eauto. }
  destruct B as (p & qn & Pp & Pq). exists p, qn.
  split; [exact Pp|]. split; [exact Pq|]. cbv zeta.
  assert (H : startSearch event store
              = (StartSearch.respond 202 CheckJob.jsonHeaders
                   (StartSearch.acceptedBody Date_now random),
                 overwritten store searchId
                   (StartSearch.processingRecord Date_now examBoard subject
                      p qn))).
  { unfold StartSearch.handler, StartSearch.start.
    rewrite M, eqStr_refl, P. cbn [negb bind]. rewrite E, S, Pp, Pq.
    cbn [bind].
    apply andb_true_iff in T as [-> ->]. cbn [negb orb].
    now rewrite (store_setJSON_writable _ _ _ _ searchId_valid W). }
  split; [exact H|]. rewrite H. cbn [snd].
  apply (poll_record _ searchId);
    [apply validKey_nonempty, searchId_valid|exact Q|exact R
    |apply lookup_insert_eq|reflexivity].
Qed.

End StartProperties.

(** ** The lifecycle of a generation job *)

Section Lifecycle.

Variable JSON_parse : jsstring -> result json.
Variable Date_now : nat -> Z.
Variable random : jsstring.
Variable URL : option jsstring.
Variable buildMessages : option json -> result json.
Variable makeRequest : jsstring -> json -> result json.
Variable ANTHROPIC_API_KEY : option jsstring.
Variable finished_at : Z.

Local Abbreviation startJob := (StartJob.handler JSON_parse Date_now random URL).
Local Abbreviation jobId := (StartJob.newJobId Date_now random).
Local Abbreviation worker :=
  (handler JSON_parse buildMessages makeRequest ANTHROPIC_API_KEY finished_at).


End Lifecycle.

(** ** The job lifecycle on the examples *)

Lemma worker_settles_job_witness :
  exists store' record,
    handler parseExample messagesExample requestExample (Some (lit "sk-key"))
      1700000000999 eventExample storeExample
    = (Ok tt, store')
    /\ blobs store' !! lit "job_1" = Some record
    /\ terminalRecord 1700000000999 record
    /\ prop (Some record) "status" <> Ok (Some (JStr (lit "processing"))).
Proof.
  apply (worker_settles_job parseExample messagesExample requestExample
           (Some (lit "sk-key")) 1700000000999 eventExample storeExample
           (Some (JStr (lit "job_1"))) (lit "job_1") jobExample);
    reflexivity.
Defined.

Lemma worker_then_poll_witness :
  exists record,
    terminalRecord 1700000000999 record
    /\ CheckJob.handler getEvent
         (snd (handler parseExample messagesExample requestExample
                 (Some (lit "sk-key")) 1700000000999 eventExample
                 storeExample))
       = {| CheckJob.statusCode := 200;
            CheckJob.headers := CheckJob.jsonHeaders;
            CheckJob.body := CheckJob.JSON_stringify record |}.
Proof.
  apply (worker_then_poll parseExample messagesExample requestExample
           (Some (lit "sk-key")) 1700000000999 eventExample storeExample
           (Some (JStr (lit "job_1"))) (lit "job_1") jobExample
           [(lit "jobId", lit "job_1")]);
    reflexivity.
Defined.

Lemma worker_missing_credential_witness :
  handler parseExample messagesExample requestExample None 1700000000999
    eventExample storeExample
  = (Ok tt,
     overwritten storeExample (lit "job_1")
       (errorRecord (JStr (lit "ANTHROPIC_API_KEY not configured")))).
Proof.
  apply (worker_missing_credential parseExample messagesExample
           requestExample None 1700000000999 eventExample storeExample
           (Some (JStr (lit "job_1"))) (lit "job_1") jobExample
           (JObj [(lit "subject", JStr (lit "English"))]));
    try reflexivity; [discriminate|now left].
Defined.

Lemma worker_completed_only_if_witness :
  exists job input apiKey messages claudeData block text,
    blobs storeExample !! lit "job_1" = Some job
    /\ prop (Some job) "input" = Ok input
    /\ Some (lit "sk-key") = Some apiKey /\ apiKey <> []
    /\ messagesExample input = Ok messages
    /\ requestExample apiKey messages = Ok claudeData
    /\ (exists error, prop (Some claudeData) "error" = Ok error
                      /\ truthy error = false)
    /\ (exists content, prop (Some claudeData) "content" = Ok content
                        /\ index0 content = Ok block)
    /\ prop block "text" = Ok (Some (JStr text))
    /\ extractJavaScript text = Ok (lit "window.ESSAY_CONFIG = {};").
Proof.
  apply (worker_completed_only_if parseExample messagesExample requestExample
           (Some (lit "sk-key")) 1700000000999 eventExample storeExample
           (overwritten storeExample (lit "job_1")
              (completedRecord 1700000000999
                 (lit "window.ESSAY_CONFIG = {};")))
           (lit "job_1")).
  - vm_compute. reflexivity.
  - vm_compute. reflexivity.
  - vm_compute. discriminate.
Defined.

Lemma worker_failed_response_not_completed_witness :
  exists error,
    handler parseExample messagesExample
      (makeRequest parseExample overloadedExample) (Some (lit "sk-key"))
      1700000000999 eventExample storeExample
    = (Ok tt, overwritten storeExample (lit "job_1") (errorRecord error)).
Proof.
  apply (worker_failed_response_not_completed parseExample messagesExample
           overloadedExample (Some (lit "sk-key")) 1700000000999
           eventExample storeExample (Some (JStr (lit "job_1")))
           (lit "job_1") jobExample); try reflexivity.
  intros apiKey messages statusCode data [= <- _]. discriminate.
Defined.

Lemma startSearch_requires_board_and_subject_witness :
  StartSearch.handler parseLifecycle clockExample randomExample
    emptySearchEventExample storeExample
  = (StartSearch.respond 400 []
       (CheckJob.errorBody (lit "Exam board and subject are required")),
     storeExample).
Proof.
  apply (startSearch_requires_board_and_subject parseLifecycle clockExample
           randomExample emptySearchEventExample storeExample (JObj [])
           None None); reflexivity.
Defined.

Lemma startSearch_then_poll_witness :
  exists paper questionNumber,
    prop (Some (JObj [(lit "examBoard", JStr (lit "AQA"));
                      (lit "subject", JStr (lit "History"))])) "paper"
    = Ok paper
    /\ prop (Some (JObj [(lit "examBoard", JStr (lit "AQA"));
                         (lit "subject", JStr (lit "History"))]))
         "questionNumber"
       = Ok questionNumber
    /\ let record :=
         StartSearch.processingRecord clockExample
           (Some (JStr (lit "AQA"))) (Some (JStr (lit "History"))) paper
           questionNumber in
       StartSearch.handler parseLifecycle clockExample randomExample
         searchEventExample storeExample
       = (StartSearch.respond 202 CheckJob.jsonHeaders
            (StartSearch.acceptedBody clockExample randomExample),
          overwritten storeExample
            (StartSearch.newJobId clockExample randomExample) record)
       /\ CheckJob.handler
            {| CheckJob.httpMethod := lit "GET";
               CheckJob.queryStringParameters :=
                 Some [(lit "jobId", searchIdExample)] |}
            (snd (StartSearch.handler parseLifecycle clockExample
                    randomExample searchEventExample storeExample))
          = {| CheckJob.statusCode := 200;
               CheckJob.headers := CheckJob.jsonHeaders;
               CheckJob.body := CheckJob.JSON_stringify record |}.
Proof.
  apply (startSearch_then_poll parseLifecycle clockExample randomExample
           searchEventExample storeExample
           (JObj [(lit "examBoard", JStr (lit "AQA"));
                  (lit "subject", JStr (lit "History"))])
           (Some (JStr (lit "AQA"))) (Some (JStr (lit "History")))
           [(lit "jobId", searchIdExample)]); reflexivity.
Defined.


(** The examples computed: the job goes from [processing] to
    [completed], and the answer of the start function names it. *)
Example job_lifecycle_example :
  let out :=
    StartJob.handler parseLifecycle clockExample randomExample None
      startEventExample storeExample in
  CheckJob.statusCode (StartJob.response out) = 202%Z
  /\ StartJob.trigger out
     = Some {| StartJob.url :=
                 lit "https://essays.example/.netlify/functions/process-job";
               StartJob.payload := JObj [(lit "jobId", JStr startedIdExample)] |}
  /\ blobs (StartJob.store out) !! startedIdExample
     = Some (JObj [(lit "status", JStr (lit "processing"));
                   (lit "input", JObj [(lit "subject", JStr (lit "English"))]);
                   (lit "timestamp", JNum 1700000000001)])
  /\ blobs (snd (handler parseLifecycle messagesExample requestExample
                   (Some (lit "sk-key")) 1700000000999 triggerExample
                   (StartJob.store out))) !! startedIdExample
     = Some (completedRecord 1700000000999 (lit "window.ESSAY_CONFIG = {};")).
Proof. cbv zeta. repeat split; vm_compute; reflexivity. Qed.

(** Without a site URL and without headers the start function answers
    500 although it has created the job. *)
Example startJob_created_but_failed :
  let out :=
    StartJob.handler parseLifecycle clockExample randomExample None
      {| StartJob.httpMethod := lit "POST";
         StartJob.body := Some startBodyExample;
         StartJob.headers := None |} storeExample in
  CheckJob.statusCode (StartJob.response out) = 500%Z
  /\ StartJob.trigger out = None
  /\ blobs (StartJob.store out) !! startedIdExample
     = Some (StartJob.processingRecord clockExample
               (JObj [(lit "subject", JStr (lit "English"))])).
Proof. cbv zeta. repeat split; vm_compute; reflexivity. Qed.


(** ** Escaping of the source material *)

Lemma replaceChar_escapeChar (s : jsstring) :
  replaceChar 96 (lit "\`") (replaceChar 92 (lit "\\") s)
  = flat_map escapeChar s.
Proof.
  change (lit "\`") with [92; 96]%N. change (lit "\\") with [92; 92]%N.
  unfold replaceChar. induction s as [|x s IH]; [reflexivity|].
  cbn [flat_map]. rewrite flat_map_app, IH. f_equal.
  unfold escapeChar. destruct (N.eqb_spec x 92) as [->|N1]; [reflexivity|].
  cbn [flat_map]. rewrite app_nil_r.
  destruct (N.eqb_spec x 96); reflexivity.
Qed.

Lemma escapeForTemplateLiteral_escaped (s : jsstring) :
  escapeForTemplateLiteral s = escaped s.
Proof.
  unfold escapeForTemplateLiteral, escaped.
  destruct s as [|x s]; [reflexivity|]. cbn [nonEmpty negb].
  now rewrite replaceChar_escapeChar.
Qed.

Lemma replaceDollarBrace_cons (r : jsstring) (x : N) (t : jsstring) :
  x <> 36%N -> replaceDollarBrace r (x :: t) = x :: replaceDollarBrace r t.
Proof.
  intros H. destruct t as [|y t]; [reflexivity|].
  cbn [replaceDollarBrace].
  destruct (N.eqb_spec x 36); [contradiction|reflexivity].
Qed.

Lemma replaceDollarBrace_dollar (r : jsstring) (t : jsstring) :
  hd_error t <> Some 123%N ->
  replaceDollarBrace r (36%N :: t) = 36%N :: replaceDollarBrace r t.
Proof.
  intros H. destruct t as [|y t]; [reflexivity|].
  cbn [replaceDollarBrace].
  destruct (N.eqb_spec y 123) as [->|]; [now elim H|].
  now rewrite andb_false_r.
Qed.

Lemma escaped_backslash (s : jsstring) :
  escaped (92%N :: s) = 92%N :: 92%N :: escaped s.
Proof.
  unfold escaped. cbn [flat_map]. change (escapeChar 92) with [92; 92]%N.
  cbn [app]. now rewrite !replaceDollarBrace_cons by discriminate.
Qed.

Lemma escaped_backtick (s : jsstring) :
  escaped (96%N :: s) = 92%N :: 96%N :: escaped s.
Proof.
  unfold escaped. cbn [flat_map]. change (escapeChar 96) with [92; 96]%N.
  cbn [app]. now rewrite !replaceDollarBrace_cons by discriminate.
Qed.

Lemma escaped_other (x : N) (s : jsstring) :
  x <> 92%N -> x <> 96%N -> x <> 36%N -> escaped (x :: s) = x :: escaped s.
Proof.
  intros H1 H2 H3. unfold escaped. cbn [flat_map]. unfold escapeChar at 1.
  destruct (N.eqb_spec x 92); [contradiction|].
  destruct (N.eqb_spec x 96); [contradiction|].
  cbn [app]. now rewrite replaceDollarBrace_cons.
Qed.

Lemma escapeChar_head (s : jsstring) (y : N) :
  y <> 92%N ->
  hd_error (flat_map escapeChar s) = Some y -> hd_error s = Some y.
Proof.
  intros Hy. destruct s as [|x s]; [discriminate|].
  cbn [flat_map]. unfold escapeChar at 1.
  destruct (N.eqb_spec x 92); [intros [= <-]; now elim Hy|].
  destruct (N.eqb_spec x 96); [intros [= <-]; now elim Hy|].
  trivial.
Qed.

Lemma escaped_dollar_brace (s : jsstring) :
  escaped (36%N :: 123%N :: s) = 92%N :: 36%N :: 123%N :: escaped s.
Proof. reflexivity. Qed.

Lemma escaped_dollar (s : jsstring) :
  hd_error s <> Some 123%N -> escaped (36%N :: s) = 36%N :: escaped s.
Proof.
  intros H. unfold escaped. cbn [flat_map].
  change (escapeChar 36) with [36%N]. cbn [app].
  apply replaceDollarBrace_dollar.
  intros E. apply H. now apply escapeChar_head in E.
Qed.

Lemma escaped_head (s : jsstring) (y : N) :
  y <> 92%N -> y <> 36%N ->
  hd_error (escaped s) = Some y -> hd_error s = Some y.
Proof.
  intros H1 H2. destruct s as [|x s]; [discriminate|].
  destruct (N.eqb_spec x 92) as [->|N1];
    [rewrite escaped_backslash; intros [= <-]; now elim H1|].
  destruct (N.eqb_spec x 96) as [->|N2];
    [rewrite escaped_backtick; intros [= <-]; now elim H1|].
  destruct (N.eqb_spec x 36) as [->|N3].
  - destruct s as [|z s].
    + intros [= <-]. now elim H2.
    + destruct (N.eqb_spec z 123) as [->|N4].
      * rewrite escaped_dollar_brace. intros [= <-]. now elim H1.
      * rewrite escaped_dollar by (simpl; congruence).
        intros [= <-]. now elim H2.
  - now rewrite escaped_other.
Qed.

Lemma templateValue_plain (x : N) (t : jsstring) :
  x <> 92%N -> x <> 96%N -> x <> 36%N -> x <> 13%N ->
  templateValue (x :: t) = option_map (cons x) (templateValue t).
Proof.
  intros H1 H2 H3 H4. cbn [templateValue].
  destruct (N.eqb_spec x 92); [contradiction|].
  destruct (N.eqb_spec x 96); [contradiction|].
  destruct (N.eqb_spec x 36); [contradiction|].
  destruct (N.eqb_spec x 13); [contradiction|reflexivity].
Qed.

Lemma templateValue_dollar (t : jsstring) :
  hd_error t <> Some 123%N ->
  templateValue (36%N :: t) = option_map (cons 36%N) (templateValue t).
Proof.
  intros H. destruct t as [|y t]; [reflexivity|].
  change (templateValue (36%N :: y :: t))
    with (if (y =? 123)%N then None
          else option_map (cons 36%N) (templateValue (y :: t))).
  destruct (N.eqb_spec y 123) as [->|]; [now elim H|reflexivity].
Qed.

Lemma templateValue_cr (t : jsstring) :
  hd_error t <> Some 10%N ->
  templateValue (13%N :: t) = option_map (cons 10%N) (templateValue t).
Proof.
  intros H. destruct t as [|y t]; [reflexivity|].
  change (templateValue (13%N :: y :: t))
    with (if (y =? 10)%N then option_map (cons 10%N) (templateValue t)
          else option_map (cons 10%N) (templateValue (y :: t))).
  destruct (N.eqb_spec y 10) as [->|]; [now elim H|reflexivity].
Qed.

Lemma normalizeLineEnds_cr (t : jsstring) :
  hd_error t <> Some 10%N ->
  normalizeLineEnds (13%N :: t) = 10%N :: normalizeLineEnds t.
Proof.
  intros H. destruct t as [|y t]; [reflexivity|].
  change (normalizeLineEnds (13%N :: y :: t))
    with (if (y =? 10)%N then 10%N :: normalizeLineEnds t
          else 10%N :: normalizeLineEnds (y :: t)).
  destruct (N.eqb_spec y 10) as [->|]; [now elim H|reflexivity].
Qed.

Lemma normalizeLineEnds_plain (x : N) (t : jsstring) :
  x <> 13%N -> normalizeLineEnds (x :: t) = x :: normalizeLineEnds t.
Proof.
  intros H. cbn [normalizeLineEnds].
  destruct (N.eqb_spec x 13); [contradiction|reflexivity].
Qed.

Lemma templateValue_escaped (n : nat) :
  forall s, (length s <= n)%nat ->
    templateValue (escaped s) = Some (normalizeLineEnds s).
Proof.
  induction n as [|n IH]; intros s L.
  - destruct s; [reflexivity|simpl in L; lia].
  - destruct s as [|x s]; [reflexivity|]. simpl in L.
    assert (IHs : templateValue (escaped s) = Some (normalizeLineEnds s))
      by (apply IH; lia).
    destruct (N.eqb_spec x 92) as [->|N1].
    { rewrite escaped_backslash, normalizeLineEnds_plain by discriminate.
      change (templateValue (92%N :: 92%N :: escaped s))
        with (option_map (cons 92%N) (templateValue (escaped s))).
      now rewrite IHs. }
    destruct (N.eqb_spec x 96) as [->|N2].
    { rewrite escaped_backtick, normalizeLineEnds_plain by discriminate.
      change (templateValue (92%N :: 96%N :: escaped s))
        with (option_map (cons 96%N) (templateValue (escaped s))).
      now rewrite IHs. }
    destruct (N.eqb_spec x 36) as [->|N3].
    { rewrite normalizeLineEnds_plain by discriminate.
      destruct s as [|z s]; [reflexivity|].
      destruct (N.eqb_spec z 123) as [->|N4].
      - rewrite escaped_dollar_brace.
        change (templateValue (92%N :: 36%N :: 123%N :: escaped s))
          with (option_map (cons 36%N) (templateValue (123%N :: escaped s))).
        rewrite templateValue_plain by discriminate.
        rewrite normalizeLineEnds_plain by discriminate.
        simpl in L. rewrite (IH s) by lia. reflexivity.
      - rewrite escaped_dollar by (simpl; congruence).
        rewrite templateValue_dollar, IHs; [reflexivity|].
        intros E. apply escaped_head in E; [|discriminate|discriminate].
        simpl in E. congruence. }
    destruct (N.eqb_spec x 13) as [->|N4].
    { rewrite escaped_other by discriminate.
      destruct s as [|z s]; [reflexivity|].
      destruct (N.eqb_spec z 10) as [->|N5].
      - rewrite escaped_other by discriminate.
        change (templateValue (13%N :: 10%N :: escaped s))
          with (option_map (cons 10%N) (templateValue (escaped s))).
        change (normalizeLineEnds (13%N :: 10%N :: s))
          with (10%N :: normalizeLineEnds s).
        simpl in L. rewrite (IH s) by lia. reflexivity.
      - rewrite normalizeLineEnds_cr by (simpl; congruence).
        rewrite templateValue_cr, IHs; [reflexivity|].
        intros E. apply escaped_head in E; [|discriminate|discriminate].
        simpl in E. congruence. }
    rewrite escaped_other, templateValue_plain, IHs by assumption.
    now rewrite normalizeLineEnds_plain.
Qed.

Lemma normalizeLineEnds_id (s : jsstring) :
  ~ In 13%N s -> normalizeLineEnds s = s.
Proof.
  induction s as [|x s IH]; [reflexivity|]. intros H.
  rewrite normalizeLineEnds_plain, IH; [reflexivity| |];
    intros E; apply H; [now right|now left].
Qed.

(** X23.  The escaped source material, put between two backticks, is a
    template literal that denotes the source material itself: no
    backtick of the material ends the literal, no [${] opens a
    substitution, and every backslash stands for itself.  Only the line
    ends change, as in every template literal: CR LF and CR are read as
    LF, so a material without CR is denoted as it is
    ([normalizeLineEnds_id]). *)
Theorem escapeForTemplateLiteral_round_trip (str : jsstring) :
  templateValue (escapeForTemplateLiteral str) = Some (normalizeLineEnds str).
Proof.
  rewrite escapeForTemplateLiteral_escaped.
  now apply (templateValue_escaped (length str)).
Qed.

Example escapeForTemplateLiteral_example :
  escapeForTemplateLiteral (lit "a\b`c${d}$e") = lit "a\\b\`c\${d}$e"
  /\ templateValue (lit "a\\b\`c\${d}$e") = Some (lit "a\b`c${d}$e")
  /\ templateValue (lit "a`b") = None
  /\ templateValue (lit "a${b}") = None.
Proof. repeat split. Qed.


(** ** Generation in one call *)

Section GenerateProperties.

Variable JSON_parse : jsstring -> result json.
Variable buildMessages : option json -> result json.
Variable makeRequest : jsstring -> json -> result json.
Variable ANTHROPIC_API_KEY : option jsstring.
Variable Date_now : nat -> Z.
Variable random : jsstring.
Variable stack : jsstring -> option json.

Local Abbreviation generateConfig :=
  (Generate.handler JSON_parse buildMessages makeRequest ANTHROPIC_API_KEY
     Date_now random stack).
Local Abbreviation resultId := (Generate.newJobId Date_now random).

Lemma generate_outcome (event : Generate.Event) (store : option BlobStore) :
  (exists config,
     let result := Generate.resultRecord Date_now random config in
     generateConfig event store
     = (Generate.respond 200 CheckJob.jsonHeaders result,
        Generate.save Date_now random store result))
  \/ (exists response,
        generateConfig event store = (response, store)
        /\ CheckJob.statusCode response <> 200%Z).
Proof.
  unfold Generate.handler, Generate.generate.
  destruct (eqStr (Generate.httpMethod event) (lit "POST")); cbn [negb];
    [|right; eexists; split; [reflexivity|discriminate]].
  unfold bind.
  repeat case_match; simplify_eq;
    try (right; eexists; split; [reflexivity|discriminate]).
  left. eexists. reflexivity.
Qed.

(** X24.  The answer of the generation function does not depend on the
    store: whether Blobs is configured, what the store holds and whether
    the write succeeds make no difference to the response. *)
Theorem generate_response_independent_of_store (event : Generate.Event)
  (store1 store2 : option BlobStore) :
  fst (generateConfig event store1) = fst (generateConfig event store2).
Proof.
  unfold Generate.handler, Generate.generate.
  destruct (eqStr (Generate.httpMethod event) (lit "POST")); cbn [negb];
    [|reflexivity].
  unfold bind. repeat case_match; simplify_eq; reflexivity.
Qed.

(** X25.  A generated configuration is stored as it is answered.  When
    the generation function answers 200 and its store can be read and
    written, the body of the answer is the record stored under the new
    job id, the poll endpoint of the results then answers 200 with the
    same body, and nothing else of the store has changed; when it
    answers another status the store is as it was. *)
Theorem generate_then_check (event : Generate.Event) (store : BlobStore)
  (q : list (jsstring * jsstring)) :
  readable store = true -> writable store = true ->
  assoc (lit "jobId") q = Some resultId ->
  let response := fst (generateConfig event (Some store)) in
  let store' := snd (generateConfig event (Some store)) in
  if (CheckJob.statusCode response =? 200)%Z then
    exists result s',
      store' = Some s'
      /\ CheckJob.body response = CheckJob.JSON_stringify result
      /\ blobs s' !! resultId = Some result
      /\ (forall k, k <> resultId -> blobs s' !! k = blobs store !! k)
      /\ CheckResult.handler
           {| CheckJob.httpMethod := lit "GET";
              CheckJob.queryStringParameters := Some q |} s'
         = {| CheckJob.statusCode := 200;
              CheckJob.headers := CheckJob.jsonHeaders;
              CheckJob.body := CheckJob.JSON_stringify result |}
  else store' = Some store.
Proof.
  intros R W Q. cbv zeta.
  assert (V : validKey (Some (JStr resultId)) = Some resultId) by reflexivity.
  destruct (generate_outcome event (Some store))
    as [(config & E)|(response & E & N)]; cbv zeta in E; rewrite E;
    cbn [fst snd].
  - cbn [Generate.respond CheckJob.statusCode Z.eqb Pos.eqb].
    unfold Generate.save.
    rewrite (store_setJSON_writable _ _ _ _ V W).
    eexists. eexists. split; [reflexivity|]. split; [reflexivity|].
    split; [apply lookup_insert_eq|]. split.
    + intros k Hk. simpl. now rewrite lookup_insert_ne by congruence.
    + unfold CheckResult.handler, CheckJob.jobIdParam.
      cbn [CheckJob.httpMethod CheckJob.queryStringParameters].
      rewrite Q.
      replace (eqStr (lit "GET") (lit "GET")) with true by reflexivity.
      cbn [negb option_map].
      assert (T : truthy (Some (JStr resultId)) = true) by reflexivity.
      rewrite T. cbn [negb].
      erewrite store_get_readable; [|exact V|exact R].
      cbn [overwritten blobs]. rewrite lookup_insert_eq. reflexivity.
  - destruct (Z.eqb_spec (CheckJob.statusCode response) 200);
      [contradiction|reflexivity].
Qed.

End GenerateProperties.

Lemma generate_then_check_witness :
  let response :=
    fst (Generate.handler parseLifecycle messagesExample requestExample
           (Some (lit "sk-key")) clockExample randomExample noStack
           generateEventExample (Some storeExample)) in
  let store' :=
    snd (Generate.handler parseLifecycle messagesExample requestExample
           (Some (lit "sk-key")) clockExample randomExample noStack
           generateEventExample (Some storeExample)) in
  if (CheckJob.statusCode response =? 200)%Z then
    exists result s',
      store' = Some s'
      /\ CheckJob.body response = CheckJob.JSON_stringify result
      /\ blobs s' !! Generate.newJobId clockExample randomExample
         = Some result
      /\ (forall k, k <> Generate.newJobId clockExample randomExample ->
            blobs s' !! k = blobs storeExample !! k)
      /\ CheckResult.handler
           {| CheckJob.httpMethod := lit "GET";
              CheckJob.queryStringParameters :=
                Some [(lit "jobId", startedIdExample)] |} s'
         = {| CheckJob.statusCode := 200;
              CheckJob.headers := CheckJob.jsonHeaders;
              CheckJob.body := CheckJob.JSON_stringify result |}
  else store' = Some storeExample.
Proof.
  exact (generate_then_check parseLifecycle messagesExample requestExample
           (Some (lit "sk-key")) clockExample randomExample noStack
           generateEventExample storeExample
           [(lit "jobId", startedIdExample)] eq_refl eq_refl eq_refl).
Defined.

(** The example computed: the answer is the generated configuration,
    with or without a store. *)
Example generate_example :
  fst (Generate.handler parseLifecycle messagesExample requestExample
         (Some (lit "sk-key")) clockExample randomExample noStack
         generateEventExample None)
  = Generate.respond 200 CheckJob.jsonHeaders
      (JObj [(lit "completed", JBool true);
             (lit "config", JStr (lit "window.ESSAY_CONFIG = {};"));
             (lit "jobId", JStr startedIdExample);
             (lit "timestamp", JNum 1700000000001)])
  /\ CheckResult.handler getOtherEvent storeExample
     = {| CheckJob.statusCode := 200;
          CheckJob.headers := CheckJob.jsonHeaders;
          CheckJob.body :=
            CheckJob.JSON_stringify (JObj [(lit "completed", JBool false)]) |}.
Proof. split; vm_compute; reflexivity. Qed.


(** ** The order of the lines *)

Lemma sorted_perm_unique (l l' : list boundary) :
  StronglySorted descMinMark l -> StronglySorted descMinMark l' ->
  Permutation l l' -> List.NoDup (map minMark l) -> l = l'.
Proof.
  revert l'. induction l as [|a l IH]; intros l' S S' P ND.
  - now apply Permutation_nil in P.
  - destruct l' as [|a' l'];
      [apply Permutation_sym, Permutation_nil in P; discriminate|].
    apply StronglySorted_inv in S as [S F], S' as [S' F'].
    cbn [map] in ND. apply List.NoDup_cons_iff in ND as [Na ND].
    rewrite List.Forall_forall in F, F'.
    assert (E : a = a').
    { assert (I : In a (a' :: l')) by (apply (Permutation_in _ P); now left).
      assert (I' : In a' (a :: l))
        by (apply (Permutation_in _ (Permutation_sym P)); now left).
      destruct I as [->|I]; [reflexivity|].
      destruct I' as [->|I']; [reflexivity|].
      specialize (F _ I'). specialize (F' _ I). unfold descMinMark in F, F'.
      elim Na. replace (minMark a) with (minMark a') by lia.
      now apply in_map. }
    subst a'. f_equal. apply IH; auto.
    now apply Permutation_cons_inv in P.
Qed.

(** X26.  The order of the lines does not matter when no two parsed
    boundaries have the same [minMark]: two texts whose parsed
    boundaries are the same up to their order give the same output.
    (With equal [minMark]s the order shows: the sort keeps such
    boundaries in input order, and of two lines for one numeric grade
    the later one is kept.) *)
Theorem processGradeBoundaries_line_order (text text' : jsstring) (tm : Z)
  (bs bs' : list boundary) :
  parseBoundaries text = Ok bs -> parseBoundaries text' = Ok bs' ->
  bs <> [] -> Permutation bs bs' -> List.NoDup (map minMark bs) ->
  processGradeBoundaries text tm = processGradeBoundaries text' tm.
Proof.
  intros P P' N Pm ND.
  assert (N' : bs' <> []).
  { intros ->. apply Permutation_sym, Permutation_nil in Pm. contradiction. }
  rewrite (processGradeBoundaries_parsed text tm bs P N).
  rewrite (processGradeBoundaries_parsed text' tm bs' P' N').
  assert (E : sortBy byMinMarkDesc bs = sortBy byMinMarkDesc bs').
  { apply sorted_perm_unique.
    - apply Sorted_StronglySorted;
        [exact descMinMark_trans|apply sortBy_sorted].
    - apply Sorted_StronglySorted;
        [exact descMinMark_trans|apply sortBy_sorted].
    - eapply perm_trans; [apply Permutation_sym, sortBy_perm|].
      eapply perm_trans; [exact Pm|apply sortBy_perm].
    - eapply Permutation_NoDup; [|exact ND].
      apply Permutation_map, sortBy_perm. }
  unfold isNumeric. rewrite (forallb_perm _ bs bs' Pm), E. reflexivity.
Qed.

Lemma processGradeBoundaries_line_order_witness :
  processGradeBoundaries specExample 40
  = processGradeBoundaries
      (lit "Grade 4: 16-20" ++ [10%N] ++ lit "Grade 6: 24-28" ++ [10%N]
       ++ lit "Grade 9: 36-40") 40.
Proof.
  apply (processGradeBoundaries_line_order _ _ 40 specExampleBoundaries
           (rev specExampleBoundaries)).
  - vm_compute. reflexivity.
  - vm_compute. reflexivity.
  - discriminate.
  - apply Permutation_rev.
  - repeat constructor; simpl; intuition discriminate.
Defined.

(** Equal [minMark]s: the order of the two lines for grade 7 decides
    which of them is kept. *)
Example processGradeBoundaries_line_order_ties :
  processGradeBoundaries
    (lit "7: 20-25" ++ [10%N] ++ lit "7: 20-29" ++ [10%N] ++ lit "5: 12") 40
  <> processGradeBoundaries
       (lit "7: 20-29" ++ [10%N] ++ lit "7: 20-25" ++ [10%N] ++ lit "5: 12")
       40.
Proof. vm_compute. discriminate. Qed.

(** ** Job ids *)

Lemma digits_split (d1 d2 r1 r2 : jsstring) (sep : N) :
  isDigit sep = false ->
  forallb isDigit d1 = true -> forallb isDigit d2 = true ->
  d1 ++ sep :: r1 = d2 ++ sep :: r2 -> d1 = d2 /\ r1 = r2.
Proof.
  intros Hs. revert d2. induction d1 as [|x d1 IH]; intros d2 F1 F2 E.
  - destruct d2 as [|y d2]; [now injection E as <-|].
    simpl in E. injection E as <- _. simpl in F2. now rewrite Hs in F2.
  - destruct d2 as [|y d2].
    + simpl in E. injection E as -> _. simpl in F1. now rewrite Hs in F1.
    + simpl in E. injection E as <- E. simpl in F1, F2.
      apply andb_true_iff in F1 as [_ F1], F2 as [_ F2].
      destruct (IH d2 F1 F2 E) as [-> ->]. auto.
Qed.

(** X27.  The job id of the start function determines the clock reading
    and the random suffix it was made from: two ids are equal only if
    both coincide.  So the start function replaces the record of an
    earlier job only when it reads the same time and draws the same
    suffix. *)
Theorem newJobId_injective (clock clock' : nat -> Z) (random random' : jsstring) :
  (0 <= clock 0%nat)%Z -> (0 <= clock' 0%nat)%Z ->
  StartJob.newJobId clock random = StartJob.newJobId clock' random' ->
  clock 0%nat = clock' 0%nat /\ random = random'.
Proof.
  intros H H' E. unfold StartJob.newJobId in E.
  apply app_inv_head in E.
  destruct (toString_parseInt _ H) as (_ & F & Pt).
  destruct (toString_parseInt _ H') as (_ & F' & Pt').
  change (lit "_" ++ random) with (95%N :: random) in E.
  change (lit "_" ++ random') with (95%N :: random') in E.
  apply digits_split in E as [Et Er]; [|reflexivity|exact F|exact F'].
  split; [|exact Er]. rewrite <- Pt, <- Pt'. now rewrite Et.
Qed.

Lemma newJobId_injective_witness :
  clockExample 0%nat = clockExample 0%nat /\ randomExample = randomExample.
Proof.
  apply (newJobId_injective clockExample clockExample randomExample
           randomExample); [vm_compute; discriminate..|reflexivity].
Defined.
